(** * Great-circle distances and Kruskal's algorithm of [src/App.jsx]

    A shallow embedding of [haversineDistance],
    [buildMinimumSpanningTree] and the data that [MapView] derives from
    the rows it loads, with the properties their specification states
    about them.

    JavaScript numbers are IEEE-754 binary64 values; they are modelled by
    [spec_float] with the operations of the standard library's
    specification of floating-point arithmetic (precision 53, maximal
    exponent 1024); [Math.sqrt] is the correctly rounded square root.
    [Math.sin], [Math.cos], [Math.atan2] and [**] are
    "implementation-approximated" in ECMAScript: they are the fields of a
    record [Libm], over which the development is parametric.  The
    distance function is written once, over an interface [JsMath] of the
    arithmetic it uses, so that it can also be read in exact real
    arithmetic.

    [Array.prototype.sort] is fixed by ECMAScript on consistent
    comparison functions only; the program is embedded over a record
    [Engine] that holds the libm and a sort with this contract.  Two
    engines are built: one that sorts by stable insertion, and one that
    sorts by the binary insertion of V8.

    The object [parent] is created by [{}] and inherits from
    [Object.prototype]: a read falls back on the inherited properties, and
    an assignment to [__proto__] stores nothing.  [find] is recursive
    without a structural argument: it takes the depth of the call stack
    that is left, and the function returns [None] when the stack
    overflows.

    The function is embedded twice: on values, and on a heap in which the
    points, the array of points and the arrays it creates are objects at
    addresses.  The two are shown to agree.

    The first part embeds the program.  The parts that follow relate the
    loop to the selection of edges on a graph, the comparison function of
    the sort to the order of the distances, and the union-find structure
    to the components of the graph; then come the properties of the
    specification, and further properties of the code: of [find] and
    [union], of the tree builder on any list of points, of the rows read
    and of the provinces offered by [MapView]. *)

From stdpp Require Import gmap strings list relations sorting.
From Stdlib Require Import ZArith Lia Lra Reals SpecFloat Ascii.

Local Open Scope Z_scope.

(** ** JavaScript numbers *)

Module Num.

Definition prec : Z := 53.
Definition emax : Z := 1024.

Abbreviation number := spec_float.

Definition add : number -> number -> number := SFadd prec emax.
Definition sub : number -> number -> number := SFsub prec emax.
Definition mul : number -> number -> number := SFmul prec emax.
Definition div : number -> number -> number := SFdiv prec emax.
Definition sqrt : number -> number := SFsqrt prec emax.

(** An integer literal of the source text. *)
Definition lit (z : Z) : number := binary_normalize prec emax z 0 false.

Definition zero : number := S754_zero false.

(** [Math.PI], the double nearest to pi: 0x1.921fb54442d18p+1. *)
Definition PI : number := S754_finite false 7074237752028440 (-51).

(** [0 < v] and [v < 0] as JavaScript evaluates them: false on NaN. *)
Definition gt0 (v : number) : bool := SFltb zero v.
Definition lt0 (v : number) : bool := SFltb v zero.

(** A finite value whose exponent is in range.  Every finite double is an
    integer multiple of [2^-1074]. *)
Definition finite (v : number) : bool :=
  match v with
  | S754_zero _ => true
  | S754_finite _ _ e => (-1074 <=? e) && (e <=? 971)
  | _ => false
  end.

(** The exact value of a finite number, in units of [2^-1074]. *)
Definition ulps (v : number) : Z :=
  match v with
  | S754_finite s m e => cond_Zopp s (Z.pos m * 2 ^ (e + 1074))
  | _ => 0
  end.

#[export] Instance number_eq_dec : EqDecision number.
Proof. solve_decision. Defined.

End Num.

Import Num.

(** ** The arithmetic used by the distance function *)

Class JsMath (N : Type) : Type := {
  js_lit : Z -> N;
  js_add : N -> N -> N;
  js_sub : N -> N -> N;
  js_mul : N -> N -> N;
  js_div : N -> N -> N;
  js_pow : N -> N -> N;
  Math_PI : N;
  Math_sqrt : N -> N;
  Math_sin : N -> N;
  Math_cos : N -> N;
  Math_atan2 : N -> N -> N;
}.

(** The functions ECMAScript leaves to the implementation. *)
Record Libm : Type := {
  libm_sin : number -> number;
  libm_cos : number -> number;
  libm_atan2 : number -> number -> number;
  libm_pow : number -> number -> number;
}.

Definition ieee_math (L : Libm) : JsMath number := {|
  js_lit := lit;
  js_add := add;
  js_sub := sub;
  js_mul := mul;
  js_div := div;
  js_pow := libm_pow L;
  Math_PI := PI;
  Math_sqrt := sqrt;
  Math_sin := libm_sin L;
  Math_cos := libm_cos L;
  Math_atan2 := libm_atan2 L;
|}.

(** ** Points and edges *)

(** A parsed row of the data file.  Only [id], [lat] and [lng] are read by
    the functions below. *)
Record Point (N : Type) : Type := {
  id : string;
  localidad : string;
  provincia : string;
  poblacion : string;
  estado : string;
  lat : N;
  lng : N;
}.
Arguments id {N} _.
Arguments localidad {N} _.
Arguments provincia {N} _.
Arguments poblacion {N} _.
Arguments estado {N} _.
Arguments lat {N} _.
Arguments lng {N} _.
Arguments Build_Point {N} _ _ _ _ _ _ _.

(** ** [haversineDistance] *)

Section Haversine.
Context {N : Type} {M : JsMath N}.

Definition toRad (x : N) : N :=
  js_div (js_mul x Math_PI) (js_lit 180).

Definition R_km : N := js_lit 6371.

Definition haversineDistance (a b : Point N) : N :=
  let dLat := toRad (js_sub (lat b) (lat a)) in
  let dLng := toRad (js_sub (lng b) (lng a)) in
  let lat1 := toRad (lat a) in
  let lat2 := toRad (lat b) in
  let aVal :=
    js_add
      (js_pow (Math_sin (js_div dLat (js_lit 2))) (js_lit 2))
      (js_mul
         (js_mul (js_pow (Math_sin (js_div dLng (js_lit 2))) (js_lit 2))
                 (Math_cos lat1))
         (Math_cos lat2)) in
  let c :=
    js_mul (js_lit 2)
           (Math_atan2 (Math_sqrt aVal)
                       (Math_sqrt (js_sub (js_lit 1) aVal))) in
  js_mul R_km c.

(** The sum [aVal] of the function above. *)
Definition aVal (a b : Point N) : N :=
  let dLat := toRad (js_sub (lat b) (lat a)) in
  let dLng := toRad (js_sub (lng b) (lng a)) in
  let lat1 := toRad (lat a) in
  let lat2 := toRad (lat b) in
  js_add
    (js_pow (Math_sin (js_div dLat (js_lit 2))) (js_lit 2))
    (js_mul
       (js_mul (js_pow (Math_sin (js_div dLng (js_lit 2))) (js_lit 2))
               (Math_cos lat1))
       (Math_cos lat2)).

End Haversine.

(** ** [buildMinimumSpanningTree] *)

Record Edge : Type := {
  from : Point number;
  to : Point number;
  distance : number;
}.

(** [isNaN(v)] on a number. *)
Definition isNaN (v : number) : bool :=
  match v with S754_nan => true | _ => false end.

(** *** [Array.prototype.sort]

    With a comparison function that is consistent on the elements, the
    result is fixed by ECMAScript (2019 and later): the elements in
    ascending order, those that compare equal in their original order.
    [Array_sort] computes this list, by insertion from the right, moving
    [a] behind [b] only when [comparefn(a, b) > 0].  When the function is
    not consistent (here: when a difference of two distances is NaN) the
    order is left to the implementation; the result is still a
    permutation. *)
Section ArraySort.
Context {A : Type} (comparefn : A -> A -> number).

Fixpoint insert_sorted (x : A) (l : list A) : list A :=
  match l with
  | [] => [x]
  | y :: l' =>
      if gt0 (comparefn x y) then y :: insert_sorted x l' else x :: l
  end.

Definition Array_sort (l : list A) : list A := foldr insert_sorted [] l.

(** A sufficient condition for [comparefn] to be a consistent comparison
    function for the elements of [l]: its results are numbers, and their
    signs are those of the differences of a weight of the elements. *)
Definition consistent (l : list A) : Prop :=
  ∃ w : A → Z, ∀ x y, x ∈ l → y ∈ l →
    isNaN (comparefn x y) = false
    ∧ gt0 (comparefn x y) = bool_decide (w y < w x)
    ∧ lt0 (comparefn x y) = bool_decide (w x < w y).

End ArraySort.

(** What the program takes from the engine it runs on: the functions of
    [Libm], and [Array.prototype.sort], of which ECMAScript fixes the
    result on consistent comparison functions only. *)
Record Engine : Type := {
  engine_libm :> Libm;
  Array_prototype_sort : ∀ A : Type, (A → A → number) → list A → list A;
  sort_permutes : ∀ A (comparefn : A → A → number) l,
    Array_prototype_sort A comparefn l ≡ₚ l;
  sort_consistent : ∀ A (comparefn : A → A → number) l,
    consistent comparefn l →
    Array_prototype_sort A comparefn l = Array_sort comparefn l;
  sort_natural : ∀ A B (f : A → B) (comparefn : B → B → number) l,
    f <$> Array_prototype_sort A (fun x y => comparefn (f x) (f y)) l
    = Array_prototype_sort B comparefn (f <$> l);
}.
Arguments Array_prototype_sort _ {A} _ _.

(** *** The object [parent]

    [parent] is created by [{}]: an ordinary object whose prototype is
    [Object.prototype].  Its own properties are held in a finite map.  A
    value read from it, or passed to [find], is [undefined], a string, or
    an object inherited from the prototype: [inherited k] is the value of
    [Object.prototype[k]], a built-in function, or for [__proto__] the
    prototype itself. *)
Inductive jsval : Type :=
  | undefined : jsval
  | str (s : string) : jsval
  | inherited (k : string) : jsval.

#[export] Instance jsval_eq_dec : EqDecision jsval.
Proof. solve_decision. Defined.

(** The property names of [Object.prototype] (ECMAScript, with its
    annex B). *)
Definition Object_prototype : list string :=
  ["constructor"; "__defineGetter__"; "__defineSetter__"; "hasOwnProperty";
   "__lookupGetter__"; "__lookupSetter__"; "isPrototypeOf";
   "propertyIsEnumerable"; "toString"; "valueOf"; "__proto__";
   "toLocaleString"].

(** The property key a value denotes: [undefined] is converted to the
    string "undefined", the prototype to "[object Object]", and a built-in
    function to its source text, which names the function
    ([Object.prototype.constructor] is the function [Object]). *)
Definition prop_key (v : jsval) : string :=
  match v with
  | undefined => "undefined"
  | str s => s
  | inherited k =>
      if decide (k = "__proto__") then "[object Object]"
      else "function "
           +:+ (if decide (k = "constructor") then "Object" else k)
           +:+ "() { [native code] }"
  end.

(** [parent[v]]: the own property when there is one, then the property of
    [Object.prototype], then [undefined]. *)
Definition get (parent : gmap string jsval) (v : jsval) : jsval :=
  match parent !! prop_key v with
  | Some x => x
  | None =>
      if decide (prop_key v ∈ Object_prototype) then inherited (prop_key v)
      else undefined
  end.

(** [parent[k] = v].  An own property is updated.  Otherwise the
    assignment creates an own property (the data properties of
    [Object.prototype] are writable), except for [__proto__], which is
    inherited as an accessor: its setter ignores a value that is not an
    object.  It would make an object the new prototype of [parent]; the
    model does not follow a run beyond that ([None]). *)
Definition put (parent : gmap string jsval) (k : string) (v : jsval)
  : option (gmap string jsval) :=
  match parent !! k with
  | Some _ => Some (<[k := v]> parent)
  | None =>
      if decide (k = "__proto__") then
        match v with
        | inherited _ => None
        | _ => Some parent
        end
      else Some (<[k := v]> parent)
  end.

(** [find], with the depth of the call stack still available; [None] is a
    stack overflow.  The assignment [parent[id] = find(parent[id])] writes
    into the object as the recursive call left it. *)
Fixpoint find (depth : nat) (parent : gmap string jsval) (id : jsval)
  : option (gmap string jsval * jsval) :=
  match depth with
  | O => None
  | S depth' =>
      if decide (get parent id ≠ id) then
        '(parent', r) ← find depth' parent (get parent id);
        parent'' ← put parent' (prop_key id) r;
        Some (parent'', r)
      else Some (parent, id)
  end.

(** [parent[find(a)] = find(b)]: the key is evaluated before the value. *)
Definition union (depth : nat) (parent : gmap string jsval) (a b : jsval)
  : option (gmap string jsval) :=
  '(p1, ra) ← find depth parent a;
  '(p2, rb) ← find depth p1 b;
  put p2 (prop_key ra) rb.

(** The two nested loops over [i < j]. *)
Fixpoint edges (L : Libm) (nodes : list (Point number)) : list Edge :=
  match nodes with
  | [] => []
  | a :: rest =>
      map (fun b => {| from := a; to := b;
                       distance := haversineDistance (M := ieee_math L) a b |})
          rest
      ++ edges L rest
  end.

(** [(a, b) => a.distance - b.distance] *)
Definition by_distance (a b : Edge) : number :=
  sub (distance a) (distance b).

(** [nodes.forEach((n) => (parent[n.id] = n.id))] *)
Definition init_parent (nodes : list (Point number))
  : option (gmap string jsval) :=
  foldl (fun acc n => parent ← acc; put parent (id n) (str (id n)))
        (Some ∅) nodes.

(** One iteration of [for (const edge of edges)]. *)
Definition visit (depth : nat) (st : gmap string jsval * list Edge)
  (edge : Edge) : option (gmap string jsval * list Edge) :=
  let '(parent, mst) := st in
  '(p1, rootA) ← find depth parent (str (id (from edge)));
  '(p2, rootB) ← find depth p1 (str (id (to edge)));
  if decide (rootA ≠ rootB) then
    p3 ← union depth p2 rootA rootB;
    Some (p3, mst ++ [edge])
  else Some (p2, mst).

Fixpoint for_of (depth : nat) (st : gmap string jsval * list Edge)
  (es : list Edge) : option (gmap string jsval * list Edge) :=
  match es with
  | [] => Some st
  | edge :: es' => st' ← visit depth st edge; for_of depth st' es'
  end.

Section Kruskal.
Context (E : Engine).

(** [edges.sort((a, b) => a.distance - b.distance)] *)
Definition sorted_edges (nodes : list (Point number)) : list Edge :=
  Array_prototype_sort E by_distance (edges E nodes).

Definition buildMinimumSpanningTree (depth : nat)
  (nodes : list (Point number)) : option (list Edge) :=
  let edges := sorted_edges nodes in
  parent ← init_parent nodes;
  snd <$> for_of depth (parent, []) edges.

End Kruskal.

(** ** The function on a heap

    The points are objects, and the list of points is an array of
    references to them; an edge holds references to its two points.  The
    function below is [buildMinimumSpanningTree] once more, with every
    object it reads or writes in a heap: the cell of an object is read at
    its address, and every assignment, [push] and [sort] replaces the cell
    of the object it changes. *)

Abbreviation loc := nat.

(** An edge object. *)
Record HEdge : Type := {
  hfrom : loc;
  hto : loc;
  hdistance : number;
}.

Inductive cell : Type :=
  | Cpoint (p : Point number)
  | Cnodes (elements : list loc)
  | Cedges (elements : list HEdge)
  | Cparent (own : gmap string jsval).

Abbreviation heap := (list cell).

(** A new object, at the first free address. *)
Definition new (c : cell) (h : heap) : loc * heap := (length h, h ++ [c]).

Definition point_at (h : heap) (l : loc) : option (Point number) :=
  match h !! l with Some (Cpoint p) => Some p | _ => None end.
Definition nodes_at (h : heap) (l : loc) : option (list loc) :=
  match h !! l with Some (Cnodes ls) => Some ls | _ => None end.
Definition edges_at (h : heap) (l : loc) : option (list HEdge) :=
  match h !! l with Some (Cedges es) => Some es | _ => None end.
Definition parent_at (h : heap) (l : loc)
  : option (gmap string jsval) :=
  match h !! l with Some (Cparent p) => Some p | _ => None end.

(** A loop whose body may fail. *)
Definition foldM {A S : Type} (f : S → A → option S) (l : list A) (s : S)
  : option S :=
  foldl (fun acc x => s' ← acc; f s' x) (Some s) l.

(** [array.push(e)] *)
Definition push (array : loc) (e : HEdge) (h : heap) : option heap :=
  es ← edges_at h array;
  Some (<[array := Cedges (es ++ [e])]> h).

(** [(a, b) => a.distance - b.distance] *)
Definition hby_distance (a b : HEdge) : number :=
  sub (hdistance a) (hdistance b).

(** The body of the inner loop:
    [edges.push({from: nodes[i], to: nodes[j], distance: ...})]. *)
Definition add_edge (L : Libm) (edges i j : loc) (h : heap) : option heap :=
  a ← point_at h i;
  b ← point_at h j;
  push edges {| hfrom := i; hto := j;
                hdistance := haversineDistance (M := ieee_math L) a b |} h.

Fixpoint enumerate (L : Libm) (edges : loc) (ls : list loc) (h : heap)
  : option heap :=
  match ls with
  | [] => Some h
  | i :: rest =>
      h' ← foldM (fun h j => add_edge L edges i j h) rest h;
      enumerate L edges rest h'
  end.

(** [parent[n.id] = n.id] *)
Definition register (parent : loc) (h : heap) (n : loc) : option heap :=
  p ← point_at h n;
  own ← parent_at h parent;
  own' ← put own (id p) (str (id p));
  Some (<[parent := Cparent own']> h).

(** [find] and [union] change the object [parent], and nothing else. *)
Definition hfind (depth : nat) (parent : loc) (v : jsval) (h : heap)
  : option (jsval * heap) :=
  own ← parent_at h parent;
  '(own', r) ← find depth own v;
  Some (r, <[parent := Cparent own']> h).

Definition hunion (depth : nat) (parent : loc) (a b : jsval) (h : heap)
  : option heap :=
  own ← parent_at h parent;
  own' ← union depth own a b;
  Some (<[parent := Cparent own']> h).

(** One iteration of [for (const edge of edges)]. *)
Definition hvisit (depth : nat) (parent mst : loc) (h : heap) (edge : HEdge)
  : option heap :=
  a ← point_at h (hfrom edge);
  '(rootA, h1) ← hfind depth parent (str (id a)) h;
  b ← point_at h1 (hto edge);
  '(rootB, h2) ← hfind depth parent (str (id b)) h1;
  if decide (rootA ≠ rootB) then
    h3 ← push mst edge h2;
    hunion depth parent rootA rootB h3
  else Some h2.

Section Heap.
Context (E : Engine).

(** [edges.sort(...)] sorts the array in place. *)
Definition sort_in_place (edges : loc) (h : heap) : option heap :=
  es ← edges_at h edges;
  Some (<[edges := Cedges (Array_prototype_sort E hby_distance es)]> h).

(** The function, called with the address of the array of points; it
    returns the address of the new array [mst]. *)
Definition hbuildMinimumSpanningTree (depth : nat) (nodes : loc) (h : heap)
  : option (loc * heap) :=
  ls ← nodes_at h nodes;
  let '(edges, h) := new (Cedges []) h in
  h ← enumerate E edges ls h;
  h ← sort_in_place edges h;
  let '(parent, h) := new (Cparent ∅) h in
  h ← foldM (register parent) ls h;
  let '(mst, h) := new (Cedges []) h in
  es ← edges_at h edges;
  h ← foldM (hvisit depth parent mst) es h;
  Some (mst, h).

End Heap.

(** ** [MapView]: the data it derives

    The component loads the rows of a file, turns them into points, offers
    the provinces of the points for selection, and draws the markers of
    the selected points and the edges of their spanning tree.  The
    rendering is done by a library; what is embedded here is the data that
    the component computes and hands over. *)

(** [s.replace(',', '.')]: with a string as pattern, only the first
    occurrence is replaced. *)
Fixpoint replace_comma (s : string) : string :=
  match s with
  | EmptyString => EmptyString
  | String c s' =>
      if decide (c = ","%char) then String "."%char s'
      else String c (replace_comma s')
  end.

Section ParsedNodes.
(** [parseFloat] is a function of the language, not of the program. *)
Context (parseFloat : string -> number).

(** The object that [data.map] builds from a row.  On a row with fewer
    than seven fields, [row[5]] or [row[6]] is [undefined] and the call of
    [.replace] throws a TypeError: [None]. *)
Definition parseRow (row : list string) : option (Point number) :=
  match row with
  | f0 :: f1 :: f2 :: f3 :: f4 :: f5 :: f6 :: _ =>
      Some {| id := f0; localidad := f1; provincia := f2; poblacion := f3;
              estado := f4;
              lat := parseFloat (replace_comma f5);
              lng := parseFloat (replace_comma f6) |}
  | _ => None
  end.

(** [data.map(...).filter(n => !isNaN(n.lat) && !isNaN(n.lng))] *)
Definition parsedNodes (data : list (list string))
  : option (list (Point number)) :=
  nodes ← mapM parseRow data;
  Some (filter (fun n => isNaN (lat n) = false ∧ isNaN (lng n) = false)
               nodes).

End ParsedNodes.

(** [provinceFilter === 'Todas' ? nodes
     : nodes.filter(n => n.provincia === provinceFilter)] *)
Definition filteredNodes (provinceFilter : string)
    (nodes : list (Point number)) : list (Point number) :=
  if decide (provinceFilter = "Todas") then nodes
  else filter (fun n => provincia n = provinceFilter) nodes.

(** [new Set(values)], as the list of its elements in the order of
    iteration, which is the order of insertion. *)
Definition Set_add (s : list string) (v : string) : list string :=
  if decide (v ∈ s) then s else s ++ [v].

Definition new_Set (values : list string) : list string :=
  foldl Set_add [] values.

(** [['Todas', ...new Set(nodes.map(n => n.provincia))]] *)
Definition uniqueProvinces (nodes : list (Point number)) : list string :=
  "Todas" :: new_Set (provincia <$> nodes).

(** [{ lat: nodo.lat, lng: nodo.lng }] *)
Definition position (nodo : Point number) : number * number :=
  (lat nodo, lng nodo).

(** The position and the title of the marker of a point. *)
Definition marker (nodo : Point number) : (number * number) * string :=
  (position nodo, localidad nodo).

(** The [path] of the polyline of an edge. *)
Definition path (edge : Edge) : list (number * number) :=
  [position (from edge); position (to edge)].

(** ** Graphs on identifiers

    The edges selected by the loop are read as a graph on the identifiers
    of the points: a list of pairs, in the order of selection. *)

Section Connectivity.

(** Two identifiers are connected when an undirected path of edges of
    [F] leads from one to the other. *)
Definition adjacent (F : list (string * string)) : relation string :=
  fun x y => (x, y) ∈ F.

Definition connected (F : list (string * string)) : relation string :=
  rtsc (adjacent F).

(** No edge joins two identifiers that the edges before it connect. *)
Definition forest (F : list (string * string)) : Prop :=
  ∀ F1 u v F2, F = F1 ++ (u, v) :: F2 → ¬ connected F1 u v.

(** A decision procedure for [connected]: every identifier carries the
    name of its component, and an edge renames one component. *)
Definition relabel (l : string → string) (e : string * string)
  : string → string :=
  fun x => if decide (l x = l e.1) then l e.2 else l x.

Definition component (F : list (string * string)) : string → string :=
  foldl relabel (fun x => x) F.

(** The number of components among the identifiers [V]. *)
Definition components (F : list (string * string)) (V : list string)
  : nat :=
  size (list_to_set (component F <$> V) : gset string).

End Connectivity.

Lemma component_snoc F e :
  component (F ++ [e]) = relabel (component F) e.
Proof. unfold component. by rewrite foldl_snoc. Qed.

Lemma connected_mono F G x y :
  F ⊆ G → connected F x y → connected G x y.
Proof.
  intros HFG. apply rtc_subrel. intros a b [Hab|Hab]; [left|right];
    by apply HFG.
Qed.

Lemma connected_edge F u v : (u, v) ∈ F → connected F u v.
Proof. intros. by apply rtsc_lr. Qed.

Lemma connected_component F x : connected F x (component F x).
Proof.
  revert x. induction F as [|e F IH] using rev_ind; intros x; [done|].
  rewrite component_snoc. unfold relabel. destruct e as [u v]; simpl.
  assert (Hsub : F ⊆ F ++ [(u, v)]) by (intros a Ha; set_solver).
  assert (Hm : ∀ a, connected (F ++ [(u, v)]) a (component F a))
    by (intros a; eapply connected_mono; [exact Hsub|apply IH]).
  case_decide as Heq; [|done].
  etrans; [apply Hm|]. rewrite Heq. etrans; [symmetry; apply Hm|].
  etrans; [|apply Hm]. apply connected_edge. set_solver.
Qed.

Lemma component_adjacent F u v :
  (u, v) ∈ F → component F u = component F v.
Proof.
  induction F as [|e F IH] using rev_ind; [by intros ?%elem_of_nil|].
  rewrite component_snoc. unfold relabel. intros Hin.
  apply elem_of_app in Hin as [Hin|Hin].
  - rewrite (IH Hin). done.
  - apply list_elem_of_singleton in Hin as <-. simpl.
    rewrite decide_True by done. by case_decide.
Qed.

Lemma component_connected F x y :
  component F x = component F y ↔ connected F x y.
Proof.
  split.
  - intros Heq. etrans; [apply connected_component|]. rewrite Heq.
    symmetry. apply connected_component.
  - induction 1 as [|a b c [Hab|Hab] _ IH]; [done| |].
    + by rewrite (component_adjacent _ _ _ Hab).
    + by rewrite <- (component_adjacent _ _ _ Hab).
Qed.

#[export] Instance connected_dec F x y : Decision (connected F x y).
Proof.
  refine (cast_if (decide (component F x = component F y)));
    by rewrite <- component_connected.
Defined.

(** *** Counting components *)

Lemma components_nil V : NoDup V → components [] V = length V.
Proof.
  intros HV. unfold components, component. simpl.
  rewrite list_fmap_id. by apply size_list_to_set.
Qed.

Lemma components_pos F V : V ≠ [] → (0 < components F V)%nat.
Proof.
  destruct V as [|x V]; [done|intros _]. unfold components.
  rewrite fmap_cons, list_to_set_cons.
  assert (size ({[component F x]} : gset string)
          ≤ size ({[component F x]}
                  ∪ (list_to_set (component F <$> V) : gset string)))%nat
    by (apply subseteq_size; set_solver).
  rewrite size_singleton in *. lia.
Qed.

(** An edge between two components merges them. *)
Lemma components_snoc_join F u v V :
  u ∈ V → v ∈ V → component F u ≠ component F v →
  (components (F ++ [(u, v)]) V + 1 = components F V)%nat.
Proof.
  intros Hu Hv Hne. unfold components. rewrite component_snoc.
  set (S := list_to_set (component F <$> V) : gset string).
  assert (Hnew : (list_to_set (relabel (component F) (u, v) <$> V)
                  : gset string) = S ∖ {[component F u]}).
  { apply set_eq. intros c. subst S.
    rewrite elem_of_difference, !elem_of_list_to_set, !list_elem_of_fmap.
    rewrite elem_of_singleton. unfold relabel; simpl. split.
    - intros (x & -> & Hx). case_decide as Hc.
      + split; [exists v; auto|congruence].
      + split; [exists x; auto|done].
    - intros [(x & -> & Hx) Hc]. exists x. by rewrite decide_False. }
  rewrite Hnew.
  assert (Hsub : ({[component F u]} : gset string) ⊆ S).
  { subst S. apply singleton_subseteq_l, elem_of_list_to_set.
    by apply list_elem_of_fmap_2. }
  rewrite size_difference by done.
  apply subseteq_size in Hsub. rewrite size_singleton in *. lia.
Qed.

Lemma size_add (a : string) (Y : gset string) :
  size ({[a]} ∪ Y) = if decide (a ∈ Y) then size Y else S (size Y).
Proof.
  case_decide as Ha.
  - f_equal. by apply subseteq_union_1_L, singleton_subseteq_l.
  - rewrite size_union by set_solver. by rewrite size_singleton.
Qed.

(** A coarser partition has no more components. *)
Lemma classes_le (f g : string → string) (V : list string) :
  (∀ x y, x ∈ V → y ∈ V → f x = f y → g x = g y) →
  (size (list_to_set (g <$> V) : gset string)
   ≤ size (list_to_set (f <$> V) : gset string))%nat.
Proof.
  induction V as [|x V IH]; intros Hfg; [done|].
  rewrite !fmap_cons, !list_to_set_cons, !size_add.
  assert (IH' := IH ltac:(intros; apply Hfg; set_solver)).
  destruct (decide (g x ∈ _)) as [Hg|Hg], (decide (f x ∈ _)) as [Hf|Hf];
    try lia.
  exfalso. apply Hg.
  apply elem_of_list_to_set, list_elem_of_fmap in Hf as (y & Hy & Hin).
  apply elem_of_list_to_set, list_elem_of_fmap. exists y. split; [|done].
  apply Hfg; [set_solver|set_solver|done].
Qed.

Lemma components_le F G V :
  (∀ x y, x ∈ V → y ∈ V → connected F x y → connected G x y) →
  (components G V ≤ components F V)%nat.
Proof.
  intros H. apply classes_le. intros x y Hx Hy.
  rewrite !component_connected. by apply H.
Qed.

(** *** Forests *)

Lemma forest_nil : forest [].
Proof. intros [|? ?] ? ? ? ?; simplify_eq. Qed.

Lemma forest_snoc F u v :
  forest (F ++ [(u, v)]) ↔ forest F ∧ ¬ connected F u v.
Proof.
  split.
  - intros HF. split.
    + intros F1 a b F2 ->. apply (HF F1 a b (F2 ++ [(u, v)])).
      by rewrite <- app_assoc.
    + apply (HF F u v []). done.
  - intros [HF Hn] F1 a b F2 Heq.
    destruct F2 as [|e2 F2 _] using rev_ind.
    + apply app_inj_tail in Heq as [-> [= -> ->]]. done.
    + rewrite app_comm_cons, app_assoc in Heq.
      apply app_inj_tail in Heq as [-> _]. by apply (HF F1 a b F2).
Qed.

Lemma forest_sublist F G : G `sublist_of` F → forest F → forest G.
Proof.
  revert G. induction F as [|[u v] F IH] using rev_ind; intros G HG.
  - apply sublist_nil_r in HG as ->. done.
  - rewrite forest_snoc. intros [HF Hn].
    apply sublist_app_r in HG as (G1 & G2 & -> & HG1 & HG2).
    apply sublist_cons_r in HG2 as [HG2|(G2' & -> & HG2)];
      apply sublist_nil_r in HG2 as ->.
    + rewrite app_nil_r. by apply IH.
    + apply forest_snoc. split; [by apply IH|]. intros Hc. apply Hn.
      eapply connected_mono; [|done]. by apply sublist_subseteq.
Qed.

(** Every edge of a forest removes one component. *)
Lemma forest_components F V :
  NoDup V → (∀ u v, (u, v) ∈ F → u ∈ V ∧ v ∈ V) → forest F →
  (components F V + length F = length V)%nat.
Proof.
  intros HV. induction F as [|[u v] F IH] using rev_ind; intros Hin HF.
  - rewrite components_nil by done. simpl. lia.
  - apply forest_snoc in HF as [HF Hn].
    destruct (Hin u v) as [Hu Hv];
      [apply elem_of_app; right; by apply list_elem_of_singleton|].
    rewrite length_app; simpl.
    pose proof (components_snoc_join F u v V Hu Hv) as Hj.
    rewrite component_connected in Hj. specialize (Hj Hn).
    specialize (IH ltac:(intros; apply Hin, elem_of_app; by left) HF). lia.
Qed.

(** Edges whose ends are connected by [G] connect nothing that [G] does
    not. *)
Lemma connected_within F G x y :
  (∀ u v, (u, v) ∈ F → connected G u v) →
  connected F x y → connected G x y.
Proof.
  intros HFG. induction 1 as [|a b c [Hab|Hab] _ IH]; [done| |].
  - etrans; [by apply HFG|done].
  - etrans; [symmetry; by apply HFG|done].
Qed.

(** All of [V] connected: one component. *)
Lemma components_one F V :
  V ≠ [] → (∀ x y, x ∈ V → y ∈ V → connected F x y) →
  components F V = 1%nat.
Proof.
  intros HV Hc. pose proof (components_pos F V HV) as Hpos.
  destruct V as [|x0 V]; [done|].
  assert (Hle : (components F (x0 :: V)
                 ≤ size ({[component F x0]} : gset string))%nat).
  { apply subseteq_size. intros c.
    rewrite elem_of_list_to_set, list_elem_of_fmap, elem_of_singleton.
    intros (y & -> & Hy). apply component_connected, Hc; [done|].
    apply elem_of_cons; by left. }
  rewrite size_singleton in Hle. lia.
Qed.

(** ** The selection of edges, without the union-find

    What the loop computes, stated on the graph of the edges selected so
    far: an edge is kept when its ends are not yet connected. *)

Definition ends (e : Edge) : string * string := (id (from e), id (to e)).

Definition select (mst : list Edge) (edge : Edge) : list Edge :=
  if decide (connected (ends <$> mst) (id (from edge)) (id (to edge)))
  then mst else mst ++ [edge].

Definition greedy (es : list Edge) : list Edge := foldl select [] es.

Lemma greedy_snoc es e : greedy (es ++ [e]) = select (greedy es) e.
Proof. unfold greedy. by rewrite foldl_snoc. Qed.

Lemma select_sublist mst e : mst `sublist_of` select mst e.
Proof.
  unfold select. case_decide; [done|]. by apply sublist_inserts_r.
Qed.

Lemma greedy_sublist es : greedy es `sublist_of` es.
Proof.
  induction es as [|e es IH] using rev_ind; [done|].
  rewrite greedy_snoc. unfold select. case_decide.
  - by apply sublist_inserts_r.
  - by apply sublist_app.
Qed.

Lemma greedy_forest es : forest (ends <$> greedy es).
Proof.
  induction es as [|e es IH] using rev_ind; [apply forest_nil|].
  rewrite greedy_snoc. unfold select. case_decide; [done|].
  rewrite fmap_app. simpl. by apply forest_snoc.
Qed.

(** The ends of every edge offered to the selection are connected by the
    edges selected. *)
Lemma greedy_connects es e :
  e ∈ es → connected (ends <$> greedy es) (id (from e)) (id (to e)).
Proof.
  induction es as [|e' es IH] using rev_ind; [by intros ?%elem_of_nil|].
  rewrite greedy_snoc.
  intros [Hin|Hin%list_elem_of_singleton]%elem_of_app; [|subst e'].
  - eapply connected_mono; [|by apply IH].
    apply sublist_subseteq, fmap_sublist, select_sublist.
  - unfold select. case_decide; [done|]. apply connected_edge.
    rewrite fmap_app. apply elem_of_app. right.
    by apply list_elem_of_singleton.
Qed.

Section Weights.
Context (w : Edge → Z).

(** Ascending in [w]. *)
Definition ascending (es : list Edge) : Prop :=
  StronglySorted (fun a b => w a <= w b) es.

Definition light (θ : Z) (es : list Edge) : list Edge :=
  filter (fun e => w e <= θ) es.

Lemma light_ends_mono θ l1 l2 :
  l1 ⊆ l2 → ends <$> light θ l1 ⊆ ends <$> light θ l2.
Proof.
  intros Hl p. unfold light. rewrite !list_elem_of_fmap.
  intros (t & -> & Ht). exists t. split; [done|].
  apply list_elem_of_filter in Ht as [? ?].
  apply list_elem_of_filter. split; [done|by apply Hl].
Qed.

(** On an ascending list, the ends of an edge are connected by selected
    edges that are no heavier. *)
Lemma greedy_light es θ e :
  ascending es → e ∈ es → w e <= θ →
  connected (ends <$> light θ (greedy es)) (id (from e)) (id (to e)).
Proof.
  unfold ascending, light.
  induction es as [|e' es IH] using rev_ind; [by intros _ ?%elem_of_nil|].
  intros Hs Hin Hw. rewrite greedy_snoc.
  assert (Hmono : ∀ x y,
    connected (ends <$> filter (λ e, w e <= θ) (greedy es)) x y →
    connected (ends <$> filter (λ e, w e <= θ) (select (greedy es) e'))
              x y).
  { intros x y. apply connected_mono, light_ends_mono.
    apply sublist_subseteq, select_sublist. }
  apply elem_of_app in Hin as [Hin|Hin%list_elem_of_singleton];
    [|subst e'].
  - apply Hmono, IH; [by eapply StronglySorted_app_1_l|done|done].
  - unfold select. case_decide as Hc.
    + eapply connected_mono; [|exact Hc]. intros p.
      rewrite !list_elem_of_fmap. intros (t & -> & Ht). exists t.
      split; [done|]. apply list_elem_of_filter. split; [|done].
      assert (t ∈ es) by by eapply sublist_subseteq, Ht; apply greedy_sublist.
      pose proof (StronglySorted_app_1_elem_of _ _ _ t e Hs) as Hle.
      specialize (Hle ltac:(done)
                      ltac:(by apply list_elem_of_singleton)).
      simpl in Hle. lia.
    + apply connected_edge. rewrite filter_app, fmap_app.
      apply elem_of_app. right. rewrite filter_cons, decide_True by done.
      apply elem_of_cons. by left.
Qed.

End Weights.

(** *** Comparing sums through counts *)

Definition sumZ (l : list Z) : Z := foldr Z.add 0 l.

Definition count_le (θ : Z) (l : list Z) : nat :=
  length (filter (fun z => z <= θ) l).

Lemma sumZ_Permutation l1 l2 : l1 ≡ₚ l2 → sumZ l1 = sumZ l2.
Proof. induction 1; simpl in *; lia. Qed.

Lemma count_le_Permutation θ l1 l2 :
  l1 ≡ₚ l2 → count_le θ l1 = count_le θ l2.
Proof. intros H. unfold count_le. by rewrite H. Qed.

Lemma count_le_cons θ z l :
  count_le θ (z :: l)
  = ((if decide (z <= θ)%Z then 1 else 0) + count_le θ l)%nat.
Proof. unfold count_le. rewrite filter_cons. by case_decide. Qed.

Lemma count_le_above θ l :
  Forall (fun z => θ < z) l → count_le θ l = 0%nat.
Proof.
  induction 1 as [|z l Hz _ IH]; [done|].
  rewrite count_le_cons, IH. case_decide; [lia|done].
Qed.

Lemma counts_sum_sorted a b :
  StronglySorted Z.le a → StronglySorted Z.le b → length a = length b →
  (∀ θ, (count_le θ b ≤ count_le θ a)%nat) → sumZ a <= sumZ b.
Proof.
  revert b. induction a as [|x a IH]; intros [|y b] Ha Hb Hlen Hc;
    simplify_eq/=; [done|].
  apply StronglySorted_inv in Ha as [Ha Hxa].
  apply StronglySorted_inv in Hb as [Hb Hyb].
  assert (Hxy : x <= y).
  { destruct (decide (x <= y)) as [|Hn]; [done|exfalso].
    specialize (Hc y). rewrite !count_le_cons in Hc.
    rewrite decide_True, decide_False in Hc by lia.
    rewrite (count_le_above y a) in Hc; [lia|].
    eapply Forall_impl; [exact Hxa|]. simpl. lia. }
  enough (sumZ a <= sumZ b) by lia.
  apply IH; [done|done|done|]. intros θ. specialize (Hc θ).
  rewrite !count_le_cons in Hc.
  destruct (decide (y <= θ)) as [Hy|Hy].
  - rewrite decide_True in Hc by lia. lia.
  - rewrite (count_le_above θ b); [lia|].
    eapply Forall_impl; [exact Hyb|]. simpl. lia.
Qed.

(** Lists of equal length: the one with more small elements at every
    threshold has the smaller sum. *)
Lemma counts_sum a b :
  length a = length b →
  (∀ θ, (count_le θ b ≤ count_le θ a)%nat) → sumZ a <= sumZ b.
Proof.
  intros Hlen Hc.
  pose proof (merge_sort_Permutation Z.le a) as Pa.
  pose proof (merge_sort_Permutation Z.le b) as Pb.
  rewrite <- (sumZ_Permutation _ _ Pa), <- (sumZ_Permutation _ _ Pb).
  apply counts_sum_sorted.
  - apply StronglySorted_merge_sort; apply _.
  - apply StronglySorted_merge_sort; apply _.
  - by rewrite Pa, Pb.
  - intros θ.
    by rewrite (count_le_Permutation θ _ _ Pa), (count_le_Permutation θ _ _ Pb).
Qed.

(** *** The selection is lightest *)

Section Minimal.
Context (w : Edge → Z) (V : list string).

(** The sum of the weights of a list of edges. *)
Definition total (es : list Edge) : Z := sumZ (w <$> es).

(** All edges have their ends among [V]. *)
Definition within (es : list Edge) : Prop :=
  ∀ e, e ∈ es → id (from e) ∈ V ∧ id (to e) ∈ V.

(** The edges connect all of [V]. *)
Definition spans (es : list Edge) : Prop :=
  ∀ x y, x ∈ V → y ∈ V → connected (ends <$> es) x y.

(** A spanning tree made of edges of [cand]. *)
Definition spanning_tree (cand es : list Edge) : Prop :=
  es ⊆ cand ∧ forest (ends <$> es) ∧ spans es.

Lemma count_le_fmap θ es :
  count_le θ (w <$> es) = length (light w θ es).
Proof.
  unfold count_le, light. induction es as [|e es IH]; [done|].
  rewrite fmap_cons, !filter_cons. case_decide; simpl; by rewrite IH.
Qed.

Lemma within_ends es u v :
  within es → (u, v) ∈ ends <$> es → u ∈ V ∧ v ∈ V.
Proof.
  intros Hw (e & [= -> ->] & He)%list_elem_of_fmap. by apply Hw.
Qed.

Lemma forest_length es :
  NoDup V → within es → forest (ends <$> es) →
  (components (ends <$> es) V + length es = length V)%nat.
Proof.
  intros HV Hw HF.
  rewrite <- (forest_components (ends <$> es) V HV); [|by intros; eapply within_ends|done].
  by rewrite length_fmap.
Qed.

Lemma light_sub θ es : light w θ es `sublist_of` es.
Proof. apply sublist_filter. Qed.

Lemma greedy_counts es S θ :
  NoDup V → within es → ascending w es →
  S ⊆ es → forest (ends <$> S) →
  (length (light w θ S) ≤ length (light w θ (greedy es)))%nat.
Proof.
  intros HV Hin Hs HS HF.
  assert (HwS : within (light w θ S)).
  { intros e He. apply Hin, HS. by eapply sublist_subseteq, He; apply light_sub. }
  assert (HwT : within (light w θ (greedy es))).
  { intros e He. apply Hin. eapply sublist_subseteq; [apply greedy_sublist|].
    by eapply sublist_subseteq, He; apply light_sub. }
  pose proof (forest_length _ HV HwS) as H1.
  pose proof (forest_length _ HV HwT) as H2.
  specialize (H1 ltac:(eapply forest_sublist;
    [apply fmap_sublist, light_sub|done])).
  specialize (H2 ltac:(eapply forest_sublist;
    [apply fmap_sublist, light_sub|apply greedy_forest])).
  enough (components (ends <$> light w θ (greedy es)) V
          ≤ components (ends <$> light w θ S) V)%nat by lia.
  apply components_le. intros x y _ _. apply connected_within.
  intros u v (s & [= -> ->] & Hs')%list_elem_of_fmap.
  apply list_elem_of_filter in Hs' as [Hws Hs'].
  apply greedy_light; [done|by apply HS|done].
Qed.

(** No forest of as many candidate edges is lighter than the edges
    selected from the candidates in ascending order. *)
Lemma greedy_minimal es S :
  NoDup V → within es → ascending w es →
  S ⊆ es → forest (ends <$> S) → length S = length (greedy es) →
  total (greedy es) <= total S.
Proof.
  intros HV Hin Hs HS HF Hlen. unfold total. apply counts_sum.
  - by rewrite !length_fmap.
  - intros θ. rewrite !count_le_fmap. by apply greedy_counts.
Qed.

(** When the candidates connect [V], so do the edges selected. *)
Lemma greedy_spans es :
  spans es → spans (greedy es).
Proof.
  intros Hc x y Hx Hy. eapply connected_within; [|by apply Hc].
  intros u v (e & [= -> ->] & He)%list_elem_of_fmap.
  by apply greedy_connects.
Qed.

End Minimal.

(** ** The union-find structure *)

Lemma put_own parent k v x :
  parent !! k = Some x → put parent k v = Some (<[k := v]> parent).
Proof. intros Hk. unfold put. by rewrite Hk. Qed.

Lemma put_ordinary parent k v :
  k ≠ "__proto__" → put parent k v = Some (<[k := v]> parent).
Proof.
  intros Hk. unfold put. destruct (parent !! k); [done|].
  by rewrite decide_False.
Qed.

Lemma get_own parent v x :
  parent !! prop_key v = Some x → get parent v = x.
Proof. intros Hk. unfold get. by rewrite Hk. Qed.

(** [r] is the representative reached from [k] along [parent]. *)
Inductive root_of (parent : gmap string jsval) : string → string → Prop :=
  | root_self k :
      parent !! k = Some (str k) → root_of parent k k
  | root_step k p r :
      parent !! k = Some (str p) → p ≠ k → root_of parent p r →
      root_of parent k r.

(** The identifiers [V] are own properties of [parent]; their parent
    pointers stay in [V] and climb along a rank [rk] bounded by [B]: they
    form a forest. *)
Record uf_inv (V : list string) (rk : string → nat) (B : nat)
    (parent : gmap string jsval) : Prop := {
  uf_closed : ∀ k, k ∈ V → ∃ p, p ∈ V ∧ parent !! k = Some (str p);
  uf_climbs : ∀ k p, k ∈ V → parent !! k = Some (str p) → p ≠ k →
              (rk k < rk p)%nat;
  uf_bound : ∀ k, (rk k ≤ B)%nat;
}.

Lemma root_of_det parent k r1 r2 :
  root_of parent k r1 → root_of parent k r2 → r1 = r2.
Proof.
  induction 1 as [k Hk|k p r Hk Hne _ IH]; inversion 1; simplify_eq; auto.
Qed.

Lemma root_of_root parent k r :
  root_of parent k r → parent !! r = Some (str r).
Proof. induction 1; auto. Qed.

(** Pointing [k] at its representative changes no representative. *)
Lemma compress_root parent k r x r' :
  root_of parent k r → r ≠ k →
  root_of parent x r' → root_of (<[k := str r]> parent) x r'.
Proof.
  intros Hk Hne. induction 1 as [x Hx|x p r' Hx Hpx Hp IH].
  - destruct (decide (x = k)) as [->|Hxk].
    + inversion Hk; simplify_eq.
    + apply root_self. by rewrite lookup_insert_ne.
  - destruct (decide (x = k)) as [->|Hxk].
    + assert (r' = r) as ->
        by (eapply root_of_det; [eapply root_step|]; eauto).
      eapply root_step; [by rewrite lookup_insert_eq|done|].
      apply root_self. rewrite lookup_insert_ne by done.
      by eapply root_of_root.
    + eapply root_step; [by rewrite lookup_insert_ne|done|done].
Qed.

(** [find] returns the representative, and leaves a structure with the same
    representatives, when the stack is deep enough for the rank still to
    climb. *)
Lemma find_ok V rk B depth parent k :
  uf_inv V rk B parent → k ∈ V → (B - rk k < depth)%nat →
  ∃ parent' r,
    find depth parent (str k) = Some (parent', str r)
    ∧ r ∈ V ∧ root_of parent k r ∧ (rk k ≤ rk r)%nat
    ∧ uf_inv V rk B parent'
    ∧ (∀ x r', root_of parent x r' → root_of parent' x r').
Proof.
  revert parent k. induction depth as [|d IH]; intros parent k Hinv Hk Hd;
    [lia|].
  destruct (uf_closed _ _ _ _ Hinv k Hk) as (p & Hp & Hkp).
  assert (Hget : get parent (str k) = str p) by (by apply get_own).
  cbn [find]. rewrite Hget.
  destruct (decide (p = k)) as [->|Hne].
  - rewrite decide_False by (intros ?; congruence).
    exists parent, k. repeat split; try done; try apply Hinv.
    by apply root_self.
  - rewrite decide_True by congruence.
    pose proof (uf_climbs _ _ _ _ Hinv k p Hk Hkp Hne) as Hrk.
    pose proof (uf_bound _ _ _ _ Hinv p) as Hb.
    assert (Hd' : (B - rk p < d)%nat) by lia.
    destruct (IH parent p Hinv Hp Hd')
      as (parent' & r & -> & Hr & Hroot & Hle & Hinv' & Hpres).
    destruct (uf_closed _ _ _ _ Hinv' k Hk) as (p' & _ & Hkp').
    cbn [mbind option_bind prop_key]. rewrite (put_own _ _ _ _ Hkp').
    cbn [mbind option_bind].
    exists (<[k := str r]> parent'), r.
    assert (Hrk' : r ≠ k) by (intros ->; lia).
    assert (Hkr : root_of parent k r) by (eapply root_step; eauto).
    split; [done|]. split; [done|]. split; [done|]. split; [lia|].
    split; [split|].
    + intros x Hx. destruct (decide (x = k)) as [->|Hxk].
      * exists r. by rewrite lookup_insert_eq.
      * rewrite lookup_insert_ne by done. by apply Hinv'.
    + intros x q Hx. destruct (decide (x = k)) as [->|Hxk].
      * rewrite lookup_insert_eq. intros [= ->] _. lia.
      * rewrite lookup_insert_ne by done. by apply Hinv'.
    + by apply Hinv'.
    + intros x r' Hx. apply compress_root; auto.
Qed.

Lemma root_total V rk B parent k :
  uf_inv V rk B parent → k ∈ V → ∃ r, r ∈ V ∧ root_of parent k r.
Proof.
  intros Hinv Hk.
  destruct (find_ok V rk B (S B) parent k Hinv Hk ltac:(lia))
    as (? & r & _ & ? & ? & _). eauto.
Qed.

Lemma find_root depth parent k :
  (0 < depth)%nat → parent !! k = Some (str k) →
  find depth parent (str k) = Some (parent, str k).
Proof.
  intros Hd Hk. destruct depth as [|d]; [lia|].
  cbn [find]. rewrite (get_own parent (str k) (str k)) by done.
  by rewrite decide_False by (intros ?; congruence).
Qed.

(** Hanging the representative [ra] under [rb] renames [ra] to [rb]. *)
Lemma union_root parent ra rb x r :
  parent !! ra = Some (str ra) → parent !! rb = Some (str rb) → ra ≠ rb →
  root_of parent x r →
  root_of (<[ra := str rb]> parent) x (if decide (r = ra) then rb else r).
Proof.
  intros Ha Hb Hne. induction 1 as [x Hx|x p r Hx Hpx Hp IH].
  - case_decide as Hxa.
    + subst x. eapply root_step; [by rewrite lookup_insert_eq|done|].
      apply root_self. by rewrite lookup_insert_ne.
    + apply root_self. by rewrite lookup_insert_ne.
  - assert (x ≠ ra) by (intros ->; congruence).
    eapply root_step; [by rewrite lookup_insert_ne|done|done].
Qed.

Lemma uf_union V rk B parent ra rb :
  uf_inv V rk B parent → ra ∈ V → rb ∈ V →
  parent !! ra = Some (str ra) → parent !! rb = Some (str rb) → ra ≠ rb →
  uf_inv V (fun k => if decide (k = rb) then Nat.max (rk rb) (S (rk ra))
                     else rk k)
         (S B) (<[ra := str rb]> parent).
Proof.
  intros Hinv Hra Hrb Ha Hb Hne. split.
  - intros k Hk. destruct (decide (k = ra)) as [->|Hka].
    + exists rb. by rewrite lookup_insert_eq.
    + rewrite lookup_insert_ne by done. by apply Hinv.
  - intros k p Hk. destruct (decide (k = ra)) as [->|Hka].
    + rewrite lookup_insert_eq. intros [= <-] _.
      rewrite decide_False, decide_True by done. lia.
    + rewrite lookup_insert_ne by done. intros Hkp Hpk.
      pose proof (uf_climbs _ _ _ _ Hinv k p Hk Hkp Hpk).
      rewrite (decide_False (P := k = rb)) by (intros ->; congruence).
      case_decide; subst; lia.
  - intros k. pose proof (uf_bound _ _ _ _ Hinv rb).
    pose proof (uf_bound _ _ _ _ Hinv ra).
    pose proof (uf_bound _ _ _ _ Hinv k). case_decide; subst; lia.
Qed.

(** [union] on two distinct representatives. *)
Lemma union_roots depth parent ra rb :
  (0 < depth)%nat →
  parent !! ra = Some (str ra) → parent !! rb = Some (str rb) →
  union depth parent (str ra) (str rb) = Some (<[ra := str rb]> parent).
Proof.
  intros Hd Ha Hb. unfold union.
  rewrite (find_root depth parent ra) by done. cbn [mbind option_bind].
  rewrite (find_root depth parent rb) by done. cbn [mbind option_bind].
  by rewrite (put_own _ _ _ _ Ha).
Qed.

(** The structure represents the graph [F]: two identifiers have the same
    representative exactly when [F] connects them. *)
Definition repr (V : list string) (parent : gmap string jsval)
    (F : list (string * string)) : Prop :=
  ∀ x y rx ry, x ∈ V → y ∈ V →
    root_of parent x rx → root_of parent y ry →
    (rx = ry ↔ connected F x y).

Lemma repr_pres V rk B parent parent' F :
  uf_inv V rk B parent →
  (∀ x r', root_of parent x r' → root_of parent' x r') →
  repr V parent F → repr V parent' F.
Proof.
  intros Hinv Hpres Hrepr x y rx ry Hx Hy Hrx Hry.
  destruct (root_total _ _ _ _ x Hinv Hx) as (rx0 & _ & Hrx0).
  destruct (root_total _ _ _ _ y Hinv Hy) as (ry0 & _ & Hry0).
  rewrite (root_of_det _ _ _ _ Hrx (Hpres _ _ Hrx0)).
  rewrite (root_of_det _ _ _ _ Hry (Hpres _ _ Hry0)).
  by apply Hrepr.
Qed.

Lemma repr_union V rk B parent F u v ra rb :
  uf_inv V rk B parent → repr V parent F → u ∈ V → v ∈ V →
  root_of parent u ra → root_of parent v rb → ra ≠ rb →
  repr V (<[ra := str rb]> parent) (F ++ [(u, v)]).
Proof.
  intros Hinv Hrepr Hu Hv Hua Hvb Hne x y rx ry Hx Hy Hrx Hry.
  destruct (root_total _ _ _ _ x Hinv Hx) as (rx0 & _ & Hrx0).
  destruct (root_total _ _ _ _ y Hinv Hy) as (ry0 & _ & Hry0).
  pose proof (root_of_root _ _ _ Hua) as Ha.
  pose proof (root_of_root _ _ _ Hvb) as Hb.
  rewrite (root_of_det _ _ _ _ Hrx (union_root _ _ _ _ _ Ha Hb Hne Hrx0)).
  rewrite (root_of_det _ _ _ _ Hry (union_root _ _ _ _ _ Ha Hb Hne Hry0)).
  rewrite <- component_connected, component_snoc. unfold relabel; simpl.
  pose proof (Hrepr x y _ _ Hx Hy Hrx0 Hry0) as E1.
  pose proof (Hrepr x u _ _ Hx Hu Hrx0 Hua) as E2.
  pose proof (Hrepr y u _ _ Hy Hu Hry0 Hua) as E3.
  pose proof (Hrepr x v _ _ Hx Hv Hrx0 Hvb) as E4.
  pose proof (Hrepr y v _ _ Hy Hv Hry0 Hvb) as E5.
  pose proof (Hrepr u v _ _ Hu Hv Hua Hvb) as E6.
  rewrite <- component_connected in E1, E2, E3, E4, E5, E6.
  destruct E1 as [? ?], E2 as [? ?], E3 as [? ?], E4 as [? ?], E5 as [? ?],
    E6 as [? ?].
  repeat case_decide; naive_solver.
Qed.

(** *** The loop computes the selection *)

(** The state of the loop: a union-find forest whose ranks are bounded by
    the number of edges selected, and which represents their graph. *)
Definition uf_state (V : list string) (parent : gmap string jsval)
    (mst : list Edge) : Prop :=
  (∃ rk, uf_inv V rk (length mst) parent) ∧ repr V parent (ends <$> mst).

Lemma visit_ok V depth parent mst e :
  (length mst < depth)%nat → uf_state V parent mst →
  id (from e) ∈ V → id (to e) ∈ V →
  ∃ parent',
    visit depth (parent, mst) e = Some (parent', select mst e)
    ∧ uf_state V parent' (select mst e).
Proof.
  intros Hd [[rk Hinv] Hrepr] Hu Hv.
  destruct (find_ok V rk _ depth parent _ Hinv Hu ltac:(lia))
    as (p1 & ra & E1 & Hra & Hua & _ & Hinv1 & Hpres1).
  destruct (find_ok V rk _ depth p1 _ Hinv1 Hv ltac:(lia))
    as (p2 & rb & E2 & Hrb & Hvb & _ & Hinv2 & Hpres2).
  pose proof (repr_pres _ _ _ _ _ _ Hinv Hpres1 Hrepr) as Hrepr1.
  pose proof (repr_pres _ _ _ _ _ _ Hinv1 Hpres2 Hrepr1) as Hrepr2.
  pose proof (Hpres2 _ _ (Hpres1 _ _ Hua)) as Hua2.
  pose proof (Hpres2 _ _ Hvb) as Hvb2.
  pose proof (Hrepr2 _ _ _ _ Hu Hv Hua2 Hvb2) as Hconn.
  unfold visit. rewrite E1. cbn [mbind option_bind]. rewrite E2.
  cbn [mbind option_bind]. unfold select.
  destruct (decide (ra = rb)) as [->|Hne].
  - rewrite decide_False by (intros ?; congruence).
    rewrite decide_True by (by apply Hconn).
    exists p2. split; [done|]. split; [by exists rk|done].
  - rewrite decide_True by congruence.
    rewrite decide_False by (by rewrite <- Hconn).
    rewrite (union_roots depth p2 ra rb)
      by (lia || by eapply root_of_root).
    cbn [mbind option_bind].
    eexists. split; [done|]. split.
    + eexists. rewrite length_app, Nat.add_1_r.
      apply uf_union; eauto using root_of_root.
    + rewrite fmap_app. simpl. eapply repr_union; eauto.
Qed.

(** The object after [forEach]: every identifier is an own property that
    holds itself, except [__proto__], for which the assignment does
    nothing. *)
Lemma init_parent_lookup nodes :
  ∃ parent,
    init_parent nodes = Some parent
    ∧ ∀ k, parent !! k
           = if decide (k ∈ id <$> nodes ∧ k ≠ "__proto__")
             then Some (str k) else None.
Proof.
  unfold init_parent.
  induction nodes as [|n nodes (parent & IH & Hl)] using rev_ind.
  - exists ∅. split; [done|]. intros k. rewrite lookup_empty.
    rewrite decide_False; [done|]. by intros [?%elem_of_nil _].
  - rewrite foldl_snoc, IH. cbn [mbind option_bind].
    destruct (decide (id n = "__proto__")) as [Hn|Hn].
    + exists parent. split.
      * unfold put. rewrite Hl, decide_False by tauto.
        by rewrite decide_True.
      * intros k. rewrite Hl, fmap_app. change (id <$> [n]) with [id n].
        apply decide_ext. rewrite elem_of_app, list_elem_of_singleton.
        split; [tauto|]. intros [[?|Hk] ?]; [tauto|congruence].
    + exists (<[id n := str (id n)]> parent). split.
      * by apply put_ordinary.
      * intros k. rewrite fmap_app. change (id <$> [n]) with [id n].
        destruct (decide (k = id n)) as [->|Hne].
        -- rewrite lookup_insert_eq, decide_True; [done|].
           split; [|done]. apply elem_of_app. right.
           by apply list_elem_of_singleton.
        -- rewrite lookup_insert_ne, Hl by done. apply decide_ext.
           rewrite elem_of_app, list_elem_of_singleton. tauto.
Qed.

Lemma init_state (G : list (Point number)) V :
  V ⊆ id <$> G → "__proto__" ∉ V →
  ∃ parent, init_parent G = Some parent ∧ uf_state V parent [].
Proof.
  intros HV Hproto.
  destruct (init_parent_lookup G) as (parent & Hinit & Hl).
  exists parent. split; [done|].
  assert (Hself : ∀ k, k ∈ V → parent !! k = Some (str k)).
  { intros k Hk. rewrite Hl, decide_True; [done|].
    split; [by apply HV|]. by intros ->. }
  split.
  - exists (fun _ => 0%nat). split.
    + intros k Hk. exists k. auto.
    + intros k p Hk. rewrite (Hself k Hk). congruence.
    + done.
  - intros x y rx ry Hx Hy Hrx Hry.
    rewrite (root_of_det _ _ _ _ Hrx (root_self _ _ (Hself x Hx))).
    rewrite (root_of_det _ _ _ _ Hry (root_self _ _ (Hself y Hy))).
    by rewrite <- component_connected.
Qed.

Lemma select_forest mst e :
  forest (ends <$> mst) → forest (ends <$> select mst e).
Proof.
  intros HF. unfold select. case_decide; [done|].
  rewrite fmap_app. by apply forest_snoc.
Qed.

Lemma select_within V mst e :
  within V mst → id (from e) ∈ V → id (to e) ∈ V →
  within V (select mst e).
Proof.
  intros Hw Hu Hv e'. unfold select. case_decide; [by apply Hw|].
  intros [?|Heq%list_elem_of_singleton]%elem_of_app; [by apply Hw|].
  by subst e'.
Qed.

Lemma for_of_ok V depth es parent mst :
  NoDup V → (length V ≤ depth)%nat →
  uf_state V parent mst → forest (ends <$> mst) → within V mst →
  within V es →
  ∃ parent',
    for_of depth (parent, mst) es = Some (parent', foldl select mst es)
    ∧ uf_state V parent' (foldl select mst es).
Proof.
  intros HV Hd. revert parent mst.
  induction es as [|e es IH]; intros parent mst Hst HF Hw Hes.
  - exists parent. done.
  - destruct (Hes e) as [Hu Hv]; [by left|].
    assert (Hlen : (length mst < depth)%nat).
    { pose proof (forest_length V mst HV Hw HF).
      assert (V ≠ []) by (intros ->; by apply elem_of_nil in Hu).
      pose proof (components_pos (ends <$> mst) V ltac:(done)). lia. }
    destruct (visit_ok V depth parent mst e Hlen Hst Hu Hv)
      as (p' & Hvisit & Hst').
    change (for_of depth (parent, mst) (e :: es))
      with (visit depth (parent, mst) e ≫= λ st', for_of depth st' es).
    rewrite Hvisit. simpl.
    apply IH; [done|by apply select_forest|by apply select_within|].
    intros e' He'. apply Hes. by right.
Qed.

(** *** The sort permutes *)

Lemma insert_sorted_Permutation {A} (cmp : A → A → number) x l :
  insert_sorted cmp x l ≡ₚ x :: l.
Proof.
  induction l as [|y l IH]; [done|]. simpl. case_match; [|done].
  rewrite IH. apply Permutation_swap.
Qed.

Lemma Array_sort_Permutation {A} (cmp : A → A → number) l :
  Array_sort cmp l ≡ₚ l.
Proof.
  induction l as [|x l IH]; [done|]. simpl.
  by rewrite insert_sorted_Permutation, IH.
Qed.

Lemma insert_sorted_fmap {A B} (f : A → B) (cmp : B → B → number) x l :
  f <$> insert_sorted (fun x y => cmp (f x) (f y)) x l
  = insert_sorted cmp (f x) (f <$> l).
Proof.
  induction l as [|y l IH]; [done|]. simpl. case_match; [|done].
  by rewrite fmap_cons, IH.
Qed.

Lemma Array_sort_fmap {A B} (f : A → B) (cmp : B → B → number) l :
  f <$> Array_sort (fun x y => cmp (f x) (f y)) l
  = Array_sort cmp (f <$> l).
Proof.
  induction l as [|x l IH]; [done|]. simpl.
  by rewrite insert_sorted_fmap, IH.
Qed.

(** An engine that sorts by stable insertion whatever the comparison
    function returns. *)
Definition stable_engine (L : Libm) : Engine := {|
  engine_libm := L;
  Array_prototype_sort := @Array_sort;
  sort_permutes := @Array_sort_Permutation;
  sort_consistent := fun A comparefn l _ => eq_refl;
  sort_natural := @Array_sort_fmap;
|}.

(** *** An engine that sorts by binary insertion

    What the order is when a comparison is NaN depends on the algorithm.
    The one below is the algorithm of V8 for arrays of fewer than 64
    elements: the longest run at the start of the array is found (and
    reversed when it descends), and the other elements are inserted into
    it one by one, each at the place found by binary search.  A result of
    the comparison function that is NaN counts as [+0], so that only
    [comparefn(a, b) < 0] is ever tested. *)
Section BinaryInsertion.
Context {A : Type} (comparefn : A → A → number).

(** The number of elements after the second that extend the run. *)
Fixpoint run_length (descending : bool) (previous : A) (rest : list A)
  : nat :=
  match rest with
  | [] => 0
  | current :: rest' =>
      if Bool.eqb descending (lt0 (comparefn current previous))
      then S (run_length descending current rest')
      else 0
  end.

Definition count_and_make_run (l : list A) : list A * list A :=
  match l with
  | low :: high :: rest =>
      let descending := lt0 (comparefn high low) in
      let n := S (S (run_length descending high rest)) in
      (if descending then reverse (take n l) else take n l, drop n l)
  | _ => (l, [])
  end.

(** The place of [pivot] in the sorted elements [s], between [left] and
    [right]. *)
Fixpoint binary_search (fuel : nat) (pivot : A) (s : list A)
    (left right : nat) : nat :=
  match fuel with
  | O => left
  | S fuel' =>
      if (left <? right)%nat then
        let mid := (left + Nat.div2 (right - left))%nat in
        match s !! mid with
        | Some y =>
            if lt0 (comparefn pivot y)
            then binary_search fuel' pivot s left mid
            else binary_search fuel' pivot s (S mid) right
        | None => left
        end
      else left
  end.

Definition insert_pivot (s : list A) (pivot : A) : list A :=
  let left := binary_search (S (length s)) pivot s 0 (length s) in
  take left s ++ pivot :: drop left s.

Definition binary_insertion_sort (l : list A) : list A :=
  let '(run, rest) := count_and_make_run l in
  foldl insert_pivot run rest.

Lemma count_and_make_run_Permutation l :
  (count_and_make_run l).1 ++ (count_and_make_run l).2 ≡ₚ l.
Proof.
  destruct l as [|low [|high rest]]; [done|done|].
  unfold count_and_make_run. cbv zeta. cbn [fst snd].
  set (n := S (S _)). set (l := low :: high :: rest).
  trans (take n l ++ drop n l); [|by rewrite take_drop].
  apply Permutation_app_tail. case_match; [|done].
  apply reverse_Permutation.
Qed.

Lemma insert_pivot_Permutation s pivot : insert_pivot s pivot ≡ₚ pivot :: s.
Proof.
  unfold insert_pivot. cbv zeta.
  rewrite <- Permutation_middle. by rewrite take_drop.
Qed.

Lemma foldl_insert_pivot_Permutation s rest :
  foldl insert_pivot s rest ≡ₚ s ++ rest.
Proof.
  revert s. induction rest as [|x rest IH]; intros s; simpl.
  - by rewrite app_nil_r.
  - rewrite IH, insert_pivot_Permutation. by rewrite <- Permutation_middle.
Qed.

Lemma binary_insertion_sort_Permutation l : binary_insertion_sort l ≡ₚ l.
Proof.
  unfold binary_insertion_sort.
  pose proof (count_and_make_run_Permutation l) as Hp.
  destruct (count_and_make_run l) as [run rest].
  by rewrite foldl_insert_pivot_Permutation.
Qed.

End BinaryInsertion.

Section BinaryInsertionNatural.
Context {A B : Type} (f : A → B) (comparefn : B → B → number).

Local Abbreviation comparefn' := (fun x y => comparefn (f x) (f y)).

Lemma run_length_fmap descending previous rest :
  run_length comparefn' descending previous rest
  = run_length comparefn descending (f previous) (f <$> rest).
Proof.
  revert previous. induction rest as [|x rest IH]; intros previous; [done|].
  simpl. by rewrite IH.
Qed.

Lemma count_and_make_run_fmap l :
  count_and_make_run comparefn (f <$> l)
  = (f <$> (count_and_make_run comparefn' l).1,
     f <$> (count_and_make_run comparefn' l).2).
Proof.
  destruct l as [|low [|high rest]]; [done|done|].
  unfold count_and_make_run. rewrite !fmap_cons. cbv zeta. cbn [fst snd].
  rewrite <- run_length_fmap, <- !fmap_cons.
  rewrite fmap_drop. f_equal.
  case_match; [|by rewrite fmap_take].
  by rewrite fmap_reverse, fmap_take.
Qed.

Lemma binary_search_fmap fuel pivot s left right :
  binary_search comparefn' fuel pivot s left right
  = binary_search comparefn fuel (f pivot) (f <$> s) left right.
Proof.
  revert left right. induction fuel as [|fuel IH]; intros left right;
    [done|].
  simpl. case_match; [|done]. rewrite list_lookup_fmap.
  destruct (s !! _); simpl; [|done]. by rewrite !IH.
Qed.

Lemma insert_pivot_fmap s pivot :
  f <$> insert_pivot comparefn' s pivot
  = insert_pivot comparefn (f <$> s) (f pivot).
Proof.
  unfold insert_pivot. cbv zeta.
  rewrite fmap_app, fmap_cons, fmap_take, fmap_drop, length_fmap.
  by rewrite binary_search_fmap.
Qed.

Lemma foldl_insert_pivot_fmap s rest :
  f <$> foldl (insert_pivot comparefn') s rest
  = foldl (insert_pivot comparefn) (f <$> s) (f <$> rest).
Proof.
  revert s. induction rest as [|x rest IH]; intros s; [done|].
  simpl. by rewrite IH, insert_pivot_fmap.
Qed.

Lemma binary_insertion_sort_fmap l :
  f <$> binary_insertion_sort comparefn' l
  = binary_insertion_sort comparefn (f <$> l).
Proof.
  unfold binary_insertion_sort. rewrite count_and_make_run_fmap.
  destruct (count_and_make_run comparefn' l) as [run rest].
  apply foldl_insert_pivot_fmap.
Qed.

End BinaryInsertionNatural.

(** *** The candidate edges *)

Section Candidates.
Context (L : Libm).

Lemma edges_spec nodes e :
  e ∈ edges L nodes →
  from e ∈ nodes ∧ to e ∈ nodes
  ∧ distance e = haversineDistance (M := ieee_math L) (from e) (to e).
Proof.
  induction nodes as [|a rest IH]; [by intros ?%elem_of_nil|].
  simpl. intros [Hin|Hin]%elem_of_app.
  - apply list_elem_of_fmap in Hin as (b & -> & Hb). simpl.
    split; [by left|]. split; [by right|done].
  - destruct (IH Hin) as (? & ? & ?). split; [by right|].
    split; [by right|done].
Qed.

Lemma edges_length nodes :
  (2 * length (edges L nodes) = length nodes * (length nodes - 1))%nat.
Proof.
  induction nodes as [|a rest IH]; [done|].
  simpl. rewrite length_app, length_map. nia.
Qed.

(** Every pair of distinct points is a candidate, in one direction. *)
Lemma edges_complete nodes a b :
  a ∈ nodes → b ∈ nodes → id a ≠ id b →
  connected (ends <$> edges L nodes) (id a) (id b).
Proof.
  intros Ha Hb Hne.
  induction nodes as [|c rest IH]; [by apply elem_of_nil in Ha|].
  simpl. rewrite fmap_app.
  apply elem_of_cons in Ha as [->|Ha]; apply elem_of_cons in Hb as [->|Hb].
  - done.
  - apply connected_edge, elem_of_app. left.
    rewrite <- list_fmap_compose. apply list_elem_of_fmap.
    by exists b.
  - symmetry. apply connected_edge, elem_of_app. left.
    rewrite <- list_fmap_compose. apply list_elem_of_fmap.
    by exists a.
  - eapply connected_mono; [|by apply IH].
    intros p Hp. apply elem_of_app. by right.
Qed.

End Candidates.

Lemma edges_within L nodes : within (id <$> nodes) (edges L nodes).
Proof.
  intros e (? & ? & _)%edges_spec. split; by apply list_elem_of_fmap_2.
Qed.

(** *** The sorted candidates *)

Lemma remove_dups_NoDup (l : list string) : NoDup l → remove_dups l = l.
Proof.
  induction 1 as [|x l Hx _ IH]; [done|].
  simpl. destruct (decide_rel elem_of x l); [done|]. by rewrite IH.
Qed.

Section Sorted.
Context (E : Engine).

Lemma sorted_Permutation nodes : sorted_edges E nodes ≡ₚ edges E nodes.
Proof. apply sort_permutes. Qed.

Lemma sorted_within nodes : within (id <$> nodes) (sorted_edges E nodes).
Proof.
  intros e He. rewrite sorted_Permutation in He.
  by apply (edges_within E nodes).
Qed.

(** The function returns the edges selected from the sorted candidates,
    as soon as the stack is as deep as there are identifiers, when none of
    them is [__proto__].  Points may share identifiers. *)
Lemma build_greedy_ids depth nodes :
  "__proto__" ∉ id <$> nodes →
  (length (remove_dups (id <$> nodes)) ≤ depth)%nat →
  buildMinimumSpanningTree E depth nodes
  = Some (greedy (sorted_edges E nodes)).
Proof.
  intros Hproto Hd. unfold buildMinimumSpanningTree.
  destruct (init_state nodes (remove_dups (id <$> nodes)))
    as (parent & -> & Hst).
  { intros k. by rewrite elem_of_remove_dups. }
  { by rewrite elem_of_remove_dups. }
  cbn [mbind option_bind].
  destruct (for_of_ok (remove_dups (id <$> nodes)) depth
              (sorted_edges E nodes) parent []) as (p' & -> & _);
    try done.
  - apply NoDup_remove_dups.
  - apply forest_nil.
  - by intros e ?%elem_of_nil.
  - intros e He. rewrite !elem_of_remove_dups. by apply sorted_within.
Qed.

Lemma build_greedy depth nodes :
  NoDup (id <$> nodes) → "__proto__" ∉ id <$> nodes →
  (length nodes ≤ depth)%nat →
  buildMinimumSpanningTree E depth nodes
  = Some (greedy (sorted_edges E nodes)).
Proof.
  intros HV Hproto Hd. apply build_greedy_ids; [done|].
  by rewrite (remove_dups_NoDup _ HV), length_fmap.
Qed.

End Sorted.

(** ** Termination on any identifiers

    The identifiers need not be own properties of [parent]: [__proto__]
    never is.  [find] then walks through values of any kind, from a value
    [v] to [parent[v]], until it reaches a value that [parent] maps to
    itself.  These pointers still climb along a bounded rank. *)

Lemma key_not_inherited o : prop_key (inherited o) ∉ Object_prototype.
Proof.
  unfold prop_key, Object_prototype. case_decide as Ho.
  - by apply (bool_decide_unpack _).
  - intros H. cbn [String.append] in H.
    repeat (apply elem_of_cons in H as [H|H]; [discriminate H|]).
    by apply elem_of_nil in H.
Qed.

Lemma get_key parent v w :
  prop_key v = prop_key w → get parent v = get parent w.
Proof. unfold get. by intros ->. Qed.

Lemma get_insert parent k x w :
  get (<[k := x]> parent) w
  = if decide (prop_key w = k) then x else get parent w.
Proof.
  unfold get. destruct (decide (prop_key w = k)) as [<-|Hk].
  - by rewrite lookup_insert_eq.
  - by rewrite lookup_insert_ne.
Qed.

(** A value that is not an object. *)
Definition primitive (v : jsval) : Prop :=
  match v with inherited _ => False | _ => True end.

Record climbs (rk : jsval → nat) (B : nat) (parent : gmap string jsval)
  : Prop := {
  cl_step : ∀ v, get parent v ≠ v → (rk v < rk (get parent v))%nat;
  cl_bound : ∀ v, (rk v ≤ B)%nat;
  cl_prim : ∀ k x, parent !! k = Some x → primitive x;
}.

Lemma root_primitive rk B parent v :
  climbs rk B parent → get parent v = v → primitive v.
Proof.
  intros Hcl Hv. destruct v as [| |o]; [done|done|].
  unfold get in Hv. destruct (parent !! _) as [x|] eqn:Hx.
  - subst x. by apply (cl_prim _ _ _ Hcl) in Hx.
  - case_decide as Hin; [|done]. by destruct (key_not_inherited o).
Qed.

Lemma put_primitive parent k v :
  primitive v →
  put parent k v = Some (<[k := v]> parent)
  ∨ (put parent k v = Some parent ∧ k = "__proto__" ∧ parent !! k = None).
Proof.
  intros Hv. unfold put. destruct (parent !! k); [by left|].
  case_decide; [|by left]. right. by destruct v.
Qed.

Lemma find_at_root depth parent v :
  (0 < depth)%nat → get parent v = v →
  find depth parent v = Some (parent, v).
Proof.
  intros Hd Hv. destruct depth as [|d]; [lia|].
  cbn [find]. by rewrite decide_False by (by intros ?).
Qed.

(** [find] returns on every value, with a value that [parent] maps to
    itself, when the stack is deep enough for the rank still to climb. *)
Lemma find_returns rk B depth parent v :
  climbs rk B parent → (B - rk v < depth)%nat →
  ∃ parent' r,
    find depth parent v = Some (parent', r)
    ∧ get parent' r = r ∧ (rk v ≤ rk r)%nat
    ∧ climbs rk B parent'
    ∧ (∀ w, get parent w = w → get parent' w = w)
    ∧ (get parent v = v → parent' = parent ∧ r = v).
Proof.
  revert parent v. induction depth as [|d IH]; intros parent v Hcl Hd;
    [lia|].
  destruct (decide (get parent v = v)) as [Hroot|Hroot].
  { exists parent, v. rewrite find_at_root by (done || lia). done. }
  cbn [find]. rewrite decide_True by done.
  pose proof (cl_step _ _ _ Hcl v Hroot) as Hrk.
  pose proof (cl_bound _ _ _ Hcl (get parent v)) as Hb.
  destruct (IH parent (get parent v) Hcl ltac:(lia))
    as (p1 & r & -> & Hr & Hle & Hcl1 & Hroots & Hsame).
  cbn [mbind option_bind].
  pose proof (root_primitive _ _ _ _ Hcl1 Hr) as Hprim.
  destruct (put_primitive p1 (prop_key v) r Hprim) as [-> | (-> & _ & _)];
    cbn [mbind option_bind].
  - exists (<[prop_key v := r]> p1), r. split; [done|].
    assert (Hother : ∀ w, prop_key w = prop_key v → w ≠ r →
                          (rk w < rk r)%nat).
    { intros w Hw Hwr. pose proof (get_key parent w v Hw) as Hx.
      destruct (decide (get parent w = w)) as [Hwroot|Hwroot].
      - destruct Hsame as [_ ->]; [congruence|]. congruence.
      - pose proof (cl_step _ _ _ Hcl w Hwroot). rewrite Hx in *. lia. }
    split; [|split; [lia|split; [|split]]].
    + rewrite get_insert. by case_decide.
    + split.
      * intros w. rewrite get_insert. case_decide as Hw.
        -- intros Hwr. apply Hother; [done|congruence].
        -- apply Hcl1.
      * apply Hcl1.
      * intros k x. destruct (decide (k = prop_key v)) as [->|Hk].
        -- rewrite lookup_insert_eq. by intros [= <-].
        -- rewrite lookup_insert_ne by done. apply Hcl1.
    + intros w Hw. rewrite get_insert. case_decide as Hk; [|auto].
      destruct (decide (w = r)) as [->|Hwr]; [done|].
      pose proof (get_key parent w v Hk) as Hx.
      destruct Hsame as [_ ->]; congruence.
    + done.
  - exists p1, r. repeat split; try done; try apply Hcl1; lia.
Qed.

(** Hanging one such value under another raises the bound by one. *)
Lemma union_climbs rk B depth parent ra rb :
  climbs rk B parent → (0 < depth)%nat →
  get parent ra = ra → get parent rb = rb → ra ≠ rb →
  ∃ parent' rk',
    union depth parent ra rb = Some parent' ∧ climbs rk' (S B) parent'.
Proof.
  intros Hcl Hd Ha Hb Hne. unfold union.
  rewrite (find_at_root depth parent ra) by done. cbn [mbind option_bind].
  rewrite (find_at_root depth parent rb) by done. cbn [mbind option_bind].
  pose proof (root_primitive _ _ _ _ Hcl Hb) as Hprim.
  set (rk' := fun v => if decide (v = rb) then Nat.max (rk rb) (S (rk ra))
                       else rk v).
  assert (Hup : ∀ v, (rk v ≤ rk' v)%nat)
    by (intros v; unfold rk'; case_decide; subst; lia).
  assert (Hbound : ∀ v, (rk' v ≤ S B)%nat).
  { intros v. unfold rk'. pose proof (cl_bound _ _ _ Hcl v).
    pose proof (cl_bound _ _ _ Hcl ra). pose proof (cl_bound _ _ _ Hcl rb).
    case_decide; lia. }
  assert (Hold : ∀ w, get parent w ≠ w →
                      (rk' w < rk' (get parent w))%nat).
  { intros w Hw. pose proof (cl_step _ _ _ Hcl w Hw).
    pose proof (Hup (get parent w)).
    assert (w ≠ rb) by congruence.
    unfold rk' at 1. rewrite decide_False by done. lia. }
  destruct (put_primitive parent (prop_key ra) rb Hprim)
    as [-> | (-> & _ & _)].
  - exists (<[prop_key ra := rb]> parent), rk'. split; [done|]. split.
    + intros w. rewrite get_insert. case_decide as Hk; [|apply Hold].
      intros Hwr. pose proof (get_key parent w ra Hk) as Hx.
      rewrite Ha in Hx.
      assert (rk w ≤ rk ra)%nat.
      { destruct (decide (w = ra)) as [->|Hwa]; [done|].
        pose proof (cl_step _ _ _ Hcl w ltac:(congruence)).
        rewrite Hx in *. lia. }
      unfold rk'. rewrite decide_False by done.
      rewrite decide_True by done. lia.
    + done.
    + intros k x. destruct (decide (k = prop_key ra)) as [->|Hk].
      * rewrite lookup_insert_eq. by intros [= <-].
      * rewrite lookup_insert_ne by done. apply Hcl.
  - exists parent, rk'. split; [done|]. split; [done|done|apply Hcl].
Qed.

(** One iteration of the loop returns. *)
Lemma visit_returns depth parent mst e :
  (∃ rk, climbs rk (3 + length mst) parent) →
  (3 + length mst < depth)%nat →
  ∃ parent' mst',
    visit depth (parent, mst) e = Some (parent', mst')
    ∧ (mst' = mst ∨ mst' = mst ++ [e])
    ∧ ∃ rk', climbs rk' (3 + length mst') parent'.
Proof.
  intros [rk Hcl] Hd. unfold visit.
  destruct (find_returns rk _ depth parent (str (id (from e))) Hcl
              ltac:(lia))
    as (p1 & ra & -> & Hra & _ & Hcl1 & _ & _).
  cbn [mbind option_bind].
  destruct (find_returns rk _ depth p1 (str (id (to e))) Hcl1 ltac:(lia))
    as (p2 & rb & -> & Hrb & _ & Hcl2 & Hroots & _).
  cbn [mbind option_bind].
  case_decide as Hne.
  - destruct (union_climbs rk _ depth p2 ra rb Hcl2 ltac:(lia)
                (Hroots _ Hra) Hrb Hne) as (p3 & rk' & -> & Hcl3).
    cbn [mbind option_bind]. exists p3, (mst ++ [e]).
    split; [done|]. split; [by right|]. exists rk'.
    by rewrite length_app, Nat.add_1_r, Nat.add_succ_r.
  - exists p2, mst. split; [done|]. split; [by left|by exists rk].
Qed.

(** The loop returns, whatever the edges. *)
Lemma for_of_returns depth es parent mst :
  (∃ rk, climbs rk (3 + length mst) parent) →
  (3 + length mst + length es < depth)%nat →
  ∃ parent' mst',
    for_of depth (parent, mst) es = Some (parent', mst')
    ∧ (length mst' ≤ length mst + length es)%nat
    ∧ ∃ rk', climbs rk' (3 + length mst') parent'.
Proof.
  revert parent mst. induction es as [|e es IH]; intros parent mst Hcl Hd.
  - exists parent, mst. split; [done|]. split; [lia|done].
  - destruct (visit_returns depth parent mst e Hcl ltac:(simpl in Hd; lia))
      as (p1 & m1 & Hv & Hm & Hcl1).
    change (for_of depth (parent, mst) (e :: es))
      with (visit depth (parent, mst) e ≫= λ st', for_of depth st' es).
    rewrite Hv. cbn [mbind option_bind].
    assert (length m1 ≤ S (length mst))%nat
      by (destruct Hm as [-> | ->]; rewrite ?length_app; simpl; lia).
    destruct (IH p1 m1 Hcl1 ltac:(simpl in Hd; lia))
      as (p' & mst' & -> & Hlen & Hcl').
    exists p', mst'. split; [done|]. split; [simpl; lia|done].
Qed.

(** The object that [forEach] leaves: the values climb along a rank of at
    most three. *)
Lemma init_climbs nodes :
  ∃ parent rk, init_parent nodes = Some parent ∧ climbs rk 3 parent.
Proof.
  destruct (init_parent_lookup nodes) as (parent & Hinit & Hl).
  exists parent,
    (fun v => match v with
              | str s => if decide (parent !! s = Some (str s)) then 3
                         else 0
              | undefined => 2
              | inherited _ => 1
              end)%nat.
  split; [done|].
  assert (Hown : ∀ k x, parent !! k = Some x → x = str k).
  { intros k x. rewrite Hl. case_decide; congruence. }
  split.
  - intros v. unfold get. destruct (parent !! prop_key v) as [x|] eqn:Hx.
    + pose proof (Hown _ _ Hx) as ->. intros Hv.
      rewrite decide_True by done.
      destruct v as [|s|o]; [lia| |lia]. simpl in Hx, Hv. done.
    + destruct v as [|s|o].
      * rewrite decide_False by (by apply (bool_decide_unpack _)). done.
      * simpl in Hx. rewrite Hx. intros _.
        rewrite decide_False by done. case_decide; lia.
      * rewrite decide_False by apply key_not_inherited. lia.
  - intros [|s|o]; [lia| |lia]. case_decide; lia.
  - intros k x Hx. by rewrite (Hown _ _ Hx).
Qed.

Section Returns.
Context (E : Engine).

(** Every state that the loop reaches, on any list of points, is such a
    structure, on which [find] returns on every value, when the stack is
    deep enough for all the candidate edges. *)
Lemma for_of_climbs depth nodes pre post :
  (length (edges E nodes) + 3 < depth)%nat →
  sorted_edges E nodes = pre ++ post →
  ∃ parent0 parent mst rk,
    init_parent nodes = Some parent0
    ∧ for_of depth (parent0, []) pre = Some (parent, mst)
    ∧ climbs rk (3 + length mst) parent
    ∧ ∀ v, ∃ parent' r,
        find depth parent v = Some (parent', r) ∧ get parent' r = r.
Proof.
  intros Hd Hsplit.
  assert (Hlen : (length pre ≤ length (edges E nodes))%nat).
  { rewrite <- (Permutation_length (sorted_Permutation E nodes)), Hsplit.
    rewrite length_app. lia. }
  destruct (init_climbs nodes) as (parent0 & rk0 & Hinit & Hcl0).
  destruct (for_of_returns depth pre parent0 []) as
    (parent & mst & Hrun & Hmst & rk & Hcl);
    [by exists rk0|simpl; lia|].
  exists parent0, parent, mst, rk. split; [done|]. split; [done|].
  split; [done|]. intros v.
  destruct (find_returns rk _ depth parent v Hcl ltac:(simpl in Hmst; lia))
    as (p' & r & Hf & Hr & _). eauto.
Qed.

Lemma build_returns depth nodes :
  (length (edges E nodes) + 3 < depth)%nat →
  ∃ mst, buildMinimumSpanningTree E depth nodes = Some mst.
Proof.
  intros Hd.
  destruct (for_of_climbs depth nodes (sorted_edges E nodes) [] Hd)
    as (parent0 & parent & mst & _ & Hinit & Hrun & _);
    [by rewrite app_nil_r|].
  exists mst. unfold buildMinimumSpanningTree.
  rewrite Hinit. cbn [mbind option_bind]. by rewrite Hrun.
Qed.

End Returns.

(** ** More about runs of the loop *)

(** The loop only ever appends edges it visits. *)
Lemma visit_appends depth parent mst e parent' mst' :
  visit depth (parent, mst) e = Some (parent', mst') →
  mst' = mst ∨ mst' = mst ++ [e].
Proof.
  unfold visit. intros H.
  destruct (find depth parent _) as [[p1 rootA]|]; simplify_eq/=.
  destruct (find depth p1 _) as [[p2 rootB]|]; simplify_eq/=.
  case_decide; simplify_eq/=; [|by left].
  destruct (union depth p2 rootA rootB); simplify_eq/=. by right.
Qed.

Lemma for_of_appends depth es parent mst parent' mst' :
  for_of depth (parent, mst) es = Some (parent', mst') →
  ∀ e, e ∈ mst' → e ∈ mst ∨ e ∈ es.
Proof.
  revert parent mst. induction es as [|e0 es IH]; intros parent mst H e He.
  - simplify_eq/=. by left.
  - change (for_of depth (parent, mst) (e0 :: es))
      with (visit depth (parent, mst) e0 ≫= λ st', for_of depth st' es) in H.
    destruct (visit depth (parent, mst) e0) as [[p1 m1]|] eqn:Hv;
      simplify_eq/=.
    destruct (IH _ _ H e He) as [Hin|Hin]; [|by right; right].
    destruct (visit_appends _ _ _ _ _ _ Hv) as [-> | ->]; [by left|].
    apply elem_of_app in Hin as [?|Hin%list_elem_of_singleton];
      [by left|subst e; by right; left].
Qed.

(** A run of the function is a run of the loop, from the object that
    [forEach] leaves, over the sorted candidates. *)
Lemma build_run E depth nodes mst :
  buildMinimumSpanningTree E depth nodes = Some mst →
  ∃ parent parent',
    init_parent nodes = Some parent
    ∧ for_of depth (parent, []) (sorted_edges E nodes) = Some (parent', mst).
Proof.
  unfold buildMinimumSpanningTree. intros H.
  destruct (init_parent nodes) as [parent|]; simplify_eq/=.
  destruct (for_of depth _ _) as [[p m]|] eqn:Hf; simplify_eq/=. eauto.
Qed.

(** Whatever the input, a returned edge is a candidate edge. *)
Lemma build_candidates E depth nodes mst :
  buildMinimumSpanningTree E depth nodes = Some mst →
  ∀ e, e ∈ mst → e ∈ edges E nodes.
Proof.
  intros (parent & parent' & _ & Hf)%build_run e He.
  destruct (for_of_appends _ _ _ _ _ _ Hf e He) as [Hin|Hin].
  - by apply elem_of_nil in Hin.
  - by rewrite sorted_Permutation in Hin.
Qed.

(** Every state the loop reaches is a union-find forest on which [find]
    returns. *)
Lemma for_of_states E depth nodes pre post :
  NoDup (id <$> nodes) → "__proto__" ∉ id <$> nodes →
  (length nodes ≤ depth)%nat →
  sorted_edges E nodes = pre ++ post →
  ∃ parent0 parent mst rk,
    init_parent nodes = Some parent0
    ∧ for_of depth (parent0, []) pre = Some (parent, mst)
    ∧ uf_inv (id <$> nodes) rk (length mst) parent
    ∧ ∀ n, n ∈ nodes →
        ∃ parent' r,
          find depth parent (str (id n)) = Some (parent', str r).
Proof.
  intros HV Hproto Hd Hsplit.
  assert (Hpre : within (id <$> nodes) pre).
  { intros e He. apply (sorted_within E nodes). rewrite Hsplit.
    apply elem_of_app. by left. }
  destruct (init_state nodes (id <$> nodes)) as (parent0 & Hinit & Hst);
    [done|done|].
  destruct (for_of_ok (id <$> nodes) depth pre parent0 [])
    as (parent & Hrun & [[rk Hinv] _]); try done.
  - by rewrite length_fmap.
  - apply forest_nil.
  - by intros e ?%elem_of_nil.
  - exists parent0, parent, (foldl select [] pre), rk.
    split; [done|]. split; [done|]. split; [done|].
    intros n Hn.
    assert (Hk : id n ∈ id <$> nodes) by by apply list_elem_of_fmap_2.
    assert (Hw : within (id <$> nodes) (greedy pre)).
    { intros e He. apply Hpre.
      by eapply sublist_subseteq, He; apply greedy_sublist. }
    pose proof (forest_length _ _ HV Hw (greedy_forest pre)) as Hlen.
    pose proof (components_pos (ends <$> greedy pre) (id <$> nodes)
                  ltac:(intros E'; rewrite E' in Hk; by apply elem_of_nil in Hk)).
    rewrite length_fmap in Hlen. unfold greedy in *.
    destruct (find_ok _ rk _ depth parent (id n) Hinv Hk ltac:(lia))
      as (p' & r & Hfind & _). eauto.
Qed.

(** ** The sign of a difference of numbers

    [a.distance - b.distance] is positive exactly when [a.distance] is the
    larger value: a difference of finite doubles is never rounded to zero,
    and rounding keeps its sign. *)

Section SignOfDifference.

Lemma shr_m_of_loc m l : shr_m (shr_record_of_loc m l) = m.
Proof. by destruct l as [|[]]. Qed.

Lemma shr_1_half r : 0 <= shr_m r → shr_m (shr_1 r) = shr_m r / 2.
Proof.
  destruct r as [m r s]. simpl. intros Hm.
  destruct m as [|[p|p|]|p]; simpl; try lia;
    (apply Z.div_unique with 1; lia) || (apply Z.div_unique with 0; lia).
Qed.

Lemma iter_shr_1 p r :
  0 <= shr_m r → shr_m (iter_pos shr_1 p r) = shr_m r / 2 ^ Z.pos p.
Proof.
  revert r. induction p as [p IH|p IH|]; intros r Hr; cbn [iter_pos].
  - assert (Hpow : 2 ^ Z.pos p~1 = 2 * (2 ^ Z.pos p * 2 ^ Z.pos p)).
    { rewrite <- Z.pow_add_r, <- Z.pow_succ_r by lia. f_equal. lia. }
    assert (H1 : 0 <= shr_m (shr_1 r))
      by (rewrite shr_1_half by done; apply Z.div_pos; lia).
    assert (H2 : 0 <= shr_m (iter_pos shr_1 p (shr_1 r)))
      by (rewrite IH by done; apply Z.div_pos; lia).
    rewrite IH, IH, shr_1_half by done.
    rewrite !Z.div_div by lia. by rewrite Hpow, Z.mul_assoc.
  - assert (Hpow : 2 ^ Z.pos p~0 = 2 ^ Z.pos p * 2 ^ Z.pos p).
    { rewrite <- Z.pow_add_r by lia. f_equal. lia. }
    assert (H2 : 0 <= shr_m (iter_pos shr_1 p r))
      by (rewrite IH by done; apply Z.div_pos; lia).
    rewrite IH, IH by done. rewrite !Z.div_div by lia. by rewrite Hpow.
  - by rewrite shr_1_half.
Qed.

Lemma digits2_pos_lower m : 2 ^ (Z.pos (digits2_pos m) - 1) <= Z.pos m.
Proof.
  induction m as [m IH|m IH|]; simpl; [| |done].
  - rewrite Pos2Z.inj_succ.
    replace (Z.succ (Z.pos (digits2_pos m)) - 1)
      with (Z.succ (Z.pos (digits2_pos m) - 1)) by lia.
    rewrite Z.pow_succ_r by lia. lia.
  - rewrite Pos2Z.inj_succ.
    replace (Z.succ (Z.pos (digits2_pos m)) - 1)
      with (Z.succ (Z.pos (digits2_pos m) - 1)) by lia.
    rewrite Z.pow_succ_r by lia. lia.
Qed.

(** Shifting a positive mantissa to its format exponent leaves it
    positive, when the exponent is at least the smallest one. *)
Lemma shr_fexp_pos m e l :
  0 < m → -1074 <= e →
  0 < shr_m (shr_fexp prec emax m e l).1
  ∧ -1074 <= (shr_fexp prec emax m e l).2.
Proof.
  intros Hm He. unfold shr_fexp, shr, fexp, SpecFloat.emin, prec, emax.
  destruct m as [|m|m]; try lia. simpl Zdigits2.
  pose proof (digits2_pos_lower m) as Hdig.
  set (d := Z.pos (digits2_pos m)) in *.
  destruct (Z.max (d + e - 53) (3 - 1024 - 53) - e) as [|p|p] eqn:Hn;
    simpl; rewrite ?shr_m_of_loc; try lia.
  rewrite iter_shr_1 by (rewrite shr_m_of_loc; lia).
  rewrite shr_m_of_loc. split; [|lia].
  assert (Hp : Z.pos p = d - 53) by lia.
  apply Z.div_str_pos. split; [lia|].
  etrans; [|exact Hdig]. apply Z.pow_le_mono_r; lia.
Qed.

Lemma round_nearest_even_pos m l : 0 < m → 0 < round_nearest_even m l.
Proof.
  intros Hm. destruct l as [|[]]; simpl; try lia. case_match; lia.
Qed.

Lemma binary_round_aux_pos m e l :
  0 < m → -1074 <= e →
  gt0 (binary_round_aux prec emax false m e l) = true.
Proof.
  intros Hm He. unfold binary_round_aux.
  pose proof (shr_fexp_pos m e l Hm He) as [H1 H1'].
  destruct (shr_fexp prec emax m e l) as [mrs' e']. simpl in H1, H1'.
  pose proof (shr_fexp_pos _ e' loc_Exact
    (round_nearest_even_pos _ (loc_of_shr_record mrs') H1) H1')
    as [H2 _].
  destruct (shr_fexp prec emax _ e' loc_Exact) as [mrs'' e''].
  simpl in H2. destruct (shr_m mrs''); [lia| |lia].
  by case_match.
Qed.

Lemma shl_align_value m e e' :
  e' <= e →
  Z.pos (shl_align m e e').1 = Z.pos m * 2 ^ (e - e').
Proof.
  intros He. unfold shl_align.
  destruct (e' - e) as [|p|p] eqn:Hd; simpl; try lia.
  - replace (e - e') with 0 by lia. lia.
  - change (Pos.iter xO m p) with (shift_pos p m).
    rewrite shift_pos_correct, Z.pow_pos_fold.
    replace (e - e') with (Z.pos p) by lia. lia.
Qed.

Lemma shl_align_exp m e e' :
  -1074 <= e → -1074 <= e' → -1074 <= (shl_align m e e').2.
Proof.
  intros. unfold shl_align. by destruct (e' - e).
Qed.

Lemma binary_round_pos m e :
  -1074 <= e → gt0 (binary_round prec emax false m e) = true.
Proof.
  intros He. unfold binary_round.
  pose proof (shl_align_exp m e
    (fexp prec emax (Z.pos (digits2_pos m) + e)) He) as Hexp.
  destruct (shl_align m e _) as [mz ez]. simpl in Hexp.
  apply binary_round_aux_pos; [lia|]. apply Hexp.
  unfold fexp, SpecFloat.emin, prec, emax. lia.
Qed.

Lemma binary_round_neg m e :
  gt0 (binary_round prec emax true m e) = false.
Proof.
  unfold binary_round. destruct (shl_align m e _) as [mz ez].
  unfold binary_round_aux.
  destruct (shr_fexp prec emax (Z.pos mz) ez loc_Exact) as [mrs' e'].
  destruct (shr_fexp prec emax _ e' loc_Exact) as [mrs'' e''].
  destruct (shr_m mrs''); [done| |done]. by case_match.
Qed.

End SignOfDifference.

Lemma ulps_align s m e ez :
  -1074 <= ez → ez <= e →
  cond_Zopp s (Z.pos m * 2 ^ (e + 1074))
  = cond_Zopp s (Z.pos (shl_align m e ez).1) * 2 ^ (ez + 1074).
Proof.
  intros H1 H2. rewrite shl_align_value by done.
  assert (2 ^ (e + 1074) = 2 ^ (e - ez) * 2 ^ (ez + 1074)) as ->
    by (rewrite <- Z.pow_add_r by lia; f_equal; lia).
  destruct s; simpl; lia.
Qed.

Lemma ulps_sign s m e :
  -1074 <= e →
  match s with
  | true => ulps (S754_finite s m e) < 0
  | false => 0 < ulps (S754_finite s m e)
  end.
Proof.
  intros He. simpl.
  assert (0 < 2 ^ (e + 1074)) by (apply Z.pow_pos_nonneg; lia).
  destruct s; simpl; nia.
Qed.

(** The comparison function of the sort orders finite numbers by value. *)
Lemma sub_gt0 x y :
  finite x = true → finite y = true →
  gt0 (sub x y) = bool_decide (ulps y < ulps x).
Proof.
  destruct x as [sx| | |sx mx ex], y as [sy| | |sy my ey]; try done;
    intros Hx Hy.
  - by destruct sx, sy.
  - simpl in Hy. apply andb_true_iff in Hy as [Hy%Z.leb_le _].
    pose proof (ulps_sign sy my ey Hy) as Hs.
    change (ulps (S754_zero sx)) with 0.
    destruct sy; simpl negb; unfold sub, SFsub, gt0, SFltb; simpl SFcompare;
      case_bool_decide; done || lia.
  - simpl in Hx. apply andb_true_iff in Hx as [Hx%Z.leb_le _].
    pose proof (ulps_sign sx mx ex Hx) as Hs.
    change (ulps (S754_zero sy)) with 0.
    destruct sx; unfold sub, SFsub, gt0, SFltb; simpl SFcompare;
      case_bool_decide; done || lia.
  - simpl in Hx, Hy.
    apply andb_true_iff in Hx as [Hx%Z.leb_le _].
    apply andb_true_iff in Hy as [Hy%Z.leb_le _].
    unfold sub, SFsub, ulps.
    rewrite (ulps_align sx mx ex (Z.min ex ey)) by lia.
    rewrite (ulps_align sy my ey (Z.min ex ey)) by lia.
    assert (0 < 2 ^ (Z.min ex ey + 1074)) by (apply Z.pow_pos_nonneg; lia).
    set (X := cond_Zopp sx (Z.pos (shl_align mx ex (Z.min ex ey)).1)).
    set (Y := cond_Zopp sy (Z.pos (shl_align my ey (Z.min ex ey)).1)).
    cbv zeta. fold X Y.
    destruct (X - Y) as [|p|p] eqn:HM; unfold binary_normalize.
    + rewrite bool_decide_eq_false_2; [done|nia].
    + rewrite binary_round_pos by lia.
      rewrite bool_decide_eq_true_2; [done|nia].
    + rewrite binary_round_neg.
      rewrite bool_decide_eq_false_2; [done|nia].
Qed.

Lemma binary_round_aux_negb s m e l :
  binary_round_aux prec emax (negb s) m e l
  = SFopp (binary_round_aux prec emax s m e l).
Proof.
  unfold binary_round_aux.
  destruct (shr_fexp prec emax m e l) as [mrs' e'].
  destruct (shr_fexp prec emax _ e' loc_Exact) as [mrs'' e''].
  destruct (shr_m mrs''); [done| |done]. by case_match.
Qed.

Lemma binary_round_true m e :
  binary_round prec emax true m e = SFopp (binary_round prec emax false m e).
Proof.
  unfold binary_round. destruct (shl_align m e _) as [mz ez].
  apply (binary_round_aux_negb false).
Qed.

Lemma binary_normalize_opp m e :
  m ≠ 0 →
  binary_normalize prec emax (- m) e false
  = SFopp (binary_normalize prec emax m e false).
Proof.
  destruct m as [|p|p]; [done| |]; intros _; simpl.
  - apply binary_round_true.
  - rewrite binary_round_true.
    by destruct (binary_round _ _ _ _ _) as [[]|[]| |[] ? ?].
Qed.

(** A difference changes sign when its terms are exchanged, unless it is
    [+0] both ways. *)
Lemma sub_swap x y :
  sub y x = SFopp (sub x y) ∨ (sub x y = zero ∧ sub y x = zero).
Proof.
  destruct x as [[]|[]| |sx mx ex], y as [[]|[]| |sy my ey];
    try (by left); try (by right);
    try (left; simpl; by destruct sx); try (left; simpl; by destruct sy).
  unfold sub, SFsub. rewrite (Z.min_comm ey ex).
  set (X := cond_Zopp sx _). set (Y := cond_Zopp sy _).
  destruct (decide (X - Y = 0)) as [H0|H0].
  - right. replace (Y - X) with 0 by lia. by rewrite H0.
  - left. replace (Y - X) with (- (X - Y)) by lia.
    by apply binary_normalize_opp.
Qed.

Lemma gt0_opp v : gt0 (SFopp v) = lt0 v.
Proof. by destruct v as [[]|[]| |[] m e]. Qed.

Lemma sub_lt0 x y :
  finite x = true → finite y = true →
  lt0 (sub x y) = bool_decide (ulps x < ulps y).
Proof.
  intros Hx Hy. rewrite <- (sub_gt0 y x) by done.
  destruct (sub_swap x y) as [-> | [-> ->]]; [|done].
  by rewrite gt0_opp.
Qed.

(** The difference of two finite numbers is a number. *)
Lemma sub_number x y :
  finite x = true → finite y = true → isNaN (sub x y) = false.
Proof.
  destruct x as [sx| | |sx mx ex], y as [sy| | |sy my ey]; try done;
    intros Hx Hy.
  - by destruct sx, sy.
  - simpl in Hx, Hy.
    apply andb_true_iff in Hx as [Hx%Z.leb_le _].
    apply andb_true_iff in Hy as [Hy%Z.leb_le _].
    unfold sub, SFsub. set (X := cond_Zopp sx _). set (Y := cond_Zopp sy _).
    cbv zeta. destruct (X - Y) as [|p|p]; unfold binary_normalize; [done| |].
    + pose proof (binary_round_pos p (Z.min ex ey) ltac:(lia)) as Hp.
      by destruct (binary_round _ _ _ _ _).
    + rewrite binary_round_true.
      pose proof (binary_round_pos p (Z.min ex ey) ltac:(lia)) as Hp.
      by destruct (binary_round _ _ _ _ _).
Qed.

(** ** The sort orders by value *)

Section SortByValue.
Context {A : Type} (comparefn : A → A → number) (w : A → Z).

(** [comparefn] is positive exactly on pairs in descending order. *)
Definition orders (l : list A) : Prop :=
  ∀ x y, x ∈ l → y ∈ l →
    gt0 (comparefn x y) = bool_decide (w y < w x).

Lemma insert_sorted_sorted x l :
  orders (x :: l) →
  StronglySorted (fun a b => w a <= w b) l →
  StronglySorted (fun a b => w a <= w b) (insert_sorted comparefn x l).
Proof.
  intros Ho. induction 1 as [|y l Hs IH Hy]; simpl.
  - repeat constructor.
  - rewrite Ho by (set_unfold; tauto). case_bool_decide as Hlt.
    + constructor.
      * apply IH. intros a b Ha Hb. apply Ho; set_unfold; tauto.
      * rewrite insert_sorted_Permutation. constructor; [lia|done].
    + constructor; [by constructor|]. constructor; [lia|].
      eapply Forall_impl; [exact Hy|]. simpl. lia.
Qed.

Lemma Array_sort_sorted l :
  orders l →
  StronglySorted (fun a b => w a <= w b) (Array_sort comparefn l).
Proof.
  induction l as [|x l IH]; intros Ho; simpl; [constructor|].
  apply insert_sorted_sorted.
  - intros a b Ha Hb. apply Ho.
    + apply elem_of_cons in Ha as [->|Ha]; [by left|right].
      by rewrite Array_sort_Permutation in Ha.
    + apply elem_of_cons in Hb as [->|Hb]; [by left|right].
      by rewrite Array_sort_Permutation in Hb.
  - apply IH. intros a b Ha Hb. apply Ho; by right.
Qed.

End SortByValue.

(** The exact value of the [distance] of an edge, in units of [2^-1074]
    kilometres. *)
Definition weight (e : Edge) : Z := ulps (distance e).

Lemma by_distance_orders (es : list Edge) :
  (∀ e, e ∈ es → finite (distance e) = true) →
  orders by_distance weight es.
Proof.
  intros Hfin x y Hx Hy. unfold by_distance, weight.
  by apply sub_gt0; apply Hfin.
Qed.

(** On edges whose distances are finite numbers, the comparison function
    of the program is consistent. *)
Lemma by_distance_consistent (es : list Edge) :
  (∀ e, e ∈ es → finite (distance e) = true) →
  consistent by_distance es.
Proof.
  intros Hfin. exists weight. intros x y Hx Hy. unfold by_distance, weight.
  split; [|split].
  - by apply sub_number; apply Hfin.
  - by apply sub_gt0; apply Hfin.
  - by apply sub_lt0; apply Hfin.
Qed.

(** ** The sort is stable *)

Section Stable.
Context {A : Type} (comparefn : A → A → number).
Context (P : A → Prop) `{∀ x, Decision (P x)}.

Lemma insert_sorted_stable x l :
  (∀ y, y ∈ l → P x → P y → gt0 (comparefn x y) = false) →
  filter P (insert_sorted comparefn x l) = filter P (x :: l).
Proof.
  induction l as [|y l IH]; intros class; simpl; [done|].
  destruct (gt0 (comparefn x y)) eqn:Hgt; [|done].
  rewrite (filter_cons _ y), IH, !filter_cons
    by (intros z Hz; apply class; by right).
  destruct (decide (P x)) as [Hx|Hx], (decide (P y)) as [Hy|Hy]; try done.
  rewrite class in Hgt; [done|by left|done|done].
Qed.

(** The elements of a class on which [comparefn] is never positive keep
    their order. *)
Lemma Array_sort_stable l :
  (∀ x y, x ∈ l → y ∈ l → P x → P y → gt0 (comparefn x y) = false) →
  filter P (Array_sort comparefn l) = filter P l.
Proof.
  induction l as [|x l IH]; intros class; simpl; [done|].
  rewrite insert_sorted_stable, !filter_cons, IH; [done| |].
  - intros y z Hy Hz. apply class; by right.
  - intros y Hy. apply class; [by left|right].
    by rewrite Array_sort_Permutation in Hy.
Qed.

End Stable.

(** ** The binary insertion on a consistent comparison function

    It returns what the stable insertion returns: the list is sorted, and
    the elements of equal value keep their order. *)

Section ByBlocks.
Context {A : Type} (w : A → Z).

Local Abbreviation ascends := (StronglySorted (fun a b : A => w a <= w b)).
Local Abbreviation block d := (filter (fun x : A => w x = d)).

(** A sorted list is determined by its blocks of equal value. *)
Lemma sorted_blocks_eq (s1 s2 : list A) :
  ascends s1 → ascends s2 → (∀ d, block d s1 = block d s2) → s1 = s2.
Proof.
  intros H1. revert s2. induction H1 as [|x s1 Hs1 IH Hx]; intros s2 H2 Hb.
  - destruct s2 as [|y s2]; [done|].
    specialize (Hb (w y)). rewrite filter_cons_True in Hb by done. done.
  - destruct H2 as [|y s2 Hs2 Hy].
    { specialize (Hb (w x)). rewrite filter_cons_True in Hb by done.
      discriminate Hb. }
    rewrite Forall_forall in Hx, Hy.
    assert (Hnone : ∀ (s : list A) d, (∀ z, z ∈ s → d < w z) → block d s = []).
    { intros s d Hs. induction s as [|z s IHs]; [done|].
      rewrite filter_cons_False by (specialize (Hs z ltac:(by left)); lia).
      apply IHs. intros z' Hz'. apply Hs. by right. }
    assert (Hw : w x = w y).
    { destruct (Z.lt_trichotomy (w x) (w y)) as [Hlt|[Heq|Hgt]]; [|done|].
      - specialize (Hb (w x)). rewrite filter_cons_True in Hb by done.
        rewrite (filter_cons_False _ y) in Hb by lia.
        rewrite (Hnone s2) in Hb; [done|].
        intros z Hz. specialize (Hy z Hz). lia.
      - specialize (Hb (w y)). rewrite (filter_cons_True _ y) in Hb by done.
        rewrite filter_cons_False in Hb by lia.
        rewrite (Hnone s1) in Hb; [done|].
        intros z Hz. specialize (Hx z Hz). lia. }
    pose proof (Hb (w x)) as Hbx.
    rewrite filter_cons_True in Hbx by done.
    rewrite filter_cons_True in Hbx by done.
    injection Hbx as -> Hrest. f_equal. apply IH; [done|].
    intros d. destruct (decide (w y = d)) as [<-|Hd]; [done|].
    specialize (Hb d). by rewrite !filter_cons_False in Hb by done.
Qed.

Lemma sorted_middle s mid y :
  ascends s → s !! mid = Some y →
  (∀ x, x ∈ take (S mid) s → w x <= w y)
  ∧ (∀ x, x ∈ drop mid s → w y <= w x).
Proof.
  intros Hs Hy. rewrite <- (take_drop_middle s mid y Hy) in Hs.
  apply StronglySorted_app in Hs as (Hlr & _ & Hr).
  apply StronglySorted_cons in Hr as [Hr _]. rewrite Forall_forall in Hr.
  split.
  - intros x. rewrite (take_S_r _ _ _ Hy).
    intros [Hx|Hx%list_elem_of_singleton]%elem_of_app; [|subst; lia].
    apply Hlr; [done|by left].
  - intros x. rewrite (drop_S _ _ _ Hy).
    intros [->|Hx]%elem_of_cons; [lia|by apply Hr].
Qed.

(** A strictly descending run, reversed. *)
Lemma descending_reverse (t : list A) :
  StronglySorted (fun a b => w b < w a) t →
  ascends (reverse t) ∧ ∀ d, block d (reverse t) = block d t.
Proof.
  induction 1 as [|x t Ht [IH1 IH2] Hx].
  - split; [constructor|done].
  - rewrite Forall_forall in Hx. rewrite reverse_cons. split.
    + apply StronglySorted_app_2; [|done|repeat constructor].
      intros x1 x2 Hx1 ->%list_elem_of_singleton.
      rewrite elem_of_reverse in Hx1. specialize (Hx x1 Hx1). lia.
    + intros d. rewrite filter_app, IH2.
      destruct (decide (w x = d)) as [Hd|Hd].
      * rewrite !filter_cons_True by done. rewrite filter_nil.
        assert (block d t = []) as ->; [|done].
        clear -Hx Hd. induction t as [|z t IHt]; [done|].
        rewrite filter_cons_False
          by (specialize (Hx z ltac:(by left)); lia).
        apply IHt. intros z' Hz'. apply Hx. by right.
      * rewrite !filter_cons_False by done.
        by rewrite filter_nil, app_nil_r.
Qed.

End ByBlocks.

Section BinaryInsertionStable.
Context {A : Type} (comparefn : A → A → number) (w : A → Z) (l0 : list A).
Hypothesis less : ∀ x y, x ∈ l0 → y ∈ l0 →
  lt0 (comparefn x y) = bool_decide (w x < w y).

Local Abbreviation ascends := (StronglySorted (fun a b : A => w a <= w b)).
Local Abbreviation block d := (filter (fun x : A => w x = d)).

Lemma binary_search_place fuel pivot s left right :
  pivot ∈ l0 → s ⊆ l0 → ascends s →
  (left ≤ right)%nat → (right ≤ length s)%nat → (right - left < fuel)%nat →
  (∀ x, x ∈ take left s → w x <= w pivot) →
  (∀ x, x ∈ drop right s → w pivot < w x) →
  (∀ x, x ∈ take (binary_search comparefn fuel pivot s left right) s →
        w x <= w pivot)
  ∧ (∀ x, x ∈ drop (binary_search comparefn fuel pivot s left right) s →
          w pivot < w x).
Proof.
  intros Hp Hs Hsorted. revert left right.
  induction fuel as [|fuel IH]; intros left right Hlr Hr Hf Hleft Hright;
    [lia|].
  cbn [binary_search]. destruct (left <? right)%nat eqn:Hlt.
  - apply Nat.ltb_lt in Hlt.
    pose proof (Nat.div2_div (right - left)) as Hdiv.
    assert (Hmid : (Nat.div2 (right - left) < right - left)%nat).
    { rewrite Hdiv. apply Nat.div_lt; lia. }
    set (mid := (left + Nat.div2 (right - left))%nat) in *.
    destruct (s !! mid) as [y|] eqn:Hy.
    + destruct (sorted_middle w s mid y Hsorted Hy) as [Hbefore Hafter].
      assert (Hin : y ∈ l0) by (by eapply Hs, list_elem_of_lookup_2).
      rewrite less by done. case_bool_decide as Hc.
      * apply IH; [lia|lia|lia|done|].
        intros x Hx. specialize (Hafter x Hx). lia.
      * apply IH; [lia|lia|lia| |done].
        intros x Hx. specialize (Hbefore x Hx). lia.
    + apply lookup_ge_None in Hy. lia.
  - apply Nat.ltb_ge in Hlt. assert (left = right) as -> by lia. done.
Qed.

Lemma insert_pivot_stable s pivot :
  pivot ∈ l0 → s ⊆ l0 → ascends s →
  ascends (insert_pivot comparefn s pivot)
  ∧ ∀ d, block d (insert_pivot comparefn s pivot) = block d (s ++ [pivot]).
Proof.
  intros Hp Hs Hsorted. unfold insert_pivot. cbv zeta.
  set (k := binary_search _ _ _ _ _ _).
  destruct (binary_search_place (S (length s)) pivot s 0 (length s))
    as [Hbefore Hafter]; try done; try lia.
  { by intros x ?%elem_of_nil. }
  { intros x. rewrite drop_all. by intros ?%elem_of_nil. }
  fold k in Hbefore, Hafter.
  pose proof Hsorted as Hparts. rewrite <- (take_drop k s) in Hparts.
  apply StronglySorted_app in Hparts as (_ & Htake & Hdrop).
  split.
  - apply StronglySorted_app_2; [|done|].
    + intros x1 x2 Hx1 [->|Hx2]%elem_of_cons.
      * by apply Hbefore.
      * specialize (Hbefore x1 Hx1). specialize (Hafter x2 Hx2). lia.
    + constructor; [done|]. apply Forall_forall. intros x Hx.
      specialize (Hafter x Hx). lia.
  - intros d. rewrite <- (take_drop k s) at 3.
    rewrite !filter_app.
    destruct (decide (w pivot = d)) as [Hd|Hd].
    + rewrite !filter_cons_True by done. rewrite filter_nil.
      assert (block d (drop k s) = []) as ->; [|by rewrite app_nil_r].
      clear -Hafter Hd. induction (drop k s) as [|z t IHt]; [done|].
      rewrite filter_cons_False
        by (specialize (Hafter z ltac:(by left)); lia).
      apply IHt. intros z' Hz'. apply Hafter. by right.
    + rewrite !filter_cons_False by done.
      by rewrite filter_nil, !app_nil_r.
Qed.

Lemma foldl_insert_pivot_stable run rest :
  run ⊆ l0 → rest ⊆ l0 → ascends run →
  ascends (foldl (insert_pivot comparefn) run rest)
  ∧ ∀ d, block d (foldl (insert_pivot comparefn) run rest)
         = block d (run ++ rest).
Proof.
  revert run. induction rest as [|x rest IH]; intros run Hrun Hrest Hsorted.
  - simpl. by rewrite app_nil_r.
  - assert (Hx : x ∈ l0) by (apply Hrest; by left).
    destruct (insert_pivot_stable run x Hx Hrun Hsorted) as [Hs Hb].
    cbn [foldl].
    destruct (IH (insert_pivot comparefn run x)) as [Hs' Hb']; [| |done|].
    + intros y Hy. rewrite insert_pivot_Permutation in Hy.
      apply elem_of_cons in Hy as [->|Hy]; [done|by apply Hrun].
    + intros y Hy. apply Hrest. by right.
    + split; [done|]. intros d.
      rewrite Hb', filter_app, Hb, <- filter_app.
      by rewrite <- app_assoc.
Qed.

(** The run that starts an array, when it does not descend. *)
Lemma run_ascending previous rest :
  previous :: rest ⊆ l0 →
  ascends (take (S (run_length comparefn false previous rest))
                (previous :: rest))
  ∧ ∀ x, x ∈ take (S (run_length comparefn false previous rest))
               (previous :: rest) → w previous <= w x.
Proof.
  revert previous. induction rest as [|current rest IH]; intros previous Hin.
  - simpl. split; [repeat constructor|].
    intros x ->%list_elem_of_singleton. lia.
  - cbn [run_length]. rewrite less by (apply Hin, list_elem_of_In; simpl; tauto).
    case_bool_decide as Hc; cbn [Bool.eqb].
    + split; [repeat constructor|].
      cbn [take]. intros x ->%list_elem_of_singleton. lia.
    + destruct (IH current) as [Hs Hall].
      { intros y Hy. apply Hin. by right. }
      change (take (S (S ?n)) (previous :: ?t))
        with (previous :: take (S n) t).
      split.
      * constructor; [done|]. apply Forall_forall. intros x Hx.
        specialize (Hall x Hx). lia.
      * intros x [->|Hx]%elem_of_cons; [lia|].
        specialize (Hall x Hx). lia.
Qed.

(** The run that starts an array, when it descends. *)
Lemma run_descending previous rest :
  previous :: rest ⊆ l0 →
  StronglySorted (fun a b => w b < w a)
    (take (S (run_length comparefn true previous rest)) (previous :: rest))
  ∧ ∀ x, x ∈ take (S (run_length comparefn true previous rest))
               (previous :: rest) → w x <= w previous.
Proof.
  revert previous. induction rest as [|current rest IH]; intros previous Hin.
  - simpl. split; [repeat constructor|].
    intros x ->%list_elem_of_singleton. lia.
  - cbn [run_length]. rewrite less by (apply Hin, list_elem_of_In; simpl; tauto).
    case_bool_decide as Hc; cbn [Bool.eqb].
    + destruct (IH current) as [Hs Hall].
      { intros y Hy. apply Hin. by right. }
      change (take (S (S ?n)) (previous :: ?t))
        with (previous :: take (S n) t).
      split.
      * constructor; [done|]. apply Forall_forall. intros x Hx.
        specialize (Hall x Hx). lia.
      * intros x [->|Hx]%elem_of_cons; [lia|].
        specialize (Hall x Hx). lia.
    + split; [repeat constructor|].
      cbn [take]. intros x ->%list_elem_of_singleton. lia.
Qed.

Lemma count_and_make_run_stable l :
  l ⊆ l0 →
  ascends (count_and_make_run comparefn l).1
  ∧ ∀ d, block d ((count_and_make_run comparefn l).1
                  ++ (count_and_make_run comparefn l).2)
         = block d l.
Proof.
  intros Hin. destruct l as [|low [|high rest]].
  - simpl. split; [constructor|done].
  - simpl. split; [repeat constructor|done].
  - unfold count_and_make_run. cbv zeta.
    assert (Hrest : high :: rest ⊆ l0)
      by (intros y Hy; apply Hin; by right).
    rewrite less by (apply Hin, list_elem_of_In; simpl; tauto).
    set (l := low :: high :: rest).
    case_bool_decide as Hc; cbn [fst snd].
    + destruct (run_descending high rest Hrest) as [Hs Hall].
      set (n := run_length comparefn true high rest) in *.
      assert (Hd : StronglySorted (fun a b => w b < w a) (take (S (S n)) l)).
      { change (take (S (S n)) l) with (low :: take (S n) (high :: rest)).
        constructor; [done|]. apply Forall_forall. intros x Hx.
        specialize (Hall x Hx). lia. }
      destruct (descending_reverse w _ Hd) as [Hasc Hb].
      split; [done|]. intros d.
      by rewrite filter_app, Hb, <- filter_app, take_drop.
    + destruct (run_ascending high rest Hrest) as [Hs Hall].
      set (n := run_length comparefn false high rest) in *.
      split; [|intros d; by rewrite take_drop].
      change (take (S (S n)) l) with (low :: take (S n) (high :: rest)).
      constructor; [done|]. apply Forall_forall. intros x Hx.
      specialize (Hall x Hx). lia.
Qed.

Lemma binary_insertion_sort_stable l :
  l ⊆ l0 →
  ascends (binary_insertion_sort comparefn l)
  ∧ ∀ d, block d (binary_insertion_sort comparefn l) = block d l.
Proof.
  intros Hin. unfold binary_insertion_sort.
  destruct (count_and_make_run_stable l Hin) as [Hs Hb].
  pose proof (count_and_make_run_Permutation comparefn l) as Hp.
  destruct (count_and_make_run comparefn l) as [run rest].
  cbn [fst snd] in *.
  destruct (foldl_insert_pivot_stable run rest) as [Hs' Hb']; [| |done|].
  - intros y Hy. apply Hin. rewrite <- Hp. apply elem_of_app. by left.
  - intros y Hy. apply Hin. rewrite <- Hp. apply elem_of_app. by right.
  - split; [done|]. intros d. by rewrite Hb', Hb.
Qed.

End BinaryInsertionStable.

(** On a consistent comparison function, the binary insertion returns
    what the stable insertion returns. *)
Lemma binary_insertion_consistent {A} (comparefn : A → A → number) l :
  consistent comparefn l →
  binary_insertion_sort comparefn l = Array_sort comparefn l.
Proof.
  intros [w Hw].
  assert (less : ∀ x y, x ∈ l → y ∈ l →
            lt0 (comparefn x y) = bool_decide (w x < w y))
    by (intros x y Hx Hy; by destruct (Hw x y Hx Hy) as (_ & _ & ?)).
  assert (more : orders comparefn w l)
    by (intros x y Hx Hy; by destruct (Hw x y Hx Hy) as (_ & ? & _)).
  destruct (binary_insertion_sort_stable comparefn w l less l) as [Hs Hb];
    [done|].
  apply (sorted_blocks_eq w); [done|by apply Array_sort_sorted|].
  intros d. rewrite Hb. symmetry. apply Array_sort_stable.
  intros x y Hx Hy Hwx Hwy. rewrite more by done.
  apply bool_decide_eq_false_2. lia.
Qed.

(** The engine that sorts by binary insertion. *)
Definition binary_insertion_engine (L : Libm) : Engine := {|
  engine_libm := L;
  Array_prototype_sort := @binary_insertion_sort;
  sort_permutes := @binary_insertion_sort_Permutation;
  sort_consistent := @binary_insertion_consistent;
  sort_natural := @binary_insertion_sort_fmap;
|}.


(** ** What the function returns *)

(** The sum of the distances of a list of edges, when they are all finite
    numbers: an exact integer, in units of [2^-1074] kilometres. *)
Definition all_finite (es : list Edge) : bool :=
  forallb (fun e => finite (distance e)) es.

Definition exact_total (es : list Edge) : option Z :=
  if all_finite es then Some (total weight es) else None.

(** [mst] is a spanning tree of the candidates [cand] on the identifiers
    [V], with a total distance that no spanning tree undercuts. *)
Definition minimum_spanning_tree (V : list string) (cand mst : list Edge)
  : Prop :=
  spanning_tree V cand mst
  ∧ ∃ t, exact_total mst = Some t
       ∧ ∀ S, spanning_tree V cand S →
              ∃ s, exact_total S = Some s ∧ t <= s.

Lemma all_finite_spec es :
  all_finite es = true ↔ ∀ e, e ∈ es → finite (distance e) = true.
Proof.
  unfold all_finite. rewrite forallb_forall.
  by setoid_rewrite list_elem_of_In.
Qed.

Lemma all_finite_sub es es' :
  es' ⊆ es → all_finite es = true → all_finite es' = true.
Proof. rewrite !all_finite_spec. intros Hs H e He. by apply H, Hs. Qed.

Section Result.
Context (E : Engine).

(** With finite distances the sorted candidates are those of the stable
    sort, in ascending order. *)
Lemma sorted_finite nodes :
  all_finite (edges E nodes) = true →
  sorted_edges E nodes = Array_sort by_distance (edges E nodes).
Proof.
  intros Hfin. apply sort_consistent, by_distance_consistent.
  by apply all_finite_spec.
Qed.

Lemma sorted_ascending nodes :
  all_finite (edges E nodes) = true →
  ascending weight (sorted_edges E nodes).
Proof.
  intros Hfin. rewrite sorted_finite by done.
  apply Array_sort_sorted, by_distance_orders. by apply all_finite_spec.
Qed.

Lemma sorted_spans nodes :
  spans (id <$> nodes) (sorted_edges E nodes).
Proof.
  intros x y (a & -> & Ha)%list_elem_of_fmap (b & -> & Hb)%list_elem_of_fmap.
  destruct (decide (id a = id b)) as [->|Hne]; [done|].
  eapply connected_mono; [|by apply (edges_complete E nodes a b)].
  intros p (e & -> & He)%list_elem_of_fmap. apply list_elem_of_fmap.
  exists e. by rewrite sorted_Permutation.
Qed.

(** The function returns, and its result is a spanning tree of the
    candidate edges. *)
Lemma build_spec depth nodes :
  NoDup (id <$> nodes) → "__proto__" ∉ id <$> nodes →
  (length nodes ≤ depth)%nat →
  ∃ mst,
    buildMinimumSpanningTree E depth nodes = Some mst
    ∧ mst = greedy (sorted_edges E nodes)
    ∧ spanning_tree (id <$> nodes) (edges E nodes) mst.
Proof.
  intros HV Hproto Hd. eexists. split; [by apply build_greedy|].
  split; [done|]. split; [|split].
  - intros e He. rewrite <- (sorted_Permutation E).
    by eapply sublist_subseteq, He; apply greedy_sublist.
  - apply greedy_forest.
  - apply greedy_spans, sorted_spans.
Qed.

Lemma tree_length (nodes : list (Point number)) cand es :
  NoDup (id <$> nodes) → within (id <$> nodes) cand →
  spanning_tree (id <$> nodes) cand es →
  length es = (length nodes - 1)%nat.
Proof.
  intros HV Hcand (Hsub & HF & Hsp).
  assert (Hw : within (id <$> nodes) es)
    by (intros e He; by apply Hcand, Hsub).
  pose proof (forest_length _ es HV Hw HF) as Hlen.
  rewrite length_fmap in Hlen.
  destruct nodes as [|n nodes]; [simpl in *; lia|].
  assert (Hne : id <$> n :: nodes ≠ []) by (simpl; discriminate).
  rewrite (components_one _ _ Hne Hsp) in Hlen.
  simpl in *. lia.
Qed.

(** When the distances are finite numbers, the result is a minimum
    spanning tree. *)
Lemma build_minimum depth nodes :
  NoDup (id <$> nodes) → "__proto__" ∉ id <$> nodes →
  (length nodes ≤ depth)%nat →
  all_finite (edges E nodes) = true →
  ∃ mst,
    buildMinimumSpanningTree E depth nodes = Some mst
    ∧ minimum_spanning_tree (id <$> nodes) (edges E nodes) mst.
Proof.
  intros HV Hproto Hd Hfin.
  destruct (build_spec depth nodes HV Hproto Hd) as (mst & Hb & -> & Htree).
  eexists. split; [done|]. split; [done|].
  pose proof (edges_within E nodes) as Hcand.
  exists (total weight (greedy (sorted_edges E nodes))).
  split.
  { unfold exact_total.
    by rewrite (all_finite_sub _ _ (proj1 Htree) Hfin). }
  intros S HS. exists (total weight S). split.
  { unfold exact_total. by rewrite (all_finite_sub _ _ (proj1 HS) Hfin). }
  apply (greedy_minimal weight (id <$> nodes)); try done.
  - apply sorted_within.
  - by apply sorted_ascending.
  - intros e He. rewrite sorted_Permutation. by apply HS.
  - by apply HS.
  - rewrite (tree_length nodes _ _ HV Hcand HS).
    by rewrite (tree_length nodes _ _ HV Hcand Htree).
Qed.

End Result.

(** ** The run on a heap *)

(** *** The run, cell by cell *)

Lemma foldM_cons {A S : Type} (f : S → A → option S) x l s :
  foldM f (x :: l) s = s' ← f s x; foldM f l s'.
Proof.
  unfold foldM. simpl. destruct (f s x) as [s'|]; [done|].
  simpl. induction l as [|y l IH]; [done|]. apply IH.
Qed.

Lemma lookup_past (h0 cs : heap) (i : nat) :
  (h0 ++ cs) !! (length h0 + i)%nat = cs !! i.
Proof. by rewrite lookup_app_r, Nat.add_sub' by lia. Qed.

Lemma insert_past (h0 cs : heap) (i : nat) c :
  <[(length h0 + i)%nat := c]> (h0 ++ cs) = h0 ++ <[i := c]> cs.
Proof. by rewrite insert_app_r. Qed.

(** The function never makes a point: the cells it adds hold none. *)
Definition no_point (c : cell) : Prop :=
  match c with Cpoint _ => False | _ => True end.

Lemma point_at_past (h0 cs : heap) l :
  Forall no_point cs → point_at (h0 ++ cs) l = point_at h0 l.
Proof.
  intros Hcs. unfold point_at.
  destruct (decide (l < length h0)%nat) as [Hl|Hl].
  - by rewrite lookup_app_l.
  - rewrite lookup_app_r, (lookup_ge_None_2 h0) by lia.
    destruct (cs !! _) as [c|] eqn:Hc; [|done].
    apply (Forall_lookup_1 _ _ _ _ Hcs) in Hc. by destruct c.
Qed.

Section Cells.
Context (E : Engine) (h0 : heap).

(** What the loops push, read off the heap as it was. *)
Definition edge_at (i j : loc) : option HEdge :=
  a ← point_at h0 i;
  b ← point_at h0 j;
  Some {| hfrom := i; hto := j;
          hdistance := haversineDistance (M := ieee_math E) a b |}.

Fixpoint hedges (ls : list loc) : option (list HEdge) :=
  match ls with
  | [] => Some []
  | i :: rest =>
      row ← mapM (edge_at i) rest;
      others ← hedges rest;
      Some (row ++ others)
  end.

Definition lregister (own : gmap string jsval) (n : loc)
  : option (gmap string jsval) :=
  p ← point_at h0 n; put own (id p) (str (id p)).

Definition lvisit (depth : nat) (st : gmap string jsval * list HEdge)
    (edge : HEdge) : option (gmap string jsval * list HEdge) :=
  let '(own, mst) := st in
  a ← point_at h0 (hfrom edge);
  '(p1, rootA) ← find depth own (str (id a));
  b ← point_at h0 (hto edge);
  '(p2, rootB) ← find depth p1 (str (id b));
  if decide (rootA ≠ rootB) then
    p3 ← union depth p2 rootA rootB;
    Some (p3, mst ++ [edge])
  else Some (p2, mst).

Lemma add_edge_cells i j es :
  add_edge E (length h0) i j (h0 ++ [Cedges es])
  = e ← edge_at i j; Some (h0 ++ [Cedges (es ++ [e])]).
Proof.
  unfold add_edge, edge_at.
  rewrite !point_at_past by (by repeat constructor).
  destruct (point_at h0 i) as [a|]; [|done]. cbn [mbind option_bind].
  destruct (point_at h0 j) as [b|]; [|done]. cbn [mbind option_bind].
  unfold push, edges_at.
  rewrite <- (Nat.add_0_r (length h0)), lookup_past.
  cbn [lookup list_lookup mbind option_bind]. by rewrite insert_past.
Qed.

Lemma inner_loop_cells i rest es :
  foldM (fun h j => add_edge E (length h0) i j h) rest (h0 ++ [Cedges es])
  = row ← mapM (edge_at i) rest; Some (h0 ++ [Cedges (es ++ row)]).
Proof.
  revert es. induction rest as [|j rest IH]; intros es.
  - simpl. by rewrite app_nil_r.
  - rewrite foldM_cons, add_edge_cells. cbn [mapM].
    destruct (edge_at i j) as [e|]; [|done]. cbn [mbind option_bind].
    rewrite IH.
    destruct (mapM (edge_at i) rest) as [row|]; [|done].
    cbn [mbind option_bind fmap option_fmap option_map].
    by rewrite <- app_assoc.
Qed.

Lemma enumerate_cells ls es :
  enumerate E (length h0) ls (h0 ++ [Cedges es])
  = new ← hedges ls; Some (h0 ++ [Cedges (es ++ new)]).
Proof.
  revert es. induction ls as [|i rest IH]; intros es.
  - simpl. by rewrite app_nil_r.
  - cbn [enumerate hedges]. rewrite inner_loop_cells.
    destruct (mapM (edge_at i) rest) as [row|]; [|done].
    cbn [mbind option_bind]. rewrite IH.
    destruct (hedges rest) as [others|]; [|done].
    cbn [mbind option_bind]. by rewrite <- app_assoc.
Qed.

Lemma sort_cells es :
  sort_in_place E (length h0) (h0 ++ [Cedges es])
  = Some (h0 ++ [Cedges (Array_prototype_sort E hby_distance es)]).
Proof.
  unfold sort_in_place, edges_at.
  rewrite <- (Nat.add_0_r (length h0)), lookup_past.
  cbn [lookup list_lookup mbind option_bind]. by rewrite insert_past.
Qed.

Lemma register_cells es own n :
  register (length h0 + 1) (h0 ++ [Cedges es; Cparent own]) n
  = own' ← lregister own n; Some (h0 ++ [Cedges es; Cparent own']).
Proof.
  unfold register, lregister.
  rewrite point_at_past by (by repeat constructor).
  destruct (point_at h0 n) as [p|]; [|done]. cbn [mbind option_bind].
  unfold parent_at. rewrite lookup_past.
  cbn [lookup list_lookup mbind option_bind].
  destruct (put own (id p) (str (id p))) as [own'|]; [|done].
  cbn [mbind option_bind]. by rewrite insert_past.
Qed.

Lemma register_loop_cells es ls own :
  foldM (register (length h0 + 1)) ls (h0 ++ [Cedges es; Cparent own])
  = own' ← foldM lregister ls own; Some (h0 ++ [Cedges es; Cparent own']).
Proof.
  revert own. induction ls as [|n ls IH]; intros own; [done|].
  rewrite !foldM_cons, register_cells.
  destruct (lregister own n) as [own'|]; [|done]. apply IH.
Qed.

Lemma hfind_cells depth es own ms v :
  hfind depth (length h0 + 1) v (h0 ++ [Cedges es; Cparent own; Cedges ms])
  = '(own', r) ← find depth own v;
    Some (r, h0 ++ [Cedges es; Cparent own'; Cedges ms]).
Proof.
  unfold hfind, parent_at. rewrite lookup_past.
  cbn [lookup list_lookup mbind option_bind].
  destruct (find depth own v) as [[own' r]|]; [|done].
  cbn [mbind option_bind]. by rewrite insert_past.
Qed.

Lemma hunion_cells depth es own ms a b :
  hunion depth (length h0 + 1) a b (h0 ++ [Cedges es; Cparent own; Cedges ms])
  = own' ← union depth own a b;
    Some (h0 ++ [Cedges es; Cparent own'; Cedges ms]).
Proof.
  unfold hunion, parent_at. rewrite lookup_past.
  cbn [lookup list_lookup mbind option_bind].
  destruct (union depth own a b) as [own'|]; [|done].
  cbn [mbind option_bind]. by rewrite insert_past.
Qed.

Lemma push_cells es own ms e :
  push (length h0 + 2) e (h0 ++ [Cedges es; Cparent own; Cedges ms])
  = Some (h0 ++ [Cedges es; Cparent own; Cedges (ms ++ [e])]).
Proof.
  unfold push, edges_at. rewrite lookup_past.
  cbn [lookup list_lookup mbind option_bind]. by rewrite insert_past.
Qed.

Lemma hvisit_cells depth es own ms e :
  hvisit depth (length h0 + 1) (length h0 + 2)
    (h0 ++ [Cedges es; Cparent own; Cedges ms]) e
  = '(own', ms') ← lvisit depth (own, ms) e;
    Some (h0 ++ [Cedges es; Cparent own'; Cedges ms']).
Proof.
  unfold hvisit, lvisit.
  rewrite point_at_past by (by repeat constructor).
  destruct (point_at h0 (hfrom e)) as [a|]; [|done]. cbn [mbind option_bind].
  rewrite hfind_cells.
  destruct (find depth own (str (id a))) as [[p1 rootA]|]; [|done].
  cbn [mbind option_bind].
  rewrite point_at_past by (by repeat constructor).
  destruct (point_at h0 (hto e)) as [b|]; [|done]. cbn [mbind option_bind].
  rewrite hfind_cells.
  destruct (find depth p1 (str (id b))) as [[p2 rootB]|]; [|done].
  cbn [mbind option_bind].
  case_decide; [|done].
  rewrite push_cells. cbn [mbind option_bind]. rewrite hunion_cells.
  by destruct (union depth p2 rootA rootB).
Qed.

Lemma visit_loop_cells depth es own ms l :
  foldM (hvisit depth (length h0 + 1) (length h0 + 2)) l
    (h0 ++ [Cedges es; Cparent own; Cedges ms])
  = '(own', ms') ← foldM (lvisit depth) l (own, ms);
    Some (h0 ++ [Cedges es; Cparent own'; Cedges ms']).
Proof.
  revert own ms. induction l as [|e l IH]; intros own ms; [done|].
  rewrite !foldM_cons, hvisit_cells.
  destruct (lvisit depth (own, ms) e) as [[own' ms']|]; [|done]. apply IH.
Qed.

(** The whole run: three new cells after the heap it was given, and no
    other change. *)
Lemma build_cells depth nodes :
  hbuildMinimumSpanningTree E depth nodes h0
  = ls ← nodes_at h0 nodes;
    es ← hedges ls;
    own ← foldM lregister ls ∅;
    '(own', ms) ← foldM (lvisit depth)
                    (Array_prototype_sort E hby_distance es) (own, []);
    Some ((length h0 + 2)%nat,
          h0 ++ [Cedges (Array_prototype_sort E hby_distance es);
                 Cparent own'; Cedges ms]).
Proof.
  unfold hbuildMinimumSpanningTree, new.
  destruct (nodes_at h0 nodes) as [ls|]; [|done]. cbn [mbind option_bind].
  rewrite enumerate_cells.
  destruct (hedges ls) as [es|]; [|done]. cbn [mbind option_bind app].
  rewrite sort_cells. cbn [mbind option_bind].
  rewrite !length_app. cbn [length].
  rewrite <- !app_assoc. cbn [app].
  rewrite register_loop_cells.
  destruct (foldM lregister ls ∅) as [own|]; [|done]. cbn [mbind option_bind].
  rewrite <- !app_assoc. cbn [app].
  unfold edges_at. rewrite list_lookup_middle by done.
  cbn [mbind option_bind]. rewrite !length_app. cbn [length].
  rewrite visit_loop_cells.
  by destruct (foldM _ _ _) as [[own' ms]|].
Qed.

End Cells.

(** *** The heap run and the function on values *)

(** An edge object read as a value: its two references followed.  (An
    address that holds no point reads as [nowhere]; the lemmas below are
    about arrays of points, where that does not occur.) *)
Definition nowhere : Point number :=
  {| id := ""; localidad := ""; provincia := ""; poblacion := "";
     estado := ""; lat := zero; lng := zero |}.

Definition deref (h : heap) (l : loc) : Point number :=
  default nowhere (point_at h l).

Definition resolve (h : heap) (e : HEdge) : Edge :=
  {| from := deref h (hfrom e); to := deref h (hto e);
     distance := hdistance e |}.

Section Agreement.
Context (E : Engine) (h0 : heap).

Local Abbreviation points_at :=
  (Forall2 (fun (l : loc) (p : Point number) => point_at h0 l = Some p)).

Lemma deref_point l p : point_at h0 l = Some p → deref h0 l = p.
Proof. unfold deref. by intros ->. Qed.

Lemma edge_at_points i j a b :
  point_at h0 i = Some a → point_at h0 j = Some b →
  edge_at E h0 i j
  = Some {| hfrom := i; hto := j;
            hdistance := haversineDistance (M := ieee_math E) a b |}.
Proof. unfold edge_at. by intros -> ->. Qed.

Lemma row_resolve i a rest ps :
  point_at h0 i = Some a → points_at rest ps →
  ∃ row, mapM (edge_at E h0 i) rest = Some row
    ∧ resolve h0 <$> row
      = map (fun b => {| from := a; to := b;
              distance := haversineDistance (M := ieee_math E) a b |}) ps
    ∧ Forall (fun e => hfrom e = i ∧ hto e ∈ rest) row.
Proof.
  intros Ha. induction 1 as [|j b rest ps Hb _ (row & Hrow & Hres & Hin)].
  - by exists [].
  - exists ({| hfrom := i; hto := j;
              hdistance := haversineDistance (M := ieee_math E) a b |} :: row).
    split; [|split].
    + cbn [mapM]. rewrite (edge_at_points i j a b Ha Hb).
      cbn [mbind option_bind]. by rewrite Hrow.
    + cbn [fmap list_fmap map]. f_equal; [|done].
      unfold resolve. cbn [hfrom hto hdistance].
      by rewrite (deref_point _ _ Ha), (deref_point _ _ Hb).
    + constructor; [split; [done|by left]|].
      eapply Forall_impl; [done|]. intros e [? ?]. split; [done|by right].
Qed.

Lemma hedges_resolve ls pts :
  points_at ls pts →
  ∃ es, hedges E h0 ls = Some es
    ∧ resolve h0 <$> es = edges E pts
    ∧ Forall (fun e => hfrom e ∈ ls ∧ hto e ∈ ls) es.
Proof.
  induction 1 as [|i a rest ps Ha Hrest (es & Hes & Hres & Hin)].
  - by exists [].
  - destruct (row_resolve i a rest ps Ha Hrest) as (row & Hrow & Hr & Hi).
    exists (row ++ es). split; [|split].
    + cbn [hedges]. rewrite Hrow. cbn [mbind option_bind]. by rewrite Hes.
    + cbn [edges]. by rewrite fmap_app, Hr, Hres.
    + apply Forall_app. split.
      * eapply Forall_impl; [done|]. intros e [-> ?].
        split; [by left|by right].
      * eapply Forall_impl; [done|]. intros e [? ?]. split; by right.
Qed.

Lemma register_resolve ls pts (own : option (gmap string jsval)) :
  points_at ls pts →
  foldl (fun acc n => s ← acc; lregister h0 s n) own ls
  = foldl (fun acc n => parent ← acc; put parent (id n) (str (id n)))
      own pts.
Proof.
  intros H. revert own. induction H as [|i a rest ps Ha _ IH]; intros own.
  - done.
  - cbn [foldl]. rewrite <- IH. f_equal.
    destruct own as [s|]; [|done]. cbn [mbind option_bind].
    unfold lregister. by rewrite Ha.
Qed.

Definition resolved (st : gmap string jsval * list HEdge)
  : gmap string jsval * list Edge := (st.1, resolve h0 <$> st.2).

Definition points_of (e : HEdge) : Prop :=
  is_Some (point_at h0 (hfrom e)) ∧ is_Some (point_at h0 (hto e)).

Lemma lvisit_resolve depth own ms e :
  points_of e →
  resolved <$> lvisit h0 depth (own, ms) e
  = visit depth (own, resolve h0 <$> ms) (resolve h0 e).
Proof.
  intros [[a Ha] [b Hb]]. unfold lvisit, visit.
  change (from (resolve h0 e)) with (deref h0 (hfrom e)).
  change (to (resolve h0 e)) with (deref h0 (hto e)).
  rewrite (deref_point _ _ Ha), (deref_point _ _ Hb).
  rewrite Ha. cbn [mbind option_bind].
  destruct (find depth own (str (id a))) as [[p1 rootA]|]; [|done].
  cbn [mbind option_bind]. rewrite Hb. cbn [mbind option_bind].
  destruct (find depth p1 (str (id b))) as [[p2 rootB]|]; [|done].
  cbn [mbind option_bind].
  case_decide; [|done].
  destruct (union depth p2 rootA rootB) as [p3|]; [|done].
  cbn. unfold resolved. cbn. by rewrite fmap_app.
Qed.

Lemma lfor_of_resolve depth own ms l :
  Forall points_of l →
  resolved <$> foldM (lvisit h0 depth) l (own, ms)
  = for_of depth (own, resolve h0 <$> ms) (resolve h0 <$> l).
Proof.
  intros H. revert own ms. induction H as [|e l He _ IH]; intros own ms.
  - done.
  - rewrite foldM_cons. cbn [fmap list_fmap for_of].
    rewrite <- (lvisit_resolve _ _ _ _ He).
    destruct (lvisit h0 depth (own, ms) e) as [[own' ms']|]; [|done].
    cbn [mbind option_bind fmap option_fmap option_map resolved fst snd].
    apply IH.
Qed.

Lemma lfor_of_sub depth own ms l own' ms' :
  foldM (lvisit h0 depth) l (own, ms) = Some (own', ms') →
  ∀ e, e ∈ ms' → e ∈ ms ∨ e ∈ l.
Proof.
  revert own ms. induction l as [|x l IH]; intros own ms.
  - intros [= <- <-] e He. by left.
  - rewrite foldM_cons.
    destruct (lvisit h0 depth (own, ms) x) as [[own1 ms1]|] eqn:Hv; [|done].
    cbn [mbind option_bind]. intros Hl e He.
    destruct (IH _ _ Hl e He) as [H1|H1]; [|right; by right].
    unfold lvisit in Hv.
    destruct (point_at h0 (hfrom x)); [|done]. cbn [mbind option_bind] in Hv.
    destruct (find depth own _) as [[p1 rootA]|]; [|done].
    cbn [mbind option_bind] in Hv.
    destruct (point_at h0 (hto x)); [|done]. cbn [mbind option_bind] in Hv.
    destruct (find depth p1 _) as [[p2 rootB]|]; [|done].
    cbn [mbind option_bind] in Hv.
    case_decide.
    + destruct (union depth p2 rootA rootB); [|done].
      injection Hv as <- <-.
      apply elem_of_app in H1 as [?|Hx]; [by left|].
      apply list_elem_of_singleton in Hx. subst e. right; by left.
    + injection Hv as <- <-. by left.
Qed.

(** The heap run of an array of points is the function on the values of
    the points: it returns when the function does, and the edges of the
    new array, read as values, are the function's result. *)
Lemma build_resolve depth nodes ls pts :
  nodes_at h0 nodes = Some ls → points_at ls pts →
  match hbuildMinimumSpanningTree E depth nodes h0 with
  | Some (mst, h') =>
      ∃ es own ms,
        mst = (length h0 + 2)%nat
        ∧ h' = h0 ++ [Cedges es; Cparent own; Cedges ms]
        ∧ Forall (fun e => hfrom e ∈ ls ∧ hto e ∈ ls) ms
        ∧ buildMinimumSpanningTree E depth pts = Some (resolve h0 <$> ms)
  | None => buildMinimumSpanningTree E depth pts = None
  end.
Proof.
  intros Hnodes Hpts. rewrite build_cells, Hnodes. cbn [mbind option_bind].
  destruct (hedges_resolve ls pts Hpts) as (es & -> & Hres & Hin).
  cbn [mbind option_bind].
  unfold buildMinimumSpanningTree, init_parent, sorted_edges.
  rewrite <- (register_resolve ls pts (Some ∅) Hpts).
  change (foldl _ (Some ∅) ls) with (foldM (lregister h0) ls ∅).
  destruct (foldM (lregister h0) ls ∅) as [own|]; [|done].
  cbn [mbind option_bind].
  set (s := Array_prototype_sort E hby_distance es).
  assert (Hs : Forall (fun e => hfrom e ∈ ls ∧ hto e ∈ ls) s).
  { apply Forall_forall. intros e He.
    apply (Forall_forall (fun e => hfrom e ∈ ls ∧ hto e ∈ ls) es); [done|].
    revert He. unfold s. by rewrite sort_permutes. }
  assert (Hvalid : Forall points_of s).
  { eapply Forall_impl; [exact Hs|]. intros e [H1 H2].
    assert (∀ l, l ∈ ls → is_Some (point_at h0 l)) as Hl.
    { intros l Hl. apply list_elem_of_lookup in Hl as [k Hk].
      destruct (Forall2_lookup_l _ _ _ _ _ Hpts Hk) as (p & _ & Hp).
      by exists p. }
    split; by apply Hl. }
  assert (resolve h0 <$> s = Array_prototype_sort E by_distance (edges E pts))
    as <-.
  { rewrite <- Hres. unfold s.
    apply (sort_natural E _ _ (resolve h0) by_distance). }
  pose proof (lfor_of_resolve depth own [] s Hvalid) as Hrun.
  pose proof (lfor_of_sub depth own [] s) as Hsub.
  cbn [fmap list_fmap] in Hrun. rewrite <- Hrun.
  destruct (foldM (lvisit h0 depth) s (own, [])) as [[own' ms]|]; [|done].
  cbn [mbind option_bind].
  exists s, own', ms. split; [done|]. split; [done|]. split; [|done].
  apply Forall_forall. intros e He.
  destruct (Hsub own' ms eq_refl e He) as [[]%elem_of_nil|Hes].
  by apply (Forall_forall (fun e => hfrom e ∈ ls ∧ hto e ∈ ls) s).
Qed.

End Agreement.

(** ** Enumerating spanning trees *)

(** The sublists of [l] with [k] elements. *)
Fixpoint choose {A : Type} (k : nat) (l : list A) : list (list A) :=
  match k, l with
  | O, _ => [[]]
  | S _, [] => []
  | S k', x :: l' => map (cons x) (choose k' l') ++ choose k l'
  end.

Lemma choose_sublist {A : Type} (k : nat) (l S : list A) :
  S ∈ choose k l → S `sublist_of` l.
Proof.
  revert k S. induction l as [|x l IH]; intros [|k] S; simpl.
  - intros ->%list_elem_of_singleton. done.
  - by intros ?%elem_of_nil.
  - intros ->%list_elem_of_singleton. apply sublist_nil_l.
  - intros [(S' & -> & HS')%list_elem_of_fmap|HS]%elem_of_app.
    + apply sublist_skip. by eapply IH.
    + apply sublist_cons. by eapply IH.
Qed.

(** [forest], decided from the last edge backwards. *)
Fixpoint forest_rev (R : list (string * string)) : bool :=
  match R with
  | [] => true
  | (u, v) :: R' =>
      negb (bool_decide (connected (reverse R') u v)) && forest_rev R'
  end.

Lemma forest_rev_spec F : forest_rev (reverse F) = true ↔ forest F.
Proof.
  induction F as [|[u v] F IH] using rev_ind.
  - split; [intros _; apply forest_nil|done].
  - rewrite reverse_snoc, forest_snoc. simpl.
    rewrite reverse_involutive, andb_true_iff, negb_true_iff, IH.
    rewrite bool_decide_eq_false. tauto.
Qed.

#[export] Instance forest_dec F : Decision (forest F).
Proof.
  refine (cast_if (decide (forest_rev (reverse F) = true)));
    by rewrite <- forest_rev_spec.
Defined.

Lemma spans_Forall V es :
  Forall (fun x => Forall (fun y => connected (ends <$> es) x y) V) V
  ↔ spans V es.
Proof.
  unfold spans. rewrite Forall_forall. split.
  - intros H x y Hx Hy. specialize (H x Hx). rewrite Forall_forall in H.
    by apply H.
  - intros H x Hx. apply Forall_forall. intros y Hy. by apply H.
Qed.

#[export] Instance spans_dec V es : Decision (spans V es).
Proof.
  refine (cast_if (decide
    (Forall (fun x => Forall (fun y => connected (ends <$> es) x y) V) V)));
    by rewrite <- spans_Forall.
Defined.

(** The spanning trees on [V] made of edges of [cand], each in the order
    of [cand]. *)
Definition spanning_trees (V : list string) (cand : list Edge)
  : list (list Edge) :=
  filter (fun S => forest (ends <$> S) ∧ spans V S)
         (choose (length V - 1) cand).

Lemma spanning_trees_spec V cand S :
  S ∈ spanning_trees V cand → spanning_tree V cand S.
Proof.
  unfold spanning_trees. rewrite list_elem_of_filter.
  intros [[HF Hsp] Hin]. split; [|done].
  by eapply sublist_subseteq, choose_sublist.
Qed.

(** ** The distance in exact arithmetic

    The same function read over the real numbers, with the real sine,
    cosine, square root and two-argument arctangent. *)

Definition Ratan2 (y x : R) : R :=
  if Rlt_dec 0 x then atan (y / x)
  else if Rlt_dec x 0 then
    (if Rle_dec 0 y then atan (y / x) + Rtrigo1.PI
     else atan (y / x) - Rtrigo1.PI)
  else if Rlt_dec 0 y then Rtrigo1.PI / 2
  else if Rlt_dec y 0 then - Rtrigo1.PI / 2
  else 0.

(** [x ** y]; the program only squares. *)
Definition Rpow (x y : R) : R :=
  if Req_dec_T y 2 then (x * x)%R else Rpower x y.

#[export] Instance real_math : JsMath R := {|
  js_lit := IZR;
  js_add := Rplus;
  js_sub := Rminus;
  js_mul := Rmult;
  js_div := Rdiv;
  js_pow := Rpow;
  Math_PI := Rtrigo1.PI;
  Math_sqrt := R_sqrt.sqrt;
  Math_sin := sin;
  Math_cos := cos;
  Math_atan2 := Ratan2;
|}.

(** The haversine formula as the specification writes it. *)
Section Reference.
Context {N : Type} {M : JsMath N}.

Definition radians (x : N) : N :=
  js_mul x (js_div Math_PI (js_lit 180)).

Definition squared (x : N) : N := js_mul x x.

Definition haversine_reference (A B : Point N) : N :=
  let Δlat := radians (js_sub (lat B) (lat A)) in
  let Δlng := radians (js_sub (lng B) (lng A)) in
  let a :=
    js_add (squared (Math_sin (js_div Δlat (js_lit 2))))
           (js_mul (js_mul (Math_cos (radians (lat A)))
                           (Math_cos (radians (lat B))))
                   (squared (Math_sin (js_div Δlng (js_lit 2))))) in
  let c := js_mul (js_lit 2)
                  (Math_atan2 (Math_sqrt a)
                              (Math_sqrt (js_sub (js_lit 1) a))) in
  js_mul (js_lit 6371) c.
End Reference.

Lemma Rpow_2 x : Rpow x 2 = (x * x)%R.
Proof. unfold Rpow. by destruct (Req_dec_T 2 2). Qed.

Lemma toRad_radians (x : R) : toRad x = radians x.
Proof. unfold toRad, radians. simpl. field. Qed.


Lemma haversine_real_reference (a b : Point R) :
  haversineDistance a b = haversine_reference a b.
Proof.
  unfold haversineDistance, haversine_reference, R_km, squared.
  rewrite !toRad_radians. simpl. rewrite !Rpow_2.
  set (s1 := sin _). set (s2 := sin _). set (c1 := cos _). set (c2 := cos _).
  replace (s1 * s1 + s2 * s2 * c1 * c2)%R
    with (s1 * s1 + c1 * c2 * (s2 * s2))%R by ring.
  done.
Qed.

Lemma haversine_real_symmetric (a b : Point R) :
  haversineDistance a b = haversineDistance b a.
Proof.
  unfold haversineDistance, R_km. rewrite !toRad_radians. simpl.
  rewrite !Rpow_2. unfold radians. simpl.
  replace ((lat a - lat b) * (Rtrigo1.PI / 180) / 2)%R
    with (- ((lat b - lat a) * (Rtrigo1.PI / 180) / 2))%R by field.
  replace ((lng a - lng b) * (Rtrigo1.PI / 180) / 2)%R
    with (- ((lng b - lng a) * (Rtrigo1.PI / 180) / 2))%R by field.
  rewrite !sin_neg.
  set (s1 := sin _). set (s2 := sin _). set (c1 := cos _). set (c2 := cos _).
  replace (- s1 * - s1 + - s2 * - s2 * c2 * c1)%R
    with (s1 * s1 + s2 * s2 * c1 * c2)%R by ring.
  done.
Qed.


(** ** The distance in double arithmetic *)

Lemma sub_diag x : finite x = true → sub x x = zero.
Proof.
  destruct x as [[]| | |s m e]; try done. intros _.
  unfold sub, SFsub. by rewrite Z.sub_diag.
Qed.

(** A product of zero with two finite factors of the same sign is [+0]. *)
Lemma mul_zero_twice c : finite c = true → mul (mul zero c) c = zero.
Proof. destruct c as [[]| | |[] m e]; done. Qed.

Lemma binary_round_aux_lt0 m e l :
  lt0 (binary_round_aux prec emax false m e l) = false.
Proof.
  unfold binary_round_aux.
  destruct (shr_fexp prec emax m e l) as [mrs' e'].
  destruct (shr_fexp prec emax _ e' loc_Exact) as [mrs'' e''].
  destruct (shr_m mrs''); [done| |done]. by case_match.
Qed.

Lemma sqrt_lt0 v : lt0 (sqrt v) = false.
Proof.
  destruct v as [[]|[]| |[] m e]; try done.
  unfold sqrt, SFsqrt.
  destruct (SFsqrt_core_binary prec emax (Z.pos m) e) as [[mz ez] lz].
  apply binary_round_aux_lt0.
Qed.

(** Multiplying by a positive constant keeps a number from being
    negative. *)
Lemma mul_pos_lt0 c m e v :
  c = S754_finite false m e → lt0 v = false → lt0 (mul c v) = false.
Proof.
  intros -> Hv. destruct v as [[]|[]| |[] m' e']; try done.
  apply binary_round_aux_lt0.
Qed.

Lemma binary_round_aux_negative_zero m e l :
  binary_round_aux prec emax false m e l ≠ S754_zero true.
Proof.
  unfold binary_round_aux.
  destruct (shr_fexp prec emax m e l) as [mrs' e'].
  destruct (shr_fexp prec emax _ e' loc_Exact) as [mrs'' e''].
  destruct (shr_m mrs''); [done| |done]. by case_match.
Qed.

(** Only the square root of [-0] is [-0]. *)
Lemma sqrt_negative_zero v : sqrt v = S754_zero true → v = S754_zero true.
Proof.
  destruct v as [[]|[]| |[] m e]; try done.
  unfold sqrt, SFsqrt.
  destruct (SFsqrt_core_binary prec emax (Z.pos m) e) as [[mz ez] lz].
  intros H. by apply binary_round_aux_negative_zero in H.
Qed.

Lemma scaled_lt0 t :
  lt0 t = false → lt0 (mul (lit 6371) (mul (lit 2) t)) = false.
Proof.
  intros Ht.
  eapply mul_pos_lt0; [by vm_compute|].
  by eapply mul_pos_lt0; [by vm_compute|].
Qed.

Lemma one_root : sqrt (sub (lit 1) (S754_zero true)) = lit 1.
Proof. by vm_compute. Qed.

Section Distance.
Context (L : Libm).

Lemma haversine_unfold (a b : Point number) :
  haversineDistance (M := ieee_math L) a b
  = mul (lit 6371) (mul (lit 2)
      (libm_atan2 L (sqrt (aVal (M := ieee_math L) a b))
                    (sqrt (sub (lit 1) (aVal (M := ieee_math L) a b))))).
Proof. reflexivity. Qed.

(** Identical coordinates: the distance is [+0], on every libm that
    computes the cases ECMAScript fixes. *)
Lemma haversine_same (a b : Point number) :
  libm_sin L zero = zero →
  libm_pow L zero (lit 2) = zero →
  libm_atan2 L zero (lit 1) = zero →
  finite (lat a) = true → finite (lng a) = true →
  finite (libm_cos L (toRad (M := ieee_math L) (lat a))) = true →
  lat b = lat a → lng b = lng a →
  haversineDistance (M := ieee_math L) a b = zero.
Proof.
  intros Hsin Hpow Hatan Hlat Hlng Hcos Elat Elng.
  unfold haversineDistance. rewrite Elat, Elng.
  cbn [js_sub js_add js_mul js_div js_pow js_lit Math_sin Math_cos
       Math_atan2 Math_sqrt ieee_math].
  rewrite !sub_diag by done.
  change (toRad (M := ieee_math L) zero) with zero.
  change (div zero (lit 2)) with zero.
  rewrite Hsin, Hpow, mul_zero_twice by done.
  change (add zero zero) with zero.
  change (sqrt zero) with zero.
  change (sqrt (sub (lit 1) zero)) with (lit 1).
  rewrite Hatan. done.
Qed.

(** The distance is never a negative number: it is at least zero, or
    NaN, when the arctangent of the two square roots is not negative.
    The first root is [+0], positive, NaN, or [-0]; it is [-0] only when
    [aVal] is, and then the second root is 1. *)
Lemma haversine_not_negative (a b : Point number) :
  let y := sqrt (aVal (M := ieee_math L) a b) in
  let x := sqrt (sub (lit 1) (aVal (M := ieee_math L) a b)) in
  (y ≠ S754_zero true → lt0 (libm_atan2 L y x) = false) →
  lt0 (libm_atan2 L (S754_zero true) (lit 1)) = false →
  lt0 (haversineDistance (M := ieee_math L) a b) = false.
Proof.
  cbv zeta. intros Hatan Hzero. rewrite haversine_unfold.
  apply scaled_lt0.
  destruct (decide (sqrt (aVal (M := ieee_math L) a b) = S754_zero true))
    as [Hy|Hy]; [|by apply Hatan].
  rewrite Hy. apply sqrt_negative_zero in Hy. rewrite Hy, one_root.
  exact Hzero.
Qed.

(** In particular on every libm whose arctangent is not negative when
    its first argument is [+0], positive or NaN, and is [-0] at
    [(-0, 1)]: the cases of ECMAScript. *)
Lemma haversine_not_negative_conforming (a b : Point number) :
  (∀ y x, lt0 y = false → y ≠ S754_zero true →
          lt0 (libm_atan2 L y x) = false) →
  libm_atan2 L (S754_zero true) (lit 1) = S754_zero true →
  lt0 (haversineDistance (M := ieee_math L) a b) = false.
Proof.
  intros Hatan Hzero. apply haversine_not_negative; cbv zeta.
  - intros Hy. apply Hatan; [apply sqrt_lt0|done].
  - by rewrite Hzero.
Qed.

End Distance.

(** ** Exchanging the two points in double arithmetic *)

Lemma mul_opp_l x c : mul (SFopp x) c = SFopp (mul x c).
Proof.
  destruct x as [[]|[]| |sx mx ex], c as [[]|[]| |sc mc ec]; try done;
    try (simpl; by destruct sx); try (simpl; by destruct sc).
  unfold mul, SFmul, SFopp.
  replace (xorb (negb sx) sc) with (negb (xorb sx sc)) by by destruct sx, sc.
  apply binary_round_aux_negb.
Qed.

Lemma div_opp_l x c : div (SFopp x) c = SFopp (div x c).
Proof.
  destruct x as [[]|[]| |sx mx ex], c as [[]|[]| |sc mc ec]; try done;
    try (simpl; by destruct sx); try (simpl; by destruct sc).
  unfold div, SFdiv, SFopp.
  destruct (SFdiv_core_binary prec emax _ ex _ ec) as [[mz ez] lz].
  replace (xorb (negb sx) sc) with (negb (xorb sx sc)) by by destruct sx, sc.
  apply binary_round_aux_negb.
Qed.

Section Swap.
Context (L : Libm).
Hypothesis sin_odd : ∀ x, libm_sin L (SFopp x) = SFopp (libm_sin L x).
Hypothesis square_even :
  ∀ x, libm_pow L (SFopp x) (lit 2) = libm_pow L x (lit 2).

(** The squared sine of half a difference does not depend on the order
    of the terms. *)
Lemma half_sine_swap x y :
  libm_pow L (libm_sin L (div (toRad (M := ieee_math L) (sub y x)) (lit 2)))
           (lit 2)
  = libm_pow L (libm_sin L (div (toRad (M := ieee_math L) (sub x y))
                                (lit 2)))
             (lit 2).
Proof.
  destruct (sub_swap x y) as [->|[-> ->]]; [|done].
  unfold toRad. cbn [js_div js_mul js_lit Math_PI ieee_math].
  by rewrite mul_opp_l, !div_opp_l, sin_odd, square_even.
Qed.

(** Exchanging the points exchanges the two cosines in the product, and
    nothing else. *)
Lemma haversine_swap (a b : Point number) :
  libm_cos L (toRad (M := ieee_math L) (lat a))
  = libm_cos L (toRad (M := ieee_math L) (lat b)) →
  haversineDistance (M := ieee_math L) a b
  = haversineDistance (M := ieee_math L) b a.
Proof.
  intros Hcos. unfold haversineDistance.
  cbn [js_sub js_add js_mul js_div js_pow js_lit Math_sin Math_cos
       Math_atan2 Math_sqrt ieee_math].
  by rewrite (half_sine_swap (lat a) (lat b)),
    (half_sine_swap (lng a) (lng b)), Hcos.
Qed.

End Swap.

(** ** A reference libm for the examples

    The values of [Math.sin], [Math.cos] and [Math.atan2] at the arguments
    that the examples below reach.  They are the correctly rounded values
    of the real functions, which is what glibc and fdlibm return at these
    arguments.  The cases that ECMAScript fixes are computed; at any other
    argument the functions return NaN. *)

Definition sin_values : list (number * number) :=
  [
    (S754_finite false 5030569068109113 (-59),
     S754_finite false 5030505218395169 (-59));
    (S754_finite false 7545853602163669 (-58),
     S754_finite false 7544991657282192 (-58));
    (S754_finite false 7545853602163670 (-58),
     S754_finite false 7544991657282193 (-58));
    (S754_finite false 7545853602163669 (-56),
     S754_finite false 7532069571549035 (-56));
    (S754_finite false 7545853602163669 (-55),
     S754_finite false 7490808106342645 (-55));
    (S754_finite false 7074237752028440 (-53),
     S754_finite false 6369051672525772 (-53));
    (S754_finite false 7074237752028440 (-52),
     S754_finite false 4503599627370496 (-52))
  ].

Definition cos_values : list (number * number) :=
  [
    (S754_finite false 5030569068109113 (-58),
     S754_finite false 9005827414667146 (-53));
    (S754_finite false 5030569068109113 (-56),
     S754_finite false 8985258170056694 (-53));
    (S754_finite false 6288211335136391 (-56),
     S754_finite false 8972924142228898 (-53));
    (S754_finite false 7545853602163669 (-55),
     S754_finite false 8810370340356224 (-53))
  ].

Definition atan2_values : list ((number * number) * number) :=
  [
    ((S754_finite false 5029739048084608 (-59),
      S754_finite false 9006856392657938 (-53)),
     S754_finite false 5029802868628467 (-59));
    ((S754_finite false 5030505218395169 (-59),
      S754_finite false 9006856288192973 (-53)),
     S754_finite false 5030569068109113 (-59));
    ((S754_finite false 7103116152256944 (-59),
      S754_finite false 9006515446068075 (-53)),
     S754_finite false 7103295909204538 (-59));
    ((S754_finite false 7103116152256945 (-59),
      S754_finite false 9006515446068075 (-53)),
     S754_finite false 7103295909204539 (-59));
    ((S754_finite false 7113937818174727 (-59),
      S754_finite false 9006513360823294 (-53)),
     S754_finite false 7114118397996601 (-59));
    ((S754_finite false 7952655188933272 (-58),
      S754_finite false 9003770098591164 (-53)),
     S754_finite false 7953664568553092 (-58));
    ((S754_finite false 7952655188933273 (-58),
      S754_finite false 9003770098591164 (-53)),
     S754_finite false 7953664568553093 (-58));
    ((S754_finite false 7532069571549035 (-56),
      S754_finite false 8957856874784711 (-53)),
     S754_finite false 7545853602163668 (-56));
    ((S754_finite false 7490808106342645 (-55),
      S754_finite false 8810370340356224 (-53)),
     S754_finite false 7545853602163668 (-55));
    ((S754_finite false 6229872612430716 (-53),
      S754_finite false 6505253695859399 (-53)),
     S754_finite false 6879498749397151 (-53));
    ((S754_finite false 6369051672525772 (-53),
      S754_finite false 6369051672525773 (-53)),
     S754_finite false 7074237752028440 (-53));
    ((S754_finite false 6505253695859398 (-53),
      S754_finite false 6229872612430717 (-53)),
     S754_finite false 7268976754659728 (-53));
    ((S754_finite false 8810370340356224 (-53),
      S754_finite false 7490808106342633 (-55)),
     S754_finite false 6131006051757983 (-52))
  ].

Fixpoint assoc {K : Type} `{EqDecision K} (t : list (K * number)) (k : K)
  : number :=
  match t with
  | [] => S754_nan
  | (k', v) :: t' => if decide (k' = k) then v else assoc t' k
  end.

(** [Math.sin]: odd, and [sin(±0) = ±0]. *)
Definition sin_ref (x : number) : number :=
  match x with
  | S754_zero _ => x
  | S754_finite s m e =>
      let v := assoc sin_values (S754_finite false m e) in
      if s then SFopp v else v
  | _ => S754_nan
  end.

(** [Math.cos]: even, and [cos(±0) = 1]. *)
Definition cos_ref (x : number) : number :=
  match x with
  | S754_zero _ => lit 1
  | S754_finite _ m e => assoc cos_values (S754_finite false m e)
  | _ => S754_nan
  end.

(** [Math.atan2]: NaN when an argument is, and [atan2(±0, x) = ±0] for
    positive [x]. *)
Definition atan2_ref (y x : number) : number :=
  match y, x with
  | S754_nan, _ | _, S754_nan => S754_nan
  | S754_zero s, S754_finite false _ _ => S754_zero s
  | _, _ => assoc atan2_values (y, x)
  end.

(** [x ** 2] is the rounded square. *)
Definition pow_ref (x y : number) : number :=
  if decide (y = lit 2) then mul x x else S754_nan.

Definition libm_ref : Libm := {|
  libm_sin := sin_ref;
  libm_cos := cos_ref;
  libm_atan2 := atan2_ref;
  libm_pow := pow_ref;
|}.

(** The reference libm with the stable insertion sort, and with the
    binary insertion sort. *)
Definition engine_ref : Engine := stable_engine libm_ref.
Definition engine_v8 : Engine := binary_insertion_engine libm_ref.

(** A point with the given identifier and coordinates in whole degrees. *)
Definition point (name : string) (la lo : Z) : Point number :=
  {| id := name; localidad := ""; provincia := ""; poblacion := "";
     estado := ""; lat := lit la; lng := lit lo |}.

(** ** Facts about the reference libm *)

Lemma assoc_lt0 {K : Type} `{EqDecision K} (t : list (K * number)) k :
  Forall (fun kv => lt0 kv.2 = false) t → lt0 (assoc t k) = false.
Proof.
  induction 1 as [|[k' v] t Hv _ IH]; simpl; [done|]. by case_decide.
Qed.

Lemma sin_ref_odd x : sin_ref (SFopp x) = SFopp (sin_ref x).
Proof.
  destruct x as [s|s| |s m e]; try done.
  destruct s; [|done]. unfold sin_ref. cbn [SFopp negb].
  generalize (assoc sin_values (S754_finite false m e)).
  by intros [[]|[]| |[] ? ?].
Qed.

Lemma pow_ref_even x : pow_ref (SFopp x) (lit 2) = pow_ref x (lit 2).
Proof.
  unfold pow_ref. rewrite decide_True by done.
  destruct x as [[]|[]| |[] m e]; done.
Qed.

(** ** The square of the specification *)

Definition sqA : Point number := point "A" 0 0.
Definition sqB : Point number := point "B" 0 1.
Definition sqC : Point number := point "C" 1 1.
Definition sqD : Point number := point "D" 1 0.

Definition square : list (Point number) := [sqA; sqB; sqC; sqD].

Definition edge (a b : Point number) (d : number) : Edge :=
  {| from := a; to := b; distance := d |}.

(** The two diagonals of the square. *)
Definition diagonal (e : Edge) : bool :=
  bool_decide (ends e = ("A", "C") ∨ ends e = ("B", "D")).

(** When the comparison function puts the sides before the diagonals, the
    selection keeps the first three edges of the sorted list, and they are
    sides. *)
Lemma square_select (cmp : Edge → Edge → number)
    (dAB dAC dAD dBC dBD dCD : number) :
  let AB := edge sqA sqB dAB in let AC := edge sqA sqC dAC in
  let AD := edge sqA sqD dAD in let BC := edge sqB sqC dBC in
  let BD := edge sqB sqD dBD in let CD := edge sqC sqD dCD in
  gt0 (cmp AB AC) = false → gt0 (cmp AB BD) = false →
  gt0 (cmp AC AD) = true → gt0 (cmp AC BC) = true →
  gt0 (cmp AC CD) = true → gt0 (cmp AD BD) = false →
  gt0 (cmp BC BD) = false → gt0 (cmp BD CD) = true →
  let sorted := Array_sort cmp [AB; AC; AD; BC; BD; CD] in
  greedy sorted = take 3 sorted
  ∧ forallb (fun e => negb (diagonal e)) (greedy sorted) = true.
Proof.
  intros AB AC AD BC BD CD H1 H2 H3 H4 H5 H6 H7 H8 sorted.
  subst sorted. unfold Array_sort. cbn [foldr insert_sorted].
  repeat (rewrite ?H1, ?H2, ?H3, ?H4, ?H5, ?H6, ?H7, ?H8;
          cbn [insert_sorted];
          try match goal with
              | |- context [gt0 (cmp ?x ?y)] =>
                  destruct (gt0 (cmp x y)) eqn:?
              end);
    split; by vm_compute.
Qed.

(** ** The square, with its distances *)

Definition dist (L : Libm) (a b : Point number) : number :=
  haversineDistance (M := ieee_math L) a b.

Definition sides (L : Libm) : list number :=
  [dist L sqA sqB; dist L sqA sqD; dist L sqB sqC; dist L sqC sqD].

Definition diagonals (L : Libm) : list number :=
  [dist L sqA sqC; dist L sqB sqD].

(** Every side is shorter than every diagonal. *)
Definition sides_shorter (L : Libm) : bool :=
  forallb (fun s => forallb (fun d => ulps s <? ulps d) (diagonals L))
          (sides L).

Lemma sides_shorter_spec L s d :
  sides_shorter L = true → In s (sides L) → In d (diagonals L) →
  ulps s < ulps d.
Proof.
  unfold sides_shorter. rewrite forallb_forall. intros H Hs Hd.
  specialize (H s Hs). rewrite forallb_forall in H.
  by apply Z.ltb_lt, H.
Qed.

Lemma edges_square L :
  edges L square
  = [edge sqA sqB (dist L sqA sqB); edge sqA sqC (dist L sqA sqC);
     edge sqA sqD (dist L sqA sqD); edge sqB sqC (dist L sqB sqC);
     edge sqB sqD (dist L sqB sqD); edge sqC sqD (dist L sqC sqD)].
Proof. done. Qed.

Lemma spanning_trees_square (dAB dAC dAD dBC dBD dCD : number) :
  length (spanning_trees (id <$> square)
            [edge sqA sqB dAB; edge sqA sqC dAC; edge sqA sqD dAD;
             edge sqB sqC dBC; edge sqB sqD dBD; edge sqC sqD dCD])
  = 16%nat.
Proof. by vm_compute. Qed.

(** On the square, when the distances are finite and the sides are shorter
    than the diagonals, the selection keeps the three shortest candidate
    edges, and no diagonal. *)
Lemma square_result L :
  all_finite (edges L square) = true → sides_shorter L = true →
  greedy (Array_sort by_distance (edges L square))
  = take 3 (Array_sort by_distance (edges L square))
  ∧ forallb (fun e => negb (diagonal e))
            (greedy (Array_sort by_distance (edges L square))) = true.
Proof.
  intros Hfin Hsh. rewrite edges_square in *.
  assert (Hf : ∀ e, In e [edge sqA sqB (dist L sqA sqB);
      edge sqA sqC (dist L sqA sqC); edge sqA sqD (dist L sqA sqD);
      edge sqB sqC (dist L sqB sqC); edge sqB sqD (dist L sqB sqD);
      edge sqC sqD (dist L sqC sqD)] → finite (distance e) = true).
  { intros e He. apply (proj1 (all_finite_spec _) Hfin).
    by apply list_elem_of_In. }
  pose proof (fun a b => Hf (edge a b (dist L a b))) as Hfd.
  cbn [distance edge] in Hfd.
  pose proof (fun s d => sides_shorter_spec L s d Hsh) as Hlt.
  unfold sides, diagonals in Hlt.
  apply square_select; unfold by_distance, edge; cbn [distance];
    rewrite sub_gt0 by (apply Hfd; cbn [In]; tauto);
    (apply bool_decide_eq_false_2 || apply bool_decide_eq_true_2);
    match goal with
    | |- ¬ (ulps ?d < ulps ?s) =>
        specialize (Hlt s d ltac:(cbn [In]; tauto) ltac:(cbn [In]; tauto)); lia
    | |- ulps ?s < ulps ?d =>
        apply Hlt; cbn [In]; tauto
    end.
Qed.

(** The edges returned on the square with the reference libm: a short
    side at latitude one, then the two sides from [A]. *)
Definition square_tree : list Edge :=
  [edge sqC sqD (S754_finite false 7823455584968741 (-46));
   edge sqA sqB (S754_finite false 7824647346905068 (-46));
   edge sqA sqD (S754_finite false 7824647346905068 (-46))].

(** Three points of the square, two of them under one identifier. *)
Definition shared : list (Point number) :=
  [point "A" 0 0; point "A" 0 1; point "B" 1 1].

(** ** Points near antipodes *)

(** Latitude within [-90, 90] and longitude within [-180, 180]. *)
Definition valid_coordinates (p : Point number) : bool :=
  SFleb (lit (-90)) (lat p) && SFleb (lat p) (lit 90)
  && SFleb (lit (-180)) (lng p) && SFleb (lng p) (lit 180).

Definition ptP : Point number := point "P" (-12) (-180).
Definition ptQ : Point number := point "Q" 12 0.
Definition ptX : Point number := point "X" 12 (-180).

Definition triangle : list (Point number) := [ptP; ptQ; ptX].

Definition ptA5 : Point number := point "a" (-5) (-5).
Definition ptB4 : Point number := point "b" (-4) (-4).

Lemma triangle_NoDup : NoDup (id <$> triangle).
Proof. by apply (bool_decide_unpack _). Qed.

(** ** The two examples on any libm with these values

    The examples do not depend on the reference libm beyond the few
    values that they read. *)

Section AnyLibm.
Context (L : Libm).
Hypothesis square_rounded : ∀ x, libm_pow L x (lit 2) = mul x x.

(** Antipodal points at latitudes -12 and 12: [aVal] is
    [sin(12°)^2 + cos(12°)^2] rounded, the double above 1. *)
Lemma antipodal_nan :
  libm_sin L (S754_finite false 7545853602163669 (-55))
  = S754_finite false 7490808106342645 (-55) →
  libm_sin L (S754_finite false 7074237752028440 (-52)) = lit 1 →
  libm_cos L (S754_finite true 7545853602163669 (-55))
  = S754_finite false 8810370340356224 (-53) →
  libm_cos L (S754_finite false 7545853602163669 (-55))
  = S754_finite false 8810370340356224 (-53) →
  (∀ y, libm_atan2 L y S754_nan = S754_nan) →
  haversineDistance (M := ieee_math L) ptP ptQ = S754_nan.
Proof.
  intros Hs1 Hs2 Hc1 Hc2 Hatan. unfold haversineDistance.
  cbn [js_sub js_add js_mul js_div js_pow js_lit Math_sin Math_cos
       Math_atan2 Math_sqrt ieee_math].
  change (div (toRad (M := ieee_math L) (sub (lat ptQ) (lat ptP))) (lit 2))
    with (S754_finite false 7545853602163669 (-55)).
  change (div (toRad (M := ieee_math L) (sub (lng ptQ) (lng ptP))) (lit 2))
    with (S754_finite false 7074237752028440 (-52)).
  change (toRad (M := ieee_math L) (lat ptP))
    with (S754_finite true 7545853602163669 (-55)).
  change (toRad (M := ieee_math L) (lat ptQ))
    with (S754_finite false 7545853602163669 (-55)).
  rewrite Hs1, Hs2, Hc1, Hc2, !square_rounded.
  match goal with
  | |- context [libm_atan2 L ?y ?x] => change x with S754_nan
  end.
  by rewrite Hatan.
Qed.

(** Points at latitudes -5 and -4: the two orders of the cosines give two
    values of [aVal], one bit apart. *)
Lemma exchange_differs :
  libm_sin L (S754_finite false 5030569068109113 (-59))
  = S754_finite false 5030505218395169 (-59) →
  libm_sin L (S754_finite true 5030569068109113 (-59))
  = S754_finite true 5030505218395169 (-59) →
  libm_cos L (S754_finite true 6288211335136391 (-56))
  = S754_finite false 8972924142228898 (-53) →
  libm_cos L (S754_finite true 5030569068109113 (-56))
  = S754_finite false 8985258170056694 (-53) →
  libm_atan2 L (S754_finite false 7103116152256944 (-59))
               (S754_finite false 9006515446068075 (-53))
  = S754_finite false 7103295909204538 (-59) →
  libm_atan2 L (S754_finite false 7103116152256945 (-59))
               (S754_finite false 9006515446068075 (-53))
  = S754_finite false 7103295909204539 (-59) →
  haversineDistance (M := ieee_math L) ptA5 ptB4
  = S754_finite false 5524303984074965 (-45)
  ∧ haversineDistance (M := ieee_math L) ptB4 ptA5
    = S754_finite false 5524303984074966 (-45).
Proof.
  intros Hs Hs' Hc5 Hc4 Ht Ht'. unfold haversineDistance.
  cbn [js_sub js_add js_mul js_div js_pow js_lit Math_sin Math_cos
       Math_atan2 Math_sqrt ieee_math].
  change (div (toRad (M := ieee_math L) (sub (lat ptB4) (lat ptA5))) (lit 2))
    with (S754_finite false 5030569068109113 (-59)).
  change (div (toRad (M := ieee_math L) (sub (lng ptB4) (lng ptA5))) (lit 2))
    with (S754_finite false 5030569068109113 (-59)).
  change (div (toRad (M := ieee_math L) (sub (lat ptA5) (lat ptB4))) (lit 2))
    with (S754_finite true 5030569068109113 (-59)).
  change (div (toRad (M := ieee_math L) (sub (lng ptA5) (lng ptB4))) (lit 2))
    with (S754_finite true 5030569068109113 (-59)).
  change (toRad (M := ieee_math L) (lat ptA5))
    with (S754_finite true 6288211335136391 (-56)).
  change (toRad (M := ieee_math L) (lat ptB4))
    with (S754_finite true 5030569068109113 (-56)).
  rewrite Hs, Hs', Hc5, Hc4, !square_rounded. split.
  - match goal with
    | |- context [libm_atan2 L ?y ?x] =>
        change y with (S754_finite false 7103116152256944 (-59));
        change x with (S754_finite false 9006515446068075 (-53))
    end.
    by rewrite Ht.
  - match goal with
    | |- context [libm_atan2 L ?y ?x] =>
        change y with (S754_finite false 7103116152256945 (-59));
        change x with (S754_finite false 9006515446068075 (-53))
    end.
    by rewrite Ht'.
Qed.

End AnyLibm.

(** ** Further examples *)

(** *** Points named after properties of [Object.prototype] *)

Definition ptProto : Point number := point "__proto__" 0 0.
Definition ptUndefined : Point number := point "undefined" 0 1.
Definition ptC : Point number := point "C" 1 1.

(** Three corners of the square under other identifiers. *)
Definition proto_points : list (Point number) := [ptProto; ptUndefined; ptC].

(** The one edge returned on them. *)
Definition proto_tree : list Edge :=
  [edge ptUndefined ptC (S754_finite false 7824647346905068 (-46))].

(** *** Five points, two of them antipodal *)



(** *** Two points on which the order of the operations shows *)

Definition ptO : Point number := point "O" 0 0.
Definition ptN : Point number := point "N" 1 3.

(** *** The square in a heap *)

(** The four points, and the array of their addresses. *)
Definition square_heap : heap :=
  [Cpoint sqA; Cpoint sqB; Cpoint sqC; Cpoint sqD; Cnodes [0; 1; 2; 3]%nat].

(** *** Union-find structures *)

(** A chain of three identifiers: [A] under [B] under [C]. *)
Definition chain : gmap string jsval :=
  {["A" := str "B"; "B" := str "C"; "C" := str "C"]}.

Definition chain_rank (k : string) : nat :=
  if decide (k = "A") then 0 else if decide (k = "B") then 1 else 2.

(** The object [parent] after [forEach] on the square. *)
Definition square_parent : gmap string jsval :=
  {["A" := str "A"; "B" := str "B"; "C" := str "C"; "D" := str "D"]}.

(** *** Towns *)

(** Four towns of two provinces, at the corners of the square. *)
Definition town (name province : string) (la lo : Z) : Point number :=
  {| id := name; localidad := ""; provincia := province; poblacion := "";
     estado := ""; lat := lit la; lng := lit lo |}.

Definition towns : list (Point number) :=
  [town "1" "Salta" 0 0; town "2" "Jujuy" 0 1; town "3" "Salta" 1 1;
   town "4" "Jujuy" 1 0].

(** ** A deeper stack changes nothing *)

Lemma find_deeper depth depth' parent v st :
  (depth ≤ depth')%nat → find depth parent v = Some st →
  find depth' parent v = Some st.
Proof.
  revert depth' parent v st.
  induction depth as [|d IH]; intros depth' parent v st Hd; [done|].
  destruct depth' as [|d']; [lia|]. cbn [find].
  case_decide; [|done].
  destruct (find d parent (get parent v)) as [st'|] eqn:Hrec; [|done].
  by rewrite (IH d' _ _ st' ltac:(lia) Hrec).
Qed.

Lemma union_deeper depth depth' parent a b parent' :
  (depth ≤ depth')%nat → union depth parent a b = Some parent' →
  union depth' parent a b = Some parent'.
Proof.
  intros Hd. unfold union.
  destruct (find depth parent a) as [[p1 ra]|] eqn:Ha; [|done].
  rewrite (find_deeper _ _ _ _ _ Hd Ha). cbn [mbind option_bind].
  destruct (find depth p1 b) as [[p2 rb]|] eqn:Hb; [|done].
  by rewrite (find_deeper _ _ _ _ _ Hd Hb).
Qed.

Lemma visit_deeper depth depth' st e st' :
  (depth ≤ depth')%nat → visit depth st e = Some st' →
  visit depth' st e = Some st'.
Proof.
  intros Hd. destruct st as [parent mst]. unfold visit.
  destruct (find depth parent _) as [[p1 ra]|] eqn:Ha; [|done].
  rewrite (find_deeper _ _ _ _ _ Hd Ha). cbn [mbind option_bind].
  destruct (find depth p1 _) as [[p2 rb]|] eqn:Hb; [|done].
  rewrite (find_deeper _ _ _ _ _ Hd Hb). cbn [mbind option_bind].
  case_decide; [|done].
  destruct (union depth p2 ra rb) as [p3|] eqn:Hu; [|done].
  by rewrite (union_deeper _ _ _ _ _ _ Hd Hu).
Qed.

Lemma for_of_deeper depth depth' st es st' :
  (depth ≤ depth')%nat → for_of depth st es = Some st' →
  for_of depth' st es = Some st'.
Proof.
  intros Hd. revert st. induction es as [|e es IH]; intros st; [done|].
  cbn [for_of].
  destruct (visit depth st e) as [st1|] eqn:Hv; [|done].
  rewrite (visit_deeper _ _ _ _ _ Hd Hv). cbn [mbind option_bind].
  apply IH.
Qed.

(** Once the function returns, it returns the same with any deeper
    stack. *)
Lemma build_deeper E depth depth' nodes mst :
  (depth ≤ depth')%nat →
  buildMinimumSpanningTree E depth nodes = Some mst →
  buildMinimumSpanningTree E depth' nodes = Some mst.
Proof.
  intros Hd. unfold buildMinimumSpanningTree.
  destruct (init_parent nodes) as [parent|]; [|done].
  cbn [mbind option_bind].
  destruct (for_of depth _ _) as [st|] eqn:Hf; [|done].
  by rewrite (for_of_deeper _ _ _ _ _ Hd Hf).
Qed.

Lemma proto_points_NoDup : NoDup (id <$> proto_points).
Proof. by apply (bool_decide_unpack _). Qed.

(** * The properties of the specification *)

Lemma square_NoDup : NoDup (id <$> square).
Proof. by apply (bool_decide_unpack _). Qed.

Lemma square_ordinary : "__proto__" ∉ id <$> square.
Proof. by apply (bool_decide_unpack _). Qed.

(** ** Minimum spanning tree *)

(** C1, as it holds: on points with pairwise distinct identifiers, none of
    them [__proto__], whose pairwise distances are all finite numbers, the
    function returns a spanning tree of the candidate edges whose exact
    total distance is the least among all spanning trees, whatever the
    engine.  On the square, when moreover every side is shorter than every
    diagonal, the result is the first three edges of the sorted
    candidates, none of them a diagonal, and its total is at most that of
    each of the sixteen spanning trees. *)
Theorem minimum_spanning (E : Engine) (depth : nat)
    (nodes : list (Point number)) :
  NoDup (id <$> nodes) → "__proto__" ∉ id <$> nodes →
  (length nodes ≤ depth)%nat →
  all_finite (edges E nodes) = true →
  ∃ mst,
    buildMinimumSpanningTree E depth nodes = Some mst
    ∧ minimum_spanning_tree (id <$> nodes) (edges E nodes) mst
    ∧ (nodes = square → sides_shorter E = true →
       mst = take 3 (sorted_edges E square)
       ∧ forallb (fun e => negb (diagonal e)) mst = true
       ∧ length (spanning_trees (id <$> square) (edges E square)) = 16%nat
       ∧ ∃ t, exact_total mst = Some t
           ∧ ∀ S, S ∈ spanning_trees (id <$> square) (edges E square) →
               ∃ s, exact_total S = Some s ∧ t <= s).
Proof.
  intros HV Hproto Hd Hfin.
  destruct (build_minimum E depth nodes HV Hproto Hd Hfin)
    as (mst & Hb & HM).
  exists mst. split; [done|]. split; [done|]. intros -> Hsh.
  rewrite (build_greedy E depth square HV Hproto Hd) in Hb.
  injection Hb as <-.
  rewrite (sorted_finite E square Hfin).
  destruct (square_result E Hfin Hsh) as [Htake Hside].
  split; [done|]. split; [done|]. split.
  { rewrite edges_square. apply spanning_trees_square. }
  destruct HM as (_ & t & Ht & Hmin).
  rewrite (sorted_finite E square Hfin) in Ht.
  exists t. split; [done|].
  intros S HS. by apply Hmin, spanning_trees_spec.
Qed.

Lemma minimum_spanning_witness :
  ∃ mst,
    buildMinimumSpanningTree engine_ref 4 square = Some mst
    ∧ minimum_spanning_tree (id <$> square) (edges engine_ref square) mst
    ∧ mst = take 3 (sorted_edges engine_ref square)
    ∧ forallb (fun e => negb (diagonal e)) mst = true
    ∧ length (spanning_trees (id <$> square) (edges engine_ref square))
      = 16%nat
    ∧ ∃ t, exact_total mst = Some t
        ∧ ∀ S, S ∈ spanning_trees (id <$> square) (edges engine_ref square) →
            ∃ s, exact_total S = Some s ∧ t <= s.
Proof.
  destruct (minimum_spanning engine_ref 4 square)
    as (mst & Hb & HM & Hsq);
    [apply square_NoDup|apply square_ordinary|simpl; lia|by vm_compute|].
  exists mst. split; [done|]. split; [done|].
  apply Hsq; [done|by vm_compute].
Defined.

(** C1, as stated, fails on valid coordinates.  The first two of the three
    points of [triangle] are antipodal, and the distance computed between
    them is NaN.  The function returns a tree that contains this edge, on
    either engine, so that its total distance is not a number, while the
    other two edges form a spanning tree with a finite total.  It also
    fails on distinct identifiers when one of them is [__proto__]: on
    [proto_points], whose distances are finite, the function returns one
    edge, which does not reach the point [__proto__]. *)
Lemma minimum_spanning_counterexample :
  (NoDup (id <$> triangle)
   ∧ forallb valid_coordinates triangle = true
   ∧ buildMinimumSpanningTree engine_ref 3 triangle
     = Some [edge ptP ptQ S754_nan;
             edge ptP ptX (S754_finite false 5868485510178800 (-41))]
   ∧ buildMinimumSpanningTree engine_v8 3 triangle
     = Some [edge ptP ptQ S754_nan;
             edge ptP ptX (S754_finite false 5868485510178800 (-41))]
   ∧ ¬ minimum_spanning_tree (id <$> triangle) (edges engine_ref triangle)
         [edge ptP ptQ S754_nan;
          edge ptP ptX (S754_finite false 5868485510178800 (-41))]
   ∧ spanning_tree (id <$> triangle) (edges engine_ref triangle)
       [edge ptP ptX (S754_finite false 5868485510178800 (-41));
        edge ptQ ptX (S754_finite false 4768144477020277 (-38))]
   ∧ is_Some (exact_total
       [edge ptP ptX (S754_finite false 5868485510178800 (-41));
        edge ptQ ptX (S754_finite false 4768144477020277 (-38))]))
  ∧ (NoDup (id <$> proto_points)
     ∧ forallb valid_coordinates proto_points = true
     ∧ all_finite (edges engine_ref proto_points) = true
     ∧ buildMinimumSpanningTree engine_ref 4 proto_points = Some proto_tree
     ∧ buildMinimumSpanningTree engine_v8 4 proto_points = Some proto_tree
     ∧ ¬ minimum_spanning_tree (id <$> proto_points)
           (edges engine_ref proto_points) proto_tree).
Proof.
  split.
  - split; [apply triangle_NoDup|]. split; [by vm_compute|].
    split; [by vm_compute|]. split; [by vm_compute|]. split; [|split].
    + intros (_ & t & Ht & _). by vm_compute in Ht.
    + assert (edges engine_ref triangle
              = [edge ptP ptQ S754_nan;
                 edge ptP ptX (S754_finite false 5868485510178800 (-41));
                 edge ptQ ptX (S754_finite false 4768144477020277 (-38))])
        as -> by (by vm_compute).
      split; [|split].
      * intros e He. by right.
      * by apply (bool_decide_unpack _).
      * by apply (bool_decide_unpack _).
    + eexists. by vm_compute.
  - split; [apply proto_points_NoDup|]. split; [by vm_compute|].
    split; [by vm_compute|]. split; [by vm_compute|].
    split; [by vm_compute|].
    intros ((_ & _ & Hsp) & _).
    assert (Hno : bool_decide
              (connected (ends <$> proto_tree) "__proto__" "C") = false)
      by (by vm_compute).
    apply bool_decide_eq_false in Hno. apply Hno, Hsp.
    + by apply (bool_decide_unpack _).
    + by apply (bool_decide_unpack _).
Qed.

(** ** The number of edges *)

(** C2 fails on the code.  The three points of [proto_points] have
    pairwise distinct identifiers and finite distances; the loops
    enumerate their three candidate edges, and the function returns one
    edge on them, not two, however deep the stack and on either engine:
    [parent] is a plain object, the assignment [parent['__proto__'] = ...]
    stores nothing, and [find('__proto__')] walks through
    [Object.prototype] to the representative of the point [undefined]. *)
Theorem edge_count :
  NoDup (id <$> proto_points)
  ∧ length proto_points = 3%nat
  ∧ length (edges engine_ref proto_points) = 3%nat
  ∧ ∀ k,
      buildMinimumSpanningTree engine_ref (4 + k) proto_points
      = Some proto_tree
      ∧ buildMinimumSpanningTree engine_v8 (4 + k) proto_points
        = Some proto_tree
      ∧ length proto_tree = 1%nat.
Proof.
  split; [apply proto_points_NoDup|]. split; [done|]. split; [done|].
  intros k. split; [|split; [|done]].
  - apply (build_deeper engine_ref 4); [lia|by vm_compute].
  - apply (build_deeper engine_v8 4); [lia|by vm_compute].
Qed.

(** ** One component, no cycle *)

(** C3 fails on the code, at the same points and for the same reason: the
    one edge returned joins [undefined] and [C], and leaves the point
    [__proto__] in a component of its own. *)
Theorem spanning_acyclic :
  NoDup (id <$> proto_points)
  ∧ proto_points ≠ []
  ∧ ∀ k,
      buildMinimumSpanningTree engine_ref (4 + k) proto_points
      = Some proto_tree
      ∧ buildMinimumSpanningTree engine_v8 (4 + k) proto_points
        = Some proto_tree
      ∧ components (ends <$> proto_tree) (id <$> proto_points) = 2%nat
      ∧ ¬ connected (ends <$> proto_tree) (id ptProto) (id ptC)
      ∧ ¬ connected (ends <$> proto_tree) (id ptProto) (id ptUndefined).
Proof.
  split; [apply proto_points_NoDup|]. split; [done|].
  intros k. split; [|split; [|split; [|split]]].
  - apply (build_deeper engine_ref 4); [lia|by vm_compute].
  - apply (build_deeper engine_v8 4); [lia|by vm_compute].
  - by vm_compute.
  - apply (bool_decide_eq_false_1 _). by vm_compute.
  - apply (bool_decide_eq_false_1 _). by vm_compute.
Qed.

(** ** The formula *)

Lemma pow_ref_square x : pow_ref x (lit 2) = mul x x.
Proof. unfold pow_ref. by rewrite decide_True. Qed.

(** C4, as it holds: the function is the formula of the specification up
    to the order of three operations: it converts to radians by
    [(x * π) / 180] where the formula has [x * (π / 180)], it squares by
    [** 2], and it multiplies [sin² * cos * cos] from the left where the
    formula has [(cos * cos) * sin²].  In doubles the two are the same
    number when these operations round alike on the two points; in exact
    arithmetic they always are. *)
Theorem haversine_formula (L : Libm) (a b : Point number) :
  (∀ x, libm_pow L x (lit 2) = mul x x) →
  (∀ x, x ∈ [sub (lat b) (lat a); sub (lng b) (lng a); lat a; lat b] →
        toRad (M := ieee_math L) x = radians (M := ieee_math L) x) →
  (let s := libm_sin L (div (radians (M := ieee_math L)
                               (sub (lng b) (lng a))) (lit 2)) in
   let c1 := libm_cos L (radians (M := ieee_math L) (lat a)) in
   let c2 := libm_cos L (radians (M := ieee_math L) (lat b)) in
   mul (mul (mul s s) c1) c2 = mul (mul c1 c2) (mul s s)) →
  haversineDistance (M := ieee_math L) a b
  = haversine_reference (M := ieee_math L) a b
  ∧ ∀ a' b' : Point R, haversineDistance a' b' = haversine_reference a' b'.
Proof.
  intros Hpow Hrad Hmul. split; [|apply haversine_real_reference].
  unfold haversineDistance, haversine_reference, squared, R_km.
  rewrite !Hrad by (apply list_elem_of_In; simpl; tauto).
  cbn [js_sub js_add js_mul js_div js_pow js_lit Math_sin Math_cos
       Math_atan2 Math_sqrt ieee_math].
  cbv zeta in Hmul. by rewrite !Hpow, Hmul.
Qed.

Lemma haversine_formula_witness :
  haversineDistance (M := ieee_math libm_ref) sqA sqC
  = haversine_reference (M := ieee_math libm_ref) sqA sqC
  ∧ ∀ a' b' : Point R, haversineDistance a' b' = haversine_reference a' b'.
Proof.
  apply (haversine_formula libm_ref sqA sqC).
  - apply pow_ref_square.
  - intros x Hx. repeat (apply elem_of_cons in Hx as [->|Hx]);
      [by vm_compute..|by apply elem_of_nil in Hx].
  - by vm_compute.
Defined.

(** C4, as stated, fails in doubles: the two points below have valid
    coordinates, and the function and the formula return two numbers
    that differ in their last bit. *)
Lemma haversine_formula_counterexample :
  forallb valid_coordinates [ptO; ptN] = true
  ∧ haversineDistance (M := ieee_math libm_ref) ptO ptN
    = S754_finite false 6185644160919403 (-44)
  ∧ haversine_reference (M := ieee_math libm_ref) ptO ptN
    = S754_finite false 6185644160919404 (-44)
  ∧ haversineDistance (M := ieee_math libm_ref) ptO ptN
    ≠ haversine_reference (M := ieee_math libm_ref) ptO ptN.
Proof. repeat split; by vm_compute. Qed.

(** ** Symmetry *)

(** C5, as it holds: exchanging the two points exchanges the two cosine
    factors of a product that is evaluated from left to right, and nothing
    else.  On a libm with an odd sine and an even square, the two
    distances are the same double when the cosines of the two latitudes
    are equal, as for two points of the same latitude; and they are the
    same real number in exact arithmetic. *)
Theorem symmetry (L : Libm) (a b : Point number) :
  (∀ x, libm_sin L (SFopp x) = SFopp (libm_sin L x)) →
  (∀ x, libm_pow L (SFopp x) (lit 2) = libm_pow L x (lit 2)) →
  libm_cos L (toRad (M := ieee_math L) (lat a))
  = libm_cos L (toRad (M := ieee_math L) (lat b)) →
  haversineDistance (M := ieee_math L) a b
  = haversineDistance (M := ieee_math L) b a
  ∧ ∀ a' b' : Point R, haversineDistance a' b' = haversineDistance b' a'.
Proof.
  intros Hsin Hpow Hcos. split.
  - by apply haversine_swap.
  - apply haversine_real_symmetric.
Qed.

Lemma symmetry_witness :
  haversineDistance (M := ieee_math libm_ref) sqA sqB
  = haversineDistance (M := ieee_math libm_ref) sqB sqA
  ∧ ∀ a' b' : Point R, haversineDistance a' b' = haversineDistance b' a'.
Proof.
  apply (symmetry libm_ref sqA sqB);
    [apply sin_ref_odd|apply pow_ref_even|reflexivity].
Defined.

(** C5, as stated, fails: the two points below have valid coordinates, and
    the two distances between them differ in their last bit. *)
Lemma symmetry_counterexample :
  forallb valid_coordinates [ptA5; ptB4] = true
  ∧ haversineDistance (M := ieee_math libm_ref) ptA5 ptB4
    = S754_finite false 5524303984074965 (-45)
  ∧ haversineDistance (M := ieee_math libm_ref) ptB4 ptA5
    = S754_finite false 5524303984074966 (-45)
  ∧ haversineDistance (M := ieee_math libm_ref) ptA5 ptB4
    ≠ haversineDistance (M := ieee_math libm_ref) ptB4 ptA5.
Proof. repeat split; by vm_compute. Qed.

(** ** Zero distance *)

(** C6: two points with the same finite coordinates are at distance [+0],
    on every libm that computes the cases that ECMAScript fixes
    ([sin(+0)], [(+0) ** 2], [atan2(+0, 1)]) and whose cosine of the
    latitude is a finite number. *)
Theorem zero_distance (L : Libm) (a b : Point number) :
  libm_sin L zero = zero →
  libm_pow L zero (lit 2) = zero →
  libm_atan2 L zero (lit 1) = zero →
  finite (lat a) = true → finite (lng a) = true →
  finite (libm_cos L (toRad (M := ieee_math L) (lat a))) = true →
  lat b = lat a → lng b = lng a →
  haversineDistance (M := ieee_math L) a b = zero.
Proof. apply haversine_same. Qed.

Lemma zero_distance_witness :
  haversineDistance (M := ieee_math libm_ref) sqC (point "E" 1 1) = zero.
Proof. by apply (zero_distance libm_ref sqC (point "E" 1 1)). Defined.

(** ** Determinism *)





(** ** Sign of the distance *)




(** ** Termination *)

(** C9: the function returns on every list of points, whatever their
    identifiers, once the stack is deep enough for the candidate edges.
    In every state that the loop over the sorted edges reaches, the
    pointers of [parent] climb along a bounded rank, so that they form a
    forest, and [find] returns a representative on every value.  On
    points with pairwise distinct identifiers, none of them [__proto__],
    a stack as deep as there are points is enough, and the forest is made
    of the identifiers. *)
Theorem total_function (E : Engine) (depth : nat)
    (nodes : list (Point number)) :
  (length (edges E nodes) + 3 < depth)%nat →
  (∃ mst, buildMinimumSpanningTree E depth nodes = Some mst)
  ∧ (∀ pre post,
       sorted_edges E nodes = pre ++ post →
       ∃ parent0 parent mst rk,
         init_parent nodes = Some parent0
         ∧ for_of depth (parent0, []) pre = Some (parent, mst)
         ∧ climbs rk (3 + length mst) parent
         ∧ ∀ v, ∃ parent' r,
             find depth parent v = Some (parent', r) ∧ get parent' r = r)
  ∧ (NoDup (id <$> nodes) → "__proto__" ∉ id <$> nodes →
     ∀ depth', (length nodes ≤ depth')%nat →
       (∃ mst, buildMinimumSpanningTree E depth' nodes = Some mst)
       ∧ ∀ pre post,
           sorted_edges E nodes = pre ++ post →
           ∃ parent0 parent mst rk,
             init_parent nodes = Some parent0
             ∧ for_of depth' (parent0, []) pre = Some (parent, mst)
             ∧ uf_inv (id <$> nodes) rk (length mst) parent
             ∧ ∀ n, n ∈ nodes →
                 ∃ parent' r,
                   find depth' parent (str (id n)) = Some (parent', str r)).
Proof.
  intros Hd. split; [by apply build_returns|]. split.
  - intros pre post. by apply for_of_climbs.
  - intros HV Hproto depth' Hd'. split.
    + eexists. by apply build_greedy.
    + intros pre post. by apply for_of_states.
Qed.

Lemma total_function_witness :
  ((∃ mst, buildMinimumSpanningTree engine_ref 10 square = Some mst)
   ∧ (∀ pre post,
        sorted_edges engine_ref square = pre ++ post →
        ∃ parent0 parent mst rk,
          init_parent square = Some parent0
          ∧ for_of 10 (parent0, []) pre = Some (parent, mst)
          ∧ climbs rk (3 + length mst) parent
          ∧ ∀ v, ∃ parent' r,
              find 10 parent v = Some (parent', r) ∧ get parent' r = r)
   ∧ (NoDup (id <$> square) → "__proto__" ∉ id <$> square →
      ∀ depth', (length square ≤ depth')%nat →
        (∃ mst, buildMinimumSpanningTree engine_ref depth' square
                = Some mst)
        ∧ ∀ pre post,
            sorted_edges engine_ref square = pre ++ post →
            ∃ parent0 parent mst rk,
              init_parent square = Some parent0
              ∧ for_of depth' (parent0, []) pre = Some (parent, mst)
              ∧ uf_inv (id <$> square) rk (length mst) parent
              ∧ ∀ n, n ∈ square →
                  ∃ parent' r,
                    find depth' parent (str (id n))
                    = Some (parent', str r)))
  ∧ ∃ mst, buildMinimumSpanningTree engine_v8 7 proto_points = Some mst.
Proof.
  split.
  - apply (total_function engine_ref 10 square). simpl. lia.
  - apply (proj1 (total_function engine_v8 7 proto_points
                    ltac:(simpl; lia))).
Defined.

(** ** The input is only read *)

(** C10: the function is run on a heap that holds the array of points, at
    the address [nodes], and the points.  When it returns, every object
    that the heap held is as it was: the array has the same elements and
    every point has the same fields.  What it returns is a new array; its
    edges refer to elements of the array of points, and read as values
    they are what the function on values returns.  When the points were
    obtained by filtering a longer list, the edges refer to points that
    pass the filter. *)
Theorem input_frame (E : Engine) (depth : nat) (nodes : loc) (h : heap)
    (ls : list loc) (pts : list (Point number)) (mst : loc) (h' : heap) :
  nodes_at h nodes = Some ls →
  mapM (point_at h) ls = Some pts →
  hbuildMinimumSpanningTree E depth nodes h = Some (mst, h') →
  (∀ l c, h !! l = Some c → h' !! l = Some c)
  ∧ nodes_at h' nodes = Some ls
  ∧ mapM (point_at h') ls = Some pts
  ∧ h !! mst = None
  ∧ ∃ es,
      edges_at h' mst = Some es
      ∧ buildMinimumSpanningTree E depth pts = Some (resolve h' <$> es)
      ∧ ∀ e, e ∈ es →
          hfrom e ∈ ls ∧ hto e ∈ ls
          ∧ ∃ a b,
              point_at h' (hfrom e) = Some a ∧ point_at h' (hto e) = Some b
              ∧ a ∈ pts ∧ b ∈ pts
              ∧ ∀ (keep : Point number → Prop)
                  (dec : ∀ n, Decision (keep n)) all,
                  pts = filter keep all →
                  (a ∈ all ∧ keep a) ∧ (b ∈ all ∧ keep b).
Proof.
  intros Hnodes Hpts Hrun. apply mapM_Some in Hpts.
  pose proof (build_resolve E h depth nodes ls pts Hnodes Hpts) as Hres.
  rewrite Hrun in Hres.
  destruct Hres as (es & own & ms & -> & -> & Hin & Hpure).
  assert (Hframe : ∀ l c, h !! l = Some c →
            (h ++ [Cedges es; Cparent own; Cedges ms]) !! l = Some c)
    by (intros l c Hl; by apply lookup_app_l_Some).
  assert (Hpoint : ∀ l, point_at (h ++ [Cedges es; Cparent own; Cedges ms]) l
                        = point_at h l)
    by (intros l; apply point_at_past; by repeat constructor).
  split; [done|]. split.
  { unfold nodes_at in Hnodes |- *.
    destruct (h !! nodes) as [c|] eqn:Hc; [|done].
    by rewrite (Hframe _ _ Hc). }
  split.
  { apply mapM_Some. eapply Forall2_impl; [done|].
    intros l p Hl. by rewrite Hpoint. }
  split; [apply lookup_ge_None; lia|].
  exists ms. split.
  { unfold edges_at. by rewrite lookup_past. }
  split.
  { rewrite Hpure. f_equal. apply list_fmap_ext. intros _ e _.
    unfold resolve, deref. by rewrite !Hpoint. }
  intros e He. rewrite Forall_forall in Hin.
  destruct (Hin e He) as [Hf Ht]. split; [done|]. split; [done|].
  assert (Hat : ∀ l, l ∈ ls → ∃ p, point_at h l = Some p ∧ p ∈ pts).
  { intros l (i & Hi)%list_elem_of_lookup_1.
    destruct (Forall2_lookup_l _ _ _ _ _ Hpts Hi) as (p & Hp & Hlp).
    exists p. split; [done|]. by eapply list_elem_of_lookup_2. }
  destruct (Hat _ Hf) as (a & Ha & Hain), (Hat _ Ht) as (b & Hb & Hbin).
  exists a, b. rewrite !Hpoint. do 4 (split; [done|]).
  intros keep Hdec all ->.
  apply list_elem_of_filter in Hain, Hbin. tauto.
Qed.

Lemma input_frame_witness :
  ∃ mst h',
    hbuildMinimumSpanningTree engine_ref 10 4 square_heap = Some (mst, h')
    ∧ (∀ l c, square_heap !! l = Some c → h' !! l = Some c)
    ∧ nodes_at h' 4 = Some [0; 1; 2; 3]%nat
    ∧ mapM (point_at h') [0; 1; 2; 3]%nat = Some square
    ∧ square_heap !! mst = None
    ∧ ∃ es,
        edges_at h' mst = Some es
        ∧ buildMinimumSpanningTree engine_ref 10 square
          = Some (resolve h' <$> es)
        ∧ ∀ e, e ∈ es →
            hfrom e ∈ [0; 1; 2; 3]%nat ∧ hto e ∈ [0; 1; 2; 3]%nat
            ∧ ∃ a b,
                point_at h' (hfrom e) = Some a
                ∧ point_at h' (hto e) = Some b
                ∧ a ∈ square ∧ b ∈ square
                ∧ ∀ (keep : Point number → Prop)
                    (dec : ∀ n, Decision (keep n)) all,
                    square = filter keep all →
                    (a ∈ all ∧ keep a) ∧ (b ∈ all ∧ keep b).
Proof.
  destruct (hbuildMinimumSpanningTree engine_ref 10 4 square_heap)
    as [[mst h']|] eqn:Hrun; [|by vm_compute in Hrun].
  exists mst, h'. split; [done|].
  by apply (input_frame engine_ref 10 4 square_heap [0; 1; 2; 3]%nat
              square mst h').
Defined.

(** * Further properties of the code *)

(** ** [find] and [union] *)

Lemma get_undefined parent :
  parent !! "undefined" = None → get parent undefined = undefined.
Proof.
  intros Hu. unfold get. cbn [prop_key]. rewrite Hu.
  rewrite decide_False; [done|]. apply (bool_decide_unpack _). by vm_compute.
Qed.

(** X1: on an identifier that was never registered and that
    [Object.prototype] does not hold, [find] returns [undefined] and
    registers the identifier with the parent [undefined], when two frames
    of the stack are left and no property is named "undefined". *)
Theorem find_unregistered (depth : nat) (parent : gmap string jsval)
    (k : string) :
  parent !! k = None → k ∉ Object_prototype →
  parent !! "undefined" = None → (2 ≤ depth)%nat →
  find depth parent (str k) = Some (<[k := undefined]> parent, undefined).
Proof.
  intros Hk Hproto Hu Hd. destruct depth as [|[|d]]; [lia|lia|].
  assert (Hget : get parent (str k) = undefined).
  { unfold get. cbn [prop_key]. rewrite Hk. by rewrite decide_False. }
  pose proof (get_undefined parent Hu) as Hget'.
  cbn [find]. rewrite Hget, Hget'.
  rewrite decide_True by done. rewrite decide_False by (by intros []).
  cbn [mbind option_bind prop_key].
  rewrite put_ordinary; [done|].
  intros ->. apply Hproto. apply (bool_decide_unpack _). by vm_compute.
Qed.

Lemma find_unregistered_witness :
  find 2 {["A" := str "A"]} (str "Z")
  = Some (<["Z" := undefined]> {["A" := str "A"]}, undefined).
Proof.
  apply (find_unregistered 2 {["A" := str "A"]} "Z");
    [done|apply (bool_decide_unpack _); by vm_compute|done|lia].
Defined.

(** X23: on an identifier that was never registered but that
    [Object.prototype] holds, as [toString], [find] reads the inherited
    function, looks it up under its source text, and returns [undefined]
    after three frames, with two properties stored: the identifier and
    the source text of the function. *)
Theorem find_inherited (depth : nat) (parent : gmap string jsval)
    (k : string) :
  k ∈ Object_prototype → k ≠ "__proto__" →
  parent !! k = None → parent !! prop_key (inherited k) = None →
  parent !! "undefined" = None → (3 ≤ depth)%nat →
  find depth parent (str k)
  = Some (<[k := undefined]>
            (<[prop_key (inherited k) := undefined]> parent), undefined)
  ∧ find 2 parent (str k) = None.
Proof.
  intros Hin Hne Hk Hf Hu Hd.
  assert (Hget : get parent (str k) = inherited k).
  { unfold get. cbn [prop_key]. rewrite Hk. by rewrite decide_True. }
  assert (Hget1 : get parent (inherited k) = undefined).
  { unfold get. rewrite Hf.
    by rewrite decide_False by apply key_not_inherited. }
  pose proof (get_undefined parent Hu) as Hget2.
  assert (Hkey : prop_key (inherited k) ≠ "__proto__").
  { intros Heq. apply (key_not_inherited k). rewrite Heq.
    apply (bool_decide_unpack _). by vm_compute. }
  split.
  - destruct depth as [|[|[|d]]]; [lia|lia|lia|].
    cbn [find]. rewrite Hget, Hget1, Hget2.
    rewrite decide_True by done. rewrite decide_True by done.
    rewrite decide_False by (by intros []).
    cbn [mbind option_bind].
    rewrite (put_ordinary _ _ _ Hkey). cbn [mbind option_bind prop_key].
    by rewrite (put_ordinary _ _ _ Hne).
  - cbn [find]. rewrite Hget, Hget1.
    rewrite decide_True by done. by rewrite decide_True by done.
Qed.

Lemma find_inherited_witness :
  find 3 {["A" := str "A"]} (str "toString")
  = Some (<["toString" := undefined]>
            (<["function toString() { [native code] }" := undefined]>
               {["A" := str "A"]}), undefined)
  ∧ find 2 {["A" := str "A"]} (str "toString") = None.
Proof.
  apply (find_inherited 3 {["A" := str "A"]} "toString");
    [apply (bool_decide_unpack _); by vm_compute|done|done|done|done|lia].
Defined.

(** [find] removes no property. *)
Lemma put_keeps parent k v parent' k0 :
  put parent k v = Some parent' →
  is_Some (parent !! k0) → is_Some (parent' !! k0).
Proof.
  unfold put. intros Hput Hk0.
  assert (Hins : is_Some (<[k := v]> parent !! k0)).
  { destruct (decide (k = k0)) as [->|Hne].
    - rewrite lookup_insert_eq. eauto.
    - by rewrite lookup_insert_ne. }
  destruct (parent !! k); [by simplify_eq|].
  case_decide; [|by simplify_eq].
  destruct v; by simplify_eq.
Qed.

Lemma find_keeps depth parent v parent' r k0 :
  find depth parent v = Some (parent', r) →
  is_Some (parent !! k0) → is_Some (parent' !! k0).
Proof.
  revert parent v parent' r.
  induction depth as [|d IH]; intros parent v parent' r; [done|].
  cbn [find]. case_decide; [|by intros [= <- <-]].
  destruct (find d parent (get parent v)) as [[p1 r1]|] eqn:Hrec; [|done].
  cbn [mbind option_bind].
  destruct (put p1 (prop_key v) r1) as [p2|] eqn:Hput; [|done].
  intros [= <- <-] Hk0. eapply put_keeps; [done|]. by eapply IH.
Qed.

(** After [find], the identifier points at the representative returned. *)
Lemma find_points_at V rk B depth parent k parent' r :
  uf_inv V rk B parent → k ∈ V →
  find depth parent (str k) = Some (parent', r) →
  ∃ r0, r = str r0 ∧ parent' !! k = Some (str r0)
        ∧ parent' !! r0 = Some (str r0).
Proof.
  intros Hinv. revert k parent' r.
  induction depth as [|d IH]; intros k parent' r Hk Hfind; [done|].
  destruct (uf_closed _ _ _ _ Hinv k Hk) as (p & Hp & Hkp).
  assert (Hget : get parent (str k) = str p) by (by apply get_own).
  cbn [find] in Hfind. rewrite Hget in Hfind.
  destruct (decide (str p ≠ str k)) as [Hne|He].
  - destruct (find d parent (str p)) as [[p1 r1]|] eqn:Hrec; [|done].
    cbn [mbind option_bind prop_key] in Hfind.
    destruct (IH _ _ _ Hp Hrec) as (r0 & -> & Hpr & Hr).
    destruct (find_keeps _ _ _ _ _ k Hrec ltac:(by rewrite Hkp)) as [x Hx].
    rewrite (put_own _ _ _ _ Hx) in Hfind. injection Hfind as <- <-.
    exists r0. split; [done|]. rewrite lookup_insert_eq. split; [done|].
    destruct (decide (k = r0)) as [->|Hkr];
      [by rewrite lookup_insert_eq|by rewrite lookup_insert_ne].
  - injection Hfind as <- <-. exists k. split; [done|].
    destruct (decide (p = k)) as [->|Hpk]; [done|].
    exfalso. apply He. congruence.
Qed.

Lemma chain_inv : uf_inv ["A"; "B"; "C"] chain_rank 2 chain.
Proof.
  split.
  - intros k Hk. repeat (apply elem_of_cons in Hk as [->|Hk]);
      [exists "B"|exists "C"|exists "C"|by apply elem_of_nil in Hk];
      (split; [by apply (bool_decide_unpack _)|done]).
  - intros k p Hk. repeat (apply elem_of_cons in Hk as [->|Hk]);
      [| | |by apply elem_of_nil in Hk];
      intros Hp Hne; vm_compute in Hp; injection Hp as <-;
      try done; unfold chain_rank; simpl; lia.
  - intros k. unfold chain_rank. repeat case_decide; lia.
Qed.

(** X2: path compression.  On a union-find forest, [find] returns the
    representative of the identifier and leaves the identifier pointing
    directly at it; every identifier keeps its representative, and the
    structure is still a forest for the same rank. *)
Theorem find_compresses (V : list string) (rk : string → nat) (B depth : nat)
    (parent : gmap string jsval) (k : string) :
  uf_inv V rk B parent → k ∈ V → (B - rk k < depth)%nat →
  ∃ parent' r,
    find depth parent (str k) = Some (parent', str r)
    ∧ root_of parent k r
    ∧ parent' !! k = Some (str r)
    ∧ (∀ x r', root_of parent x r' → root_of parent' x r')
    ∧ uf_inv V rk B parent'.
Proof.
  intros Hinv Hk Hd.
  destruct (find_ok V rk B depth parent k Hinv Hk Hd)
    as (parent' & r & Hfind & _ & Hroot & _ & Hinv' & Hpres).
  exists parent', r. repeat (split; [done|]). split; [|done].
  destruct (find_points_at V rk B depth parent k parent' (str r) Hinv Hk Hfind)
    as (r0 & [= <-] & Hkr & _).
  done.
Qed.

Lemma find_compresses_witness :
  ∃ parent' r,
    find 3 chain (str "A") = Some (parent', str r)
    ∧ root_of chain "A" r
    ∧ parent' !! "A" = Some (str r)
    ∧ (∀ x r', root_of chain x r' → root_of parent' x r')
    ∧ uf_inv ["A"; "B"; "C"] chain_rank 2 parent'.
Proof.
  apply (find_compresses ["A"; "B"; "C"] chain_rank 2 3 chain "A");
    [apply chain_inv|by left|by vm_compute].
Defined.

(** X3: once [find] has run on an identifier, running it again returns the
    same representative, changes nothing, and needs two frames of the stack
    whatever the height of the forest was. *)
Theorem find_again (V : list string) (rk : string → nat) (B depth : nat)
    (parent parent' : gmap string jsval) (k : string) (r : jsval) :
  uf_inv V rk B parent → k ∈ V →
  find depth parent (str k) = Some (parent', r) →
  find 2 parent' (str k) = Some (parent', r).
Proof.
  intros Hinv Hk Hfind.
  destruct (find_points_at V rk B depth parent k parent' r Hinv Hk Hfind)
    as (r0 & -> & Hkr & Hr).
  destruct (decide (r0 = k)) as [->|Hne].
  - by apply find_root; [lia|].
  - assert (Hget : get parent' (str k) = str r0) by (by apply get_own).
    change (find 2 parent' (str k))
      with (if decide (get parent' (str k) ≠ str k)
            then '(parent1, r1) ← find 1 parent' (get parent' (str k));
                 parent2 ← put parent1 (prop_key (str k)) r1;
                 Some (parent2, r1)
            else Some (parent', str k)).
    rewrite Hget, decide_True by congruence.
    rewrite find_root by (done || lia). cbn [mbind option_bind prop_key].
    rewrite (put_own _ _ _ _ Hkr). cbn [mbind option_bind].
    by rewrite insert_id.
Qed.

Lemma find_again_witness :
  find 2 (<["A" := str "C"]> (<["B" := str "C"]> chain)) (str "A")
  = Some (<["A" := str "C"]> (<["B" := str "C"]> chain), str "C").
Proof.
  apply (find_again ["A"; "B"; "C"] chain_rank 2 3 chain
           (<["A" := str "C"]> (<["B" := str "C"]> chain)) "A" (str "C"));
    [apply chain_inv|by left|by vm_compute].
Defined.

Lemma uf_inv_weaken V rk B B' parent :
  uf_inv V rk B parent → (B ≤ B')%nat → uf_inv V rk B' parent.
Proof.
  intros [Hc Hcl Hb] HB. split; [done|done|].
  intros k. specialize (Hb k). lia.
Qed.

(** X4: [union] renames the representative of its first argument into the
    representative of its second: every identifier whose representative
    was the former gets the latter, every other identifier keeps its own,
    and the structure stays a forest, one level higher at most.  On two
    identifiers of one class it changes no representative. *)
Theorem union_merges (V : list string) (rk : string → nat) (B depth : nat)
    (parent : gmap string jsval) (a b : string) :
  uf_inv V rk B parent → a ∈ V → b ∈ V → (B < depth)%nat →
  ∃ parent' ra rb,
    union depth parent (str a) (str b) = Some parent'
    ∧ root_of parent a ra ∧ root_of parent b rb
    ∧ (∀ x r, root_of parent x r →
              root_of parent' x (if decide (r = ra) then rb else r))
    ∧ ∃ rk', uf_inv V rk' (S B) parent'.
Proof.
  intros Hinv Ha Hb Hd.
  destruct (find_ok V rk B depth parent a Hinv Ha ltac:(lia))
    as (p1 & ra & Hfa & Hra & Hroota & _ & Hinv1 & Hpres1).
  destruct (find_ok V rk B depth p1 b Hinv1 Hb ltac:(lia))
    as (p2 & rb & Hfb & Hrb & Hrootb & _ & Hinv2 & Hpres2).
  assert (Hrootb0 : root_of parent b rb).
  { destruct (find_ok V rk B depth parent b Hinv Hb ltac:(lia))
      as (? & rb0 & _ & _ & Hb0 & _).
    by rewrite (root_of_det _ _ _ _ (Hpres1 _ _ Hb0) Hrootb) in Hb0. }
  assert (Hpa : p2 !! ra = Some (str ra))
    by (apply (root_of_root _ a); apply Hpres2, Hpres1, Hroota).
  assert (Hpb : p2 !! rb = Some (str rb))
    by (apply (root_of_root _ b); apply Hpres2, Hrootb).
  exists (<[ra := str rb]> p2), ra, rb.
  split.
  { unfold union. rewrite Hfa. cbn [mbind option_bind]. rewrite Hfb.
    cbn [mbind option_bind prop_key]. by rewrite (put_own _ _ _ _ Hpa). }
  do 2 (split; [done|]).
  destruct (decide (ra = rb)) as [->|Hne].
  - rewrite insert_id by done. split.
    + intros x r Hx. case_decide as Hr; [subst r|]; by apply Hpres2, Hpres1.
    + exists rk. by eapply uf_inv_weaken; [|apply Nat.le_succ_diag_r].
  - split.
    + intros x r Hx. by apply union_root, Hpres2, Hpres1.
    + eexists. by apply uf_union.
Qed.

Lemma init_parent_square : init_parent square = Some square_parent.
Proof. by vm_compute. Qed.

Lemma square_parent_inv :
  uf_inv (id <$> square) (fun _ => 0%nat) 0 square_parent.
Proof.
  split.
  - intros k Hk. exists k. split; [done|].
    repeat (apply elem_of_cons in Hk as [->|Hk]); try done.
    by apply elem_of_nil in Hk.
  - intros k p Hk.
    repeat (apply elem_of_cons in Hk as [->|Hk]);
      [| | | |by apply elem_of_nil in Hk];
      vm_compute; by intros [= <-].
  - done.
Qed.

Lemma union_merges_witness :
  ∃ parent' ra rb,
    union 1 square_parent (str "A") (str "B") = Some parent'
    ∧ root_of square_parent "A" ra
    ∧ root_of square_parent "B" rb
    ∧ (∀ x r, root_of square_parent x r →
              root_of parent' x (if decide (r = ra) then rb else r))
    ∧ ∃ rk', uf_inv (id <$> square) rk' 1 parent'.
Proof.
  apply (union_merges (id <$> square) (fun _ => 0%nat) 0 1
           square_parent "A" "B");
    [apply square_parent_inv|by apply (bool_decide_unpack _)
    |by apply (bool_decide_unpack _)|lia].
Defined.

(** ** [buildMinimumSpanningTree] on any list of points *)

Lemma greedy_no_loop es e : e ∈ greedy es → id (from e) ≠ id (to e).
Proof.
  induction es as [|e' es IH] using rev_ind; [by intros ?%elem_of_nil|].
  rewrite greedy_snoc. unfold select. case_decide as Hc; [done|].
  intros [?|Heq%list_elem_of_singleton]%elem_of_app; [by apply IH|].
  subst e'. intros Hid. apply Hc. by rewrite Hid.
Qed.

(** X5: points that share an identifier count as one.  On any list of
    points none of which is called [__proto__], the function returns as
    soon as the stack is as deep as there are distinct identifiers; the
    result has one edge less than there are distinct identifiers, joins
    no two points of one identifier, and connects the identifiers of all
    points. *)
Theorem shared_identifiers (E : Engine) (depth : nat)
    (nodes : list (Point number)) :
  "__proto__" ∉ id <$> nodes →
  (length (remove_dups (id <$> nodes)) ≤ depth)%nat →
  ∃ mst,
    buildMinimumSpanningTree E depth nodes = Some mst
    ∧ length mst = (length (remove_dups (id <$> nodes)) - 1)%nat
    ∧ (∀ e, e ∈ mst → id (from e) ≠ id (to e))
    ∧ ∀ a b, a ∈ nodes → b ∈ nodes →
             connected (ends <$> mst) (id a) (id b).
Proof.
  intros Hproto Hd. eexists. split; [by apply build_greedy_ids|].
  set (sorted := sorted_edges E nodes).
  assert (Hsp : spans (remove_dups (id <$> nodes)) (greedy sorted)).
  { apply greedy_spans.
    intros x y Hx Hy.
    apply (sorted_spans E nodes x y); by apply elem_of_remove_dups. }
  split; [|split].
  - assert (Hw : within (remove_dups (id <$> nodes)) (greedy sorted)).
    { intros e He. rewrite !elem_of_remove_dups.
      apply (sorted_within E nodes).
      by eapply sublist_subseteq, He; apply greedy_sublist. }
    pose proof (forest_length _ _ (NoDup_remove_dups _) Hw
                  (greedy_forest sorted)) as Hlen.
    destruct (remove_dups (id <$> nodes)) as [|v V] eqn:HV.
    + simpl in Hlen |- *. lia.
    + rewrite (components_one _ (v :: V)) in Hlen by done.
      simpl in Hlen |- *. lia.
  - apply greedy_no_loop.
  - intros a b Ha Hb.
    apply Hsp; apply elem_of_remove_dups; by apply list_elem_of_fmap_2.
Qed.

Lemma shared_identifiers_witness :
  ∃ mst,
    buildMinimumSpanningTree engine_ref 2 shared = Some mst
    ∧ length mst = 1%nat
    ∧ (∀ e, e ∈ mst → id (from e) ≠ id (to e))
    ∧ ∀ a b, a ∈ shared → b ∈ shared →
             connected (ends <$> mst) (id a) (id b).
Proof.
  apply (shared_identifiers engine_ref 2 shared);
    [by apply (bool_decide_unpack _)|by vm_compute].
Defined.

(** X24: on points with pairwise distinct identifiers, none of them
    [__proto__], the two loops enumerate [N * (N - 1) / 2] candidate
    edges, and the function returns [N - 1] edges: none when there is no
    point or one point. *)
Theorem tree_size (E : Engine) (depth : nat) (nodes : list (Point number)) :
  NoDup (id <$> nodes) → "__proto__" ∉ id <$> nodes →
  (length nodes ≤ depth)%nat →
  length (edges E nodes) = (length nodes * (length nodes - 1) / 2)%nat
  ∧ ∃ mst, buildMinimumSpanningTree E depth nodes = Some mst
           ∧ length mst = (length nodes - 1)%nat.
Proof.
  intros HV Hproto Hd. split.
  - apply Nat.div_unique_exact; [done|]. symmetry. apply edges_length.
  - destruct (build_spec E depth nodes HV Hproto Hd)
      as (mst & Hb & _ & Htree).
    exists mst. split; [done|].
    by eapply tree_length, Htree; [|apply edges_within].
Qed.

Lemma tree_size_witness :
  length (edges engine_ref square) = 6%nat
  ∧ ∃ mst, buildMinimumSpanningTree engine_ref 4 square = Some mst
           ∧ length mst = 3%nat.
Proof.
  apply (tree_size engine_ref 4 square);
    [apply square_NoDup|apply square_ordinary|simpl; lia].
Defined.

(** X25: on at least one point, with pairwise distinct identifiers, none
    of them [__proto__], the edges returned connect all the points into
    one component, and no edge of the result joins two points that the
    edges before it connect. *)
Theorem tree_spans (E : Engine) (depth : nat)
    (nodes : list (Point number)) :
  NoDup (id <$> nodes) → "__proto__" ∉ id <$> nodes → nodes ≠ [] →
  (length nodes ≤ depth)%nat →
  ∃ mst,
    buildMinimumSpanningTree E depth nodes = Some mst
    ∧ components (ends <$> mst) (id <$> nodes) = 1%nat
    ∧ (∀ a b, a ∈ nodes → b ∈ nodes →
         connected (ends <$> mst) (id a) (id b))
    ∧ ∀ mst1 e mst2, mst = mst1 ++ e :: mst2 →
        ¬ connected (ends <$> mst1) (id (from e)) (id (to e)).
Proof.
  intros HV Hproto Hne Hd.
  destruct (build_spec E depth nodes HV Hproto Hd)
    as (mst & Hb & _ & _ & HF & Hsp).
  exists mst. split; [done|]. split; [|split].
  - apply components_one; [|done]. by destruct nodes.
  - intros a b Ha Hb'. by apply Hsp; apply list_elem_of_fmap_2.
  - intros mst1 e mst2 ->. apply (HF (ends <$> mst1) _ _ (ends <$> mst2)).
    by rewrite fmap_app.
Qed.

Lemma tree_spans_witness :
  ∃ mst,
    buildMinimumSpanningTree engine_ref 4 square = Some mst
    ∧ components (ends <$> mst) (id <$> square) = 1%nat
    ∧ (∀ a b, a ∈ square → b ∈ square →
         connected (ends <$> mst) (id a) (id b))
    ∧ ∀ mst1 e mst2, mst = mst1 ++ e :: mst2 →
        ¬ connected (ends <$> mst1) (id (from e)) (id (to e)).
Proof.
  apply (tree_spans engine_ref 4 square);
    [apply square_NoDup|apply square_ordinary|discriminate|simpl; lia].
Defined.

(** *** The order of the result *)

Lemma for_of_sublist depth es parent mst parent' mst' :
  for_of depth (parent, mst) es = Some (parent', mst') →
  ∃ k, mst' = mst ++ k ∧ k `sublist_of` es.
Proof.
  revert parent mst. induction es as [|e0 es IH]; intros parent mst H.
  - simplify_eq/=. exists []. by rewrite app_nil_r.
  - change (for_of depth (parent, mst) (e0 :: es))
      with (visit depth (parent, mst) e0 ≫= λ st', for_of depth st' es) in H.
    destruct (visit depth (parent, mst) e0) as [[p1 m1]|] eqn:Hv;
      simplify_eq/=.
    destruct (IH _ _ H) as (k & -> & Hk).
    destruct (visit_appends _ _ _ _ _ _ Hv) as [-> | ->].
    + exists k. split; [done|]. by apply sublist_cons.
    + exists (e0 :: k). rewrite <- app_assoc. split; [done|].
      by apply sublist_skip.
Qed.

Lemma build_sublist E depth nodes mst :
  buildMinimumSpanningTree E depth nodes = Some mst →
  mst `sublist_of` sorted_edges E nodes.
Proof.
  intros (parent & parent' & _ & Hf)%build_run.
  by destruct (for_of_sublist _ _ _ _ _ _ Hf) as (k & -> & Hk).
Qed.

Lemma StronglySorted_sublist {A} (R : relation A) (l1 l2 : list A) :
  l1 `sublist_of` l2 → StronglySorted R l2 → StronglySorted R l1.
Proof.
  induction 1 as [|x l1 l2 Hs IH|x l1 l2 Hs IH]; [done|..];
    intros [Hall HS]%StronglySorted_cons; [|by apply IH].
  apply StronglySorted_cons. split; [|by apply IH].
  rewrite Forall_forall in Hall |- *. intros y Hy. apply Hall.
  by eapply sublist_subseteq, Hy.
Qed.

(** X6: when the distances of the candidate edges are finite numbers, the
    edges are returned from the shortest to the longest. *)
Theorem result_ascending (E : Engine) (depth : nat)
    (nodes : list (Point number)) (mst : list Edge) :
  all_finite (edges E nodes) = true →
  buildMinimumSpanningTree E depth nodes = Some mst →
  ascending weight mst.
Proof.
  intros Hfin Hb. eapply StronglySorted_sublist; [by eapply build_sublist|].
  by apply sorted_ascending.
Qed.

Lemma result_ascending_witness :
  ascending weight square_tree.
Proof.
  apply (result_ascending engine_ref 4 square square_tree); by vm_compute.
Defined.

(** *** The edges *)

Lemma edges_order L nodes e :
  e ∈ edges L nodes → ∃ l1 l2, nodes = l1 ++ from e :: l2 ∧ to e ∈ l2.
Proof.
  induction nodes as [|a rest IH]; [by intros ?%elem_of_nil|].
  simpl. intros [Hin|Hin]%elem_of_app.
  - apply list_elem_of_fmap in Hin as (b & -> & Hb). by exists [], rest.
  - destruct (IH Hin) as (l1 & l2 & -> & Hto). by exists (a :: l1), l2.
Qed.

(** X7: every edge returned carries the distance that [haversineDistance]
    gives from its first end to its second, and its first end stands
    before its second in the list of points. *)
Theorem edge_fields (E : Engine) (depth : nat) (nodes : list (Point number))
    (mst : list Edge) (e : Edge) :
  buildMinimumSpanningTree E depth nodes = Some mst → e ∈ mst →
  distance e = haversineDistance (M := ieee_math E) (from e) (to e)
  ∧ ∃ l1 l2, nodes = l1 ++ from e :: l2 ∧ to e ∈ l2.
Proof.
  intros Hb He. apply (build_candidates _ _ _ _ Hb) in He.
  split; [by apply edges_spec in He as (_ & _ & ?)|by eapply edges_order].
Qed.

Lemma edge_fields_witness :
  S754_finite false 7823455584968741 (-46)
  = haversineDistance (M := ieee_math engine_ref) sqC sqD
  ∧ ∃ l1 l2, square = l1 ++ sqC :: l2 ∧ sqD ∈ l2.
Proof.
  apply (edge_fields engine_ref 4 square square_tree
           (edge sqC sqD (S754_finite false 7823455584968741 (-46))));
    [by vm_compute|by left].
Defined.

(** X8: on points with distinct identifiers the candidate edges form a
    simple graph: no two of them have the same ends, none joins a point
    to itself, and none is the reverse of another. *)
Theorem candidates_simple (L : Libm) (nodes : list (Point number)) :
  NoDup (id <$> nodes) →
  NoDup (ends <$> edges L nodes)
  ∧ ∀ u v, (u, v) ∈ ends <$> edges L nodes →
           u ≠ v ∧ (v, u) ∉ ends <$> edges L nodes.
Proof.
  induction nodes as [|a rest IH]; [by split; [constructor|intros ?? ?%elem_of_nil]|].
  rewrite fmap_cons. intros [Ha HV]%NoDup_cons.
  destruct (IH HV) as [IH1 IH2]. clear IH.
  assert (Hin : ∀ u v, (u, v) ∈ ends <$> edges L rest →
                       u ∈ id <$> rest ∧ v ∈ id <$> rest).
  { intros u v. apply within_ends, edges_within. }
  assert (Hfst : ∀ u v,
    (u, v) ∈ ends <$> map (fun b => {| from := a; to := b;
        distance := haversineDistance (M := ieee_math L) a b |}) rest →
    u = id a ∧ v ∈ id <$> rest).
  { intros u v (e & [= -> ->] & (b & -> & Hb)%list_elem_of_fmap)%list_elem_of_fmap.
    split; [done|]. by apply list_elem_of_fmap_2. }
  simpl. rewrite fmap_app. split.
  - apply NoDup_app. split; [|split; [|done]].
    + replace (ends <$> map _ rest)
        with ((fun k => (id a, k)) <$> (id <$> rest)).
      * apply NoDup_fmap_2; [|done]. by intros ?? [= ->].
      * rewrite <- !list_fmap_compose. done.
    + intros [u v] [-> _]%Hfst [? _]%Hin. done.
  - intros u v [H1|H2]%elem_of_app.
    + destruct (Hfst _ _ H1) as [-> Hv].
      split; [by intros <-|].
      intros [[_ ?]%Hfst|[_ ?]%Hin]%elem_of_app; done.
    + destruct (Hin _ _ H2) as [Hu Hv]. destruct (IH2 _ _ H2) as [Hne Hrev].
      split; [done|].
      intros [[-> _]%Hfst|?]%elem_of_app; done.
Qed.

Lemma candidates_simple_witness :
  NoDup (ends <$> edges libm_ref square)
  ∧ ∀ u v, (u, v) ∈ ends <$> edges libm_ref square →
           u ≠ v ∧ (v, u) ∉ ends <$> edges libm_ref square.
Proof. apply (candidates_simple libm_ref square), square_NoDup. Defined.

(** X9: why an edge is left out.  On points with distinct identifiers,
    none of them [__proto__], and finite distances, the ends of every
    candidate edge are connected by returned edges that are no longer
    than it. *)
Theorem no_longer_detour (E : Engine) (depth : nat)
    (nodes : list (Point number)) (mst : list Edge) (e : Edge) :
  NoDup (id <$> nodes) → "__proto__" ∉ id <$> nodes →
  (length nodes ≤ depth)%nat →
  all_finite (edges E nodes) = true →
  buildMinimumSpanningTree E depth nodes = Some mst →
  e ∈ edges E nodes →
  connected (ends <$> light weight (weight e) mst)
            (id (from e)) (id (to e)).
Proof.
  intros HV Hproto Hd Hfin Hb He.
  rewrite (build_greedy E) in Hb by done. injection Hb as <-.
  apply greedy_light; [by apply sorted_ascending| |done].
  by rewrite sorted_Permutation.
Qed.

Lemma no_longer_detour_witness :
  connected
    (ends <$> light weight
       (weight (edge sqA sqC (haversineDistance (M := ieee_math libm_ref)
                                                sqA sqC)))
       square_tree)
    "A" "C".
Proof.
  apply (no_longer_detour engine_ref 4 square square_tree
           (edge sqA sqC (haversineDistance (M := ieee_math libm_ref)
                                            sqA sqC)));
    [apply square_NoDup|apply square_ordinary|simpl; lia|by vm_compute
    |by vm_compute|].
  rewrite edges_square. right. by left.
Defined.

(** ** [haversineDistance] *)

Lemma isNaN_spec v : isNaN v = true → v = S754_nan.
Proof. by destruct v. Qed.

Lemma sub_nan_l y : sub S754_nan y = S754_nan.
Proof. done. Qed.

Lemma sub_nan_r x : sub x S754_nan = S754_nan.
Proof. by destruct x. Qed.

Lemma add_nan_r x : add x S754_nan = S754_nan.
Proof. by destruct x. Qed.

Lemma mul_nan_l y : mul S754_nan y = S754_nan.
Proof. done. Qed.

Lemma mul_nan_r x : mul x S754_nan = S754_nan.
Proof. by destruct x. Qed.

Lemma div_nan_l y : div S754_nan y = S754_nan.
Proof. done. Qed.

(** X11: a coordinate that is not a number makes the distance not a
    number, on every libm that gives NaN for the sine, the square and the
    arctangent of NaN, as ECMAScript requires. *)
Theorem nan_coordinate (L : Libm) (a b : Point number) :
  libm_sin L S754_nan = S754_nan →
  libm_pow L S754_nan (lit 2) = S754_nan →
  (∀ x, libm_atan2 L S754_nan x = S754_nan) →
  isNaN (lat a) || isNaN (lng a) || isNaN (lat b) || isNaN (lng b) = true →
  haversineDistance (M := ieee_math L) a b = S754_nan.
Proof.
  intros Hsin Hpow Hatan Hnan.
  unfold haversineDistance, toRad, R_km.
  cbn [js_lit js_add js_sub js_mul js_div js_pow Math_PI Math_sqrt Math_sin
       Math_cos Math_atan2 ieee_math].
  assert (Hd : sub (lat b) (lat a) = S754_nan
               ∨ sub (lng b) (lng a) = S754_nan).
  { repeat (apply orb_prop in Hnan as [Hnan|Hnan]);
      apply isNaN_spec in Hnan; rewrite Hnan;
      rewrite ?sub_nan_l, ?sub_nan_r; auto. }
  destruct Hd as [-> | ->];
    repeat rewrite ?mul_nan_l, ?div_nan_l, ?Hsin, ?Hpow, ?add_nan_r,
      ?Hatan, ?mul_nan_r;
    done.
Qed.

Lemma nan_coordinate_witness :
  haversineDistance (M := ieee_math libm_ref)
    {| id := "N"; localidad := ""; provincia := ""; poblacion := "";
       estado := ""; lat := lit 1; lng := S754_nan |} sqA
  = S754_nan.
Proof.
  apply (nan_coordinate libm_ref); [done|done|done|by vm_compute].
Defined.

(** ** [MapView]: reading the rows *)

(** X12: only the first comma of a field is turned into a point: the text
    before it and all the text after it, further commas included, are kept;
    a field without a comma is kept as it is. *)
Theorem replace_first_comma (pre post : string) :
  ","%char ∉ String.list_ascii_of_string pre →
  replace_comma (pre +:+ String "," post) = pre +:+ String "." post
  ∧ replace_comma pre = pre.
Proof.
  induction pre as [|c pre IH]; simpl.
  - done.
  - intros [Hc Hpre]%not_elem_of_cons.
    rewrite !decide_False by done. by destruct (IH Hpre) as [-> ->].
Qed.

Lemma replace_first_comma_witness :
  replace_comma "-34,6,1" = "-34.6,1" ∧ replace_comma "-34" = "-34".
Proof.
  apply (replace_first_comma "-34" "6,1"). by apply (bool_decide_unpack _).
Defined.

Section Rows.
Context (parseFloat : string → number).

Lemma parseRow_None row :
  parseRow parseFloat row = None ↔ (length row < 7)%nat.
Proof.
  unfold parseRow.
  do 7 (destruct row as [|? row]; [simpl; split; [intros _; lia|done]|]).
  simpl. split; [done|lia].
Qed.

Lemma parseRow_id row n :
  parseRow parseFloat row = Some n → id n = default "" (head row).
Proof.
  unfold parseRow.
  do 7 (destruct row as [|? row]; [done|]). by intros [= <-].
Qed.

(** X13: reading the rows fails exactly when some row has fewer than seven
    fields: the sixth or the seventh is then [undefined], and has no
    [replace]. *)
Theorem parsedNodes_throws (data : list (list string)) :
  parsedNodes parseFloat data = None
  ↔ ∃ row, row ∈ data ∧ (length row < 7)%nat.
Proof.
  unfold parsedNodes.
  destruct (mapM (parseRow parseFloat) data) as [all|] eqn:Hall; simpl.
  - split; [done|]. intros (row & Hin & Hlen).
    assert (mapM (parseRow parseFloat) data = None); [|congruence].
    apply mapM_None_2, Exists_exists. exists row.
    by rewrite parseRow_None.
  - split; [intros _|done].
    apply mapM_None_1, Exists_exists in Hall as (row & Hin & Hrow).
    exists row. by rewrite <- parseRow_None.
Qed.

(** X14: the points read are the points of the rows whose two coordinates
    parse to a number, infinite ones included, in the order of the rows. *)
Theorem parsedNodes_result (data : list (list string))
    (nodes : list (Point number)) :
  parsedNodes parseFloat data = Some nodes →
  (∀ n, n ∈ nodes ↔
        ∃ row, row ∈ data ∧ parseRow parseFloat row = Some n
               ∧ isNaN (lat n) = false ∧ isNaN (lng n) = false)
  ∧ id <$> nodes `sublist_of` (fun row => default "" (head row)) <$> data.
Proof.
  unfold parsedNodes.
  destruct (mapM (parseRow parseFloat) data) as [all|] eqn:Hall; [|done].
  simpl. intros [= <-]. apply mapM_Some_1 in Hall. split.
  - intros n. rewrite list_elem_of_filter. split.
    + intros [[Hlat Hlng] (i & Hi)%list_elem_of_lookup_1].
      destruct (Forall2_lookup_r _ _ _ _ _ Hall Hi) as (row & Hrow & Hp).
      exists row. split; [by eapply list_elem_of_lookup_2|done].
    + intros (row & (i & Hi)%list_elem_of_lookup_1 & Hp & Hlat & Hlng).
      split; [done|].
      destruct (Forall2_lookup_l _ _ _ _ _ Hall Hi) as (n' & Hn' & Hp').
      assert (n' = n) as -> by congruence.
      by eapply list_elem_of_lookup_2.
  - transitivity (id <$> all); [apply fmap_sublist, sublist_filter|].
    replace (id <$> all) with ((fun row => default "" (head row)) <$> data);
      [done|].
    induction Hall as [|row n data all Hp _ IH]; [done|].
    rewrite !fmap_cons, IH. f_equal. symmetry. by apply parseRow_id.
Qed.

End Rows.

Lemma parsedNodes_result_witness :
  (∀ n, n ∈ [point "7" 1 0] ↔
        ∃ row, row ∈ [["7"; ""; ""; ""; ""; "1"; "0"];
                      ["8"; ""; ""; ""; ""; "x"; "0"]]
               ∧ parseRow (fun s => if decide (s = "1") then lit 1
                                    else if decide (s = "0") then lit 0
                                    else S754_nan) row = Some n
               ∧ isNaN (lat n) = false ∧ isNaN (lng n) = false)
  ∧ id <$> [point "7" 1 0]
    `sublist_of` (fun row => default "" (head row))
                 <$> [["7"; ""; ""; ""; ""; "1"; "0"];
                      ["8"; ""; ""; ""; ""; "x"; "0"]].
Proof.
  apply (parsedNodes_result
           (fun s => if decide (s = "1") then lit 1
                     else if decide (s = "0") then lit 0 else S754_nan)
           [["7"; ""; ""; ""; ""; "1"; "0"];
            ["8"; ""; ""; ""; ""; "x"; "0"]]).
  by vm_compute.
Defined.

(** ** [MapView]: the provinces offered and the points selected *)

Lemma new_Set_snoc l v : new_Set (l ++ [v]) = Set_add (new_Set l) v.
Proof. unfold new_Set. by rewrite foldl_snoc. Qed.

Lemma elem_of_new_Set l x : x ∈ new_Set l ↔ x ∈ l.
Proof.
  induction l as [|v l IH] using rev_ind; [done|].
  rewrite new_Set_snoc, elem_of_app, list_elem_of_singleton, <- IH.
  unfold Set_add. case_decide as Hv.
  - split; [by left|]. intros [?| ->]; done.
  - by rewrite elem_of_app, list_elem_of_singleton.
Qed.

Lemma NoDup_new_Set l : NoDup (new_Set l).
Proof.
  induction l as [|v l IH] using rev_ind; [constructor|].
  rewrite new_Set_snoc. unfold Set_add. case_decide as Hv; [done|].
  apply NoDup_app. split; [done|]. split; [|apply NoDup_singleton].
  intros x Hx ->%list_elem_of_singleton. done.
Qed.

(** The values stay in the order of their first occurrence. *)
Lemma new_Set_cons x l :
  new_Set (x :: l) = x :: filter (fun y => y ≠ x) (new_Set l).
Proof.
  induction l as [|v l IH] using rev_ind; [done|].
  rewrite app_comm_cons, !new_Set_snoc, IH. unfold Set_add.
  destruct (decide (v ∈ new_Set l)) as [Hv|Hv].
  - rewrite decide_True; [done|].
    destruct (decide (v = x)) as [->|Hne]; [by left|].
    right. by apply list_elem_of_filter.
  - rewrite filter_app, filter_singleton; [|done].
    destruct (decide (v = x)) as [->|Hne].
    + rewrite decide_True by by left.
      rewrite decide_False by (by intros ?). by rewrite app_nil_r.
    + rewrite decide_False.
      * by rewrite decide_True.
      * intros [?|[_ ?]%list_elem_of_filter]%elem_of_cons; done.
Qed.

(** X15: the options offered are [Todas], then the province of every
    point, each once, in the order in which the provinces first occur. *)
Theorem province_options (nodes : list (Point number)) :
  head (uniqueProvinces nodes) = Some "Todas"
  ∧ (∀ p, p ∈ tail (uniqueProvinces nodes) ↔
          ∃ n, n ∈ nodes ∧ provincia n = p)
  ∧ NoDup (tail (uniqueProvinces nodes))
  ∧ ∀ n rest, nodes = n :: rest →
      tail (uniqueProvinces nodes)
      = provincia n :: filter (fun p => p ≠ provincia n)
                              (tail (uniqueProvinces rest)).
Proof.
  unfold uniqueProvinces. simpl. split; [done|]. split; [|split].
  - intros p. rewrite elem_of_new_Set, list_elem_of_fmap.
    split; intros (n & Hp & Hn); by exists n.
  - apply NoDup_new_Set.
  - intros n rest ->. by rewrite fmap_cons, new_Set_cons.
Qed.

(** X16: every option offered selects at least one point, when there are
    points at all. *)
Theorem option_selects (provinceFilter : string)
    (nodes : list (Point number)) :
  nodes ≠ [] → provinceFilter ∈ uniqueProvinces nodes →
  filteredNodes provinceFilter nodes ≠ [].
Proof.
  intros Hne Hin. unfold filteredNodes. case_decide as Hp; [done|].
  apply elem_of_cons in Hin as [?|Hin]; [done|].
  apply elem_of_new_Set, list_elem_of_fmap in Hin as (n & -> & Hn).
  intros Hnil. by apply (filter_nil_not_elem_of _ _ n Hnil).
Qed.

Lemma option_selects_witness :
  filteredNodes "" square ≠ [].
Proof.
  apply (option_selects "" square); [done|by apply (bool_decide_unpack _)].
Defined.

(** X17: the options are pairwise distinct exactly when no point has a
    province called [Todas]; such a province is offered a second time, and
    selecting it selects all the points. *)
Theorem todas_province (nodes : list (Point number)) :
  (NoDup (uniqueProvinces nodes)
   ↔ ∀ n, n ∈ nodes → provincia n ≠ "Todas")
  ∧ filteredNodes "Todas" nodes = nodes.
Proof.
  split; [|done]. unfold uniqueProvinces. rewrite NoDup_cons.
  rewrite elem_of_new_Set, list_elem_of_fmap. split.
  - intros [Hnot _] n Hn Hp. apply Hnot. by exists n.
  - intros Hall. split; [|apply NoDup_new_Set].
    intros (n & Hp & Hn). by apply (Hall n).
Qed.

Lemma filter_or_app {A} (P Q : A → Prop)
    `{∀ x, Decision (P x)} `{∀ x, Decision (Q x)} (l : list A) :
  (∀ x, P x → Q x → False) →
  filter P l ++ filter Q l ≡ₚ filter (fun x => P x ∨ Q x) l.
Proof.
  intros Hdis. induction l as [|x l IH]; [done|].
  rewrite !filter_cons.
  destruct (decide (P x)) as [HP|HP], (decide (Q x)) as [HQ|HQ].
  - by destruct (Hdis x).
  - rewrite decide_True by by left. simpl. by rewrite IH.
  - rewrite decide_True by by right.
    by rewrite <- Permutation_middle, IH.
  - rewrite decide_False by (by intros [?|?]). done.
Qed.

Lemma filter_all {A} (P : A → Prop) `{∀ x, Decision (P x)} (l : list A) :
  (∀ x, x ∈ l → P x) → filter P l = l.
Proof.
  induction l as [|x l IH]; [done|]. intros Hall.
  rewrite filter_cons_True by (apply Hall; by left).
  rewrite IH; [done|]. intros y Hy. apply Hall. by right.
Qed.

Lemma filter_none {A} (P : A → Prop) `{∀ x, Decision (P x)} (l : list A) :
  (∀ x, x ∈ l → ¬ P x) → filter P l = [].
Proof.
  induction l as [|x l IH]; [done|]. intros Hall.
  rewrite filter_cons_False by (apply Hall; by left).
  apply IH. intros y Hy. apply Hall. by right.
Qed.

Lemma classes_partition {A} (f : A → string) (ps : list string)
    (l : list A) :
  NoDup ps →
  concat ((fun p => filter (fun n => f n = p) l) <$> ps)
  ≡ₚ filter (fun n => f n ∈ ps) l.
Proof.
  induction ps as [|p ps IH].
  - intros _. simpl. rewrite filter_none; [done|].
    by intros x _ ?%elem_of_nil.
  - intros [Hp Hps]%NoDup_cons. simpl. rewrite (IH Hps).
    rewrite (filter_or_app (fun n => f n = p) (fun n => f n ∈ ps)).
    + apply reflexive_eq, list_filter_iff. intros n.
      by rewrite elem_of_cons.
    + intros n <- ?. done.
Qed.

Lemma filteredNodes_filter (provinceFilter : string)
    (nodes : list (Point number)) :
  provinceFilter ≠ "Todas" →
  filteredNodes provinceFilter nodes
  = filter (fun n => provincia n = provinceFilter) nodes.
Proof. intros Hp. unfold filteredNodes. by rewrite decide_False. Qed.

(** X18: when no province is called [Todas], the options after the first
    divide the points: every point is selected by exactly one of them. *)
Theorem provinces_partition (nodes : list (Point number)) :
  (∀ n, n ∈ nodes → provincia n ≠ "Todas") →
  concat ((fun p => filteredNodes p nodes) <$> tail (uniqueProvinces nodes))
  ≡ₚ nodes.
Proof.
  intros Hall. unfold uniqueProvinces. simpl.
  rewrite (Forall_fmap_ext_1
             (fun p => filteredNodes p nodes)
             (fun p => filter (fun n => provincia n = p) nodes)).
  - rewrite classes_partition by apply NoDup_new_Set.
    rewrite filter_all; [done|]. intros n Hn.
    by apply elem_of_new_Set, list_elem_of_fmap_2.
  - apply Forall_forall. intros p Hp. apply filteredNodes_filter.
    apply elem_of_new_Set, list_elem_of_fmap in Hp as (n & -> & Hn).
    by apply Hall.
Qed.

Lemma provinces_partition_witness :
  concat ((fun p => filteredNodes p towns) <$> tail (uniqueProvinces towns))
  ≡ₚ towns
  ∧ tail (uniqueProvinces towns) = ["Salta"; "Jujuy"].
Proof.
  split; [|done].
  apply (provinces_partition towns).
  intros n Hn. repeat (apply elem_of_cons in Hn as [->|Hn]); try done.
  by apply elem_of_nil in Hn.
Defined.

(** ** [MapView]: what is drawn *)

Lemma filteredNodes_sublist (provinceFilter : string)
    (nodes : list (Point number)) :
  filteredNodes provinceFilter nodes `sublist_of` nodes.
Proof. unfold filteredNodes. case_decide; [done|apply sublist_filter]. Qed.

(** X19: whatever option is selected, the points selected meet the needs
    of the tree builder when the points loaded have distinct identifiers,
    none of them [__proto__]: it returns with a stack as deep as there are
    points loaded, with one edge less than there are markers; the edges
    connect all the points selected, and join points of the selected
    province only. *)
Theorem filtered_tree (E : Engine) (depth : nat) (provinceFilter : string)
    (nodes : list (Point number)) :
  NoDup (id <$> nodes) → "__proto__" ∉ id <$> nodes →
  (length nodes ≤ depth)%nat →
  ∃ mstEdges,
    buildMinimumSpanningTree E depth (filteredNodes provinceFilter nodes)
    = Some mstEdges
    ∧ length mstEdges
      = (length (marker <$> filteredNodes provinceFilter nodes) - 1)%nat
    ∧ (∀ e, e ∈ mstEdges →
         from e ∈ nodes ∧ to e ∈ nodes
         ∧ (provinceFilter ≠ "Todas" →
            provincia (from e) = provinceFilter
            ∧ provincia (to e) = provinceFilter))
    ∧ ∀ a b, a ∈ filteredNodes provinceFilter nodes →
             b ∈ filteredNodes provinceFilter nodes →
             connected (ends <$> mstEdges) (id a) (id b).
Proof.
  intros HV Hproto Hd.
  pose proof (filteredNodes_sublist provinceFilter nodes) as Hsub.
  assert (HV' : NoDup (id <$> filteredNodes provinceFilter nodes))
    by (apply (sublist_NoDup _ (id <$> nodes)); [done|by apply fmap_sublist]).
  assert (Hproto' : "__proto__" ∉ id <$> filteredNodes provinceFilter nodes).
  { intros Hin. apply Hproto.
    by eapply sublist_subseteq, Hin; apply fmap_sublist. }
  assert (Hd' : (length (filteredNodes provinceFilter nodes) ≤ depth)%nat)
    by (apply sublist_length in Hsub; lia).
  destruct (build_spec E depth _ HV' Hproto' Hd')
    as (mst & Hb & _ & Htree).
  exists mst. split; [done|]. split; [|split].
  - rewrite length_fmap.
    by eapply tree_length; [|apply (edges_within E)|].
  - intros e He. apply (proj1 Htree), edges_spec in He as (Hf & Ht & _).
    split; [by eapply sublist_subseteq|].
    split; [by eapply sublist_subseteq|].
    intros Hp. rewrite filteredNodes_filter in Hf, Ht by done.
    apply list_elem_of_filter in Hf, Ht. tauto.
  - intros a b Ha Hb'. apply (proj2 (proj2 Htree));
      by apply list_elem_of_fmap_2.
Qed.

Lemma filtered_tree_witness :
  filteredNodes "Salta" towns = [town "1" "Salta" 0 0; town "3" "Salta" 1 1]
  ∧ ∃ mstEdges,
    buildMinimumSpanningTree engine_ref 4 (filteredNodes "Salta" towns)
    = Some mstEdges
    ∧ length mstEdges
      = (length (marker <$> filteredNodes "Salta" towns) - 1)%nat
    ∧ (∀ e, e ∈ mstEdges →
         from e ∈ towns ∧ to e ∈ towns
         ∧ ("Salta" ≠ "Todas" →
            provincia (from e) = "Salta" ∧ provincia (to e) = "Salta"))
    ∧ ∀ a b, a ∈ filteredNodes "Salta" towns →
             b ∈ filteredNodes "Salta" towns →
             connected (ends <$> mstEdges) (id a) (id b).
Proof.
  split; [done|].
  apply (filtered_tree engine_ref 4 "Salta" towns);
    [by apply (bool_decide_unpack _)|by apply (bool_decide_unpack _)|].
  simpl. lia.
Defined.

(** X20: every line drawn runs between two markers drawn: both positions
    of its path are positions of markers of selected points. *)
Theorem polyline_ends (E : Engine) (depth : nat) (provinceFilter : string)
    (nodes : list (Point number)) (mstEdges : list Edge) (e : Edge)
    (pos : number * number) :
  buildMinimumSpanningTree E depth (filteredNodes provinceFilter nodes)
  = Some mstEdges →
  e ∈ mstEdges → pos ∈ path e →
  ∃ nodo, nodo ∈ filteredNodes provinceFilter nodes
          ∧ marker nodo = (pos, localidad nodo).
Proof.
  intros Hb He Hpos.
  apply (build_candidates _ _ _ _ Hb), edges_spec in He as (Hf & Ht & _).
  unfold path in Hpos.
  apply elem_of_cons in Hpos as [->|Hpos%list_elem_of_singleton];
    [|subst pos]; eauto.
Qed.

Lemma polyline_ends_witness :
  ∃ nodo, nodo ∈ filteredNodes "Todas" square
          ∧ marker nodo = ((lit 1, lit 1), localidad nodo).
Proof.
  apply (polyline_ends engine_ref 4 "Todas" square square_tree
           (edge sqC sqD (S754_finite false 7823455584968741 (-46))));
    [by vm_compute|by left|by left].
Defined.

(** ** Small inputs *)

(** X21: with fewer than two points there is no candidate edge, and the
    tree builder returns the empty list without a call of [find]: no
    frame of the stack is needed. *)
Theorem few_points (E : Engine) (depth : nat) (nodes : list (Point number)) :
  (length nodes ≤ 1)%nat →
  buildMinimumSpanningTree E depth nodes = Some [].
Proof.
  intros Hlen. unfold buildMinimumSpanningTree.
  assert (Hnone : sorted_edges E nodes = []).
  { apply Permutation_nil_r. rewrite sorted_Permutation.
    destruct nodes as [|a [|b rest]]; [done|done|simpl in Hlen; lia]. }
  rewrite Hnone. destruct (init_parent_lookup nodes) as (parent & -> & _).
  done.
Qed.

Lemma few_points_witness :
  buildMinimumSpanningTree engine_ref 0 [sqA] = Some [].
Proof. apply (few_points engine_ref 0 [sqA]). simpl. lia. Defined.

(** X22: a row is read by its first seven fields: further fields change
    nothing. *)
Theorem further_fields (parseFloat : string → number)
    (row more : list string) :
  (7 ≤ length row)%nat →
  parseRow parseFloat (row ++ more) = parseRow parseFloat row.
Proof.
  do 7 (destruct row as [|? row]; [simpl; lia|]). done.
Qed.

Lemma further_fields_witness :
  parseRow (fun _ => lit 0) (["7"; "a"; "b"; "c"; "d"; "0"; "0"] ++ ["x"])
  = parseRow (fun _ => lit 0) ["7"; "a"; "b"; "c"; "d"; "0"; "0"].
Proof.
  apply (further_fields (fun _ => lit 0)
           ["7"; "a"; "b"; "c"; "d"; "0"; "0"] ["x"]).
  simpl. lia.
Defined.
